(** * HOPS: higher-order functions over fixed-length arrays

    A shallow embedding of the combinator library under [include/] and of
    the example programs under [examples/], with the properties proved
    about them.

    Conventions of the embedding.
    - [std::array<T, LEN>] is a [list T]; the template parameter [LEN] is
      the length of the list.
    - An element access [a[i]] is the lookup [a !! i]: outside the array
      it has no value ([None]), and so has the computation around it.
    - A local array declared without an initialiser holds no values yet:
      it is a [list (option T)] of [None]s, filled by [store] and turned
      into an array by [freeze], which demands every element assigned.
    - A callable is a function into [option]: it may itself index arrays.
    - [std::size_t] template arguments are [N]; where the source subtracts
      them the wrap-around at 2^64 is written out.  Loop counters range
      over array indices and are [nat].
    - [char] is the signed 8-bit type of the x86 ABI, [int] is 32 bits. *)

From stdpp Require Import base numbers list option sorting.

Abbreviation array := list (only parsing).

(** ** Storage of local arrays and counted loops *)

Section storage.
Context {T : Type}.

(** [std::array<T, LEN> res;] *)
Definition uninit (LEN : nat) : list (option T) := replicate LEN None.

(** [res[idx] = v;] *)
Definition store (res : list (option T)) (idx : nat) (v : T)
  : option (list (option T)) :=
  if decide (idx < length res) then Some (<[idx := Some v]> res) else None.

(** [return res;] *)
Definition freeze (res : list (option T)) : option (array T) := mapM id res.

(** [temp[r][c] = x;] and [temp[r][c]] on a local array of arrays. *)
Definition store2 (temp : list (list (option T))) (r c : nat) (x : T)
  : option (list (list (option T))) :=
  row ← temp !! r;
  row' ← store row c x;
  Some (<[r := row']> temp).

Definition load2 (temp : list (list (option T))) (r c : nat) : option T :=
  row ← temp !! r; cell ← row !! c; cell.

End storage.

(** [for (idx = lo; idx < lo + n; ++idx) body] over the loop-carried
    state [s]. *)
Fixpoint for_iter {St : Type} (n : nat) (lo : nat)
    (body : nat → St → option St) (s : St) : option St :=
  match n with
  | O => Some s
  | S n' => s' ← body lo s; for_iter n' (S lo) body s'
  end.

(** [for (idx = lo; idx < hi; ++idx) body] *)
Definition for_loop {St : Type} (lo hi : nat)
    (body : nat → St → option St) (s : St) : option St :=
  for_iter (hi - lo) lo body s.

(** [for (idx = lo + n - 1; idx >= lo; --idx) body] *)
Fixpoint for_down_iter {St : Type} (n : nat) (lo : nat)
    (body : nat → St → option St) (s : St) : option St :=
  match n with
  | O => Some s
  | S n' => s' ← body (lo + n') s; for_down_iter n' lo body s'
  end.

Definition size_t_modulus : N := (2 ^ 64)%N.

(** Subtraction of [std::size_t] values. *)
Definition size_sub (a b : N) : N :=
  ((a + size_t_modulus - b mod size_t_modulus) mod size_t_modulus)%N.

(** [LEN - 1] for an array length [LEN]: it wraps around for [LEN = 0]. *)
Definition size_pred (LEN : nat) : N :=
  if decide (LEN = 0) then (size_t_modulus - 1)%N else N.of_nat (LEN - 1).

(** Addition of [std::size_t] values. *)
Definition size_add (a b : N) : N := ((a + b) mod size_t_modulus)%N.

Module hops.

(** *** functools.hpp *)

(** [partial(A, B)(ARGS...)] is [A(B, ARGS...)]; the library applies it
    to two further arguments. *)
Definition partial {TB TS1 TS2 R : Type} (A : TB → TS1 → TS2 → R) (B : TB)
  : TS1 → TS2 → R :=
  λ ARG1 ARG2, A B ARG1 ARG2.

(** [uncurry(F)(P)] is [F(P.first, P.second)]. *)
Definition uncurry {TL TR R : Type} (F : TL → TR → R) : TL * TR → R :=
  λ P, F P.1 P.2.

(** [flip(F)(L, R)] is [F(R, L)]. *)
Definition flip {TL TR R : Type} (F : TR → TL → R) : TL → TR → R :=
  λ L R, F R L.

(** [partial] with one further argument. *)
Definition partial1 {TB TS R : Type} (A : TB → TS → R) (B : TB) : TS → R :=
  λ ARG, A B ARG.

(** [compose(A, B)(ARGS...)] is [A(B(ARGS...))], here with one argument
    and, as [compose2], with two. *)
Definition compose {TS TM R : Type} (A : TM → option R) (B : TS → option TM)
  : TS → option R :=
  λ ARG, m ← B ARG; A m.

Definition compose2 {TS1 TS2 TM R : Type}
    (A : TM → option R) (B : TS1 → TS2 → option TM) : TS1 → TS2 → option R :=
  λ ARG1 ARG2, m ← B ARG1 ARG2; A m.

(** [curry(F)(L, R)] is [F(std::pair(L, R))]. *)
Definition curry {TL TR R : Type} (F : TL * TR → R) : TL → TR → R :=
  λ L R, F (L, R).

(** *** arrayops.hpp *)

(** [log2] and [clog2].  The recursion of [log2] halves [n], a 64-bit
    [std::size_t], until it is at most 2: 64 levels always suffice.  The
    shift [1 << log2(n)] of [clog2] is one of [int], exact for [n] below
    [2^31]. *)
Fixpoint log2_rec (fuel : nat) (n : N) : N :=
  match fuel with
  | O => 1
  | S fuel' => if (n <=? 2)%N then 1%N else (1 + log2_rec fuel' (n / 2))%N
  end.

Definition log2 (n : N) : N := log2_rec 64 n.

Definition clog2 (n : N) : N :=
  (log2 n + (if (N.shiftl 1 (log2 n) <? n) then 1 else 0))%N.

(** The assignments [temp[idx] = v] that [range_loop] performs, in
    order.  [v] and [idx] are [std::size_t]; [fuel] bounds the number of
    iterations. *)
Fixpoint range_loop (fuel : nat) (STOP STEP v idx : N) : option (list (N * N)) :=
  match fuel with
  | O => None
  | S fuel' =>
      if (v <? STOP)%N
      then tr ← range_loop fuel' STOP STEP (size_add v STEP) (size_add idx 1);
           Some ((idx, v) :: tr)
      else Some []
  end.

(** The declared length of the array [range] returns. *)
Definition range_length (STOP START STEP : N) : N :=
  (size_sub STOP START / STEP)%N.

Definition range (fuel : nat) (STOP START STEP : N) : option (array N) :=
  if decide (STEP = 0%N) then None else
  let temp := uninit (N.to_nat (range_length STOP START STEP)) in
  tr ← range_loop fuel STOP STEP START 0;
  temp ← foldl (λ acc w, temp ← acc; store temp (N.to_nat w.1) w.2)
               (Some temp) tr;
  freeze temp.

Definition reverse {T} (IN : array T) : option (array T) :=
  let LEN := length IN in
  res ← for_loop 0 LEN
          (λ idx res, x ← IN !! (LEN - (idx + 1)); store res idx x)
          (uninit LEN);
  freeze res.

Definition prepend {T} (V : T) (IN : array T) : option (array T) :=
  let LEN := length IN in
  res ← store (uninit (LEN + 1)) 0 V;
  res ← for_loop 0 LEN
          (λ idx res, x ← IN !! idx; store res (idx + 1) x) res;
  freeze res.

Definition append {T} (IN : array T) (V : T) : option (array T) :=
  let LEN := length IN in
  res ← for_loop 0 LEN
          (λ idx res, x ← IN !! idx; store res idx x) (uninit (LEN + 1));
  res ← store res LEN V;
  freeze res.

(** In [concatenate_right_loop] the second counter [ridx] starts at
    [LLEN] and advances with [idx]: it is [LLEN + idx]. *)
Definition concatenate {T} (L R : array T) : option (array T) :=
  let LLEN := length L in
  let RLEN := length R in
  res ← for_loop 0 LLEN
          (λ idx res, x ← L !! idx; store res idx x) (uninit (LLEN + RLEN));
  res ← for_loop 0 RLEN
          (λ idx res, x ← R !! idx; store res (LLEN + idx) x) res;
  freeze res.

Definition replicate {T} (LEN : nat) (V : T) : option (array T) :=
  res ← for_loop 0 LEN (λ idx res, store res idx V) (uninit LEN);
  freeze res.

(** [split<IDX>(IN)]; in [split_right_loop], [ridx] is [llen + idx]. *)
Definition split {T} (IDX : N) (IN : array T) : option (array T * array T) :=
  let LEN := length IN in
  let llen := if decide (N.of_nat LEN < IDX)%N then LEN else N.to_nat IDX in
  let rlen := if decide (N.of_nat LEN < IDX)%N then 0 else LEN - N.to_nat IDX in
  l ← for_loop 0 llen
        (λ idx l, x ← IN !! idx; store l idx x) (uninit llen);
  r ← for_loop 0 rlen
        (λ idx r, x ← IN !! (llen + idx); store r idx x) (uninit rlen);
  l ← freeze l;
  r ← freeze r;
  Some (l, r).

Definition head {T} (t : array T) : option T := t !! 0.

(** [At<IDX>()(IN)] *)
Definition At {T} (IDX : N) (IN : array T) : option T := IN !! N.to_nat IDX.

(** [t[LEN-1]]: for [LEN = 0] the index wraps around and lies outside. *)
Definition last {T} (t : array T) : option T :=
  t !! N.to_nat (size_pred (length t)).

(** The result type [std::array<T, LEN-1>] does not exist for [LEN = 0]. *)
Definition tail {T} (IN : array T) : option (array T) :=
  let LEN := length IN in
  if decide (LEN = 0) then None else
  res ← for_loop 0 (LEN - 1)
          (λ idx res, x ← IN !! (idx + 1); store res idx x)
          (uninit (LEN - 1));
  freeze res.

Definition rrotate {T} (IN : array T) : option (array T) :=
  let LEN := length IN in
  p ← split (size_pred LEN) IN;
  uncurry (flip concatenate) p.

(** The result type is [std::array<T, LEN>]: for [LEN = 0] the array that
    [prepend] returns has one element and is not of that type. *)
Definition rshift {T} (V : T) (IN : array T) : option (array T) :=
  let LEN := length IN in
  p ← split (size_pred LEN) IN;
  res ← prepend V p.1;
  if decide (length res = LEN) then Some res else None.

Definition lshift {T} (IN : array T) (V : T) : option (array T) :=
  t ← tail IN; append t V.

Definition lrotate {T} (IN : array T) : option (array T) :=
  p ← split 1 IN;
  uncurry (flip concatenate) p.

(** [construct(A, B)] *)
Definition construct {T} (A B : T) : option (array T) := Some [A; B].

(** *** map.hpp *)

(** [MapHelper<LEN>::operator()]; [MapHelper<0>] returns the empty
    array. *)
Fixpoint MapHelper {TA TR} (LEN : nat) (F : TA → option TR) (IN : array TA)
  : option (array TR) :=
  match LEN with
  | O => Some []
  | S LEN' =>
      x ← IN !! 0;
      y ← F x;
      t ← tail IN;
      r ← MapHelper LEN' F t;
      prepend y r
  end.

Definition map {TA TR} (F : TA → option TR) (IN : array TA)
  : option (array TR) :=
  MapHelper (length IN) F IN.

Module loop.
Definition map {TA TR} (F : TA → option TR) (IN : array TA)
  : option (array TR) :=
  let LEN := length IN in
  temp ← for_loop 0 LEN
           (λ i temp, x ← IN !! i; y ← F x; store temp i y) (uninit LEN);
  freeze temp.

(** [namespace loop] of zip.hpp.  In [loop::unzip] the two local arrays
    are both declared [std::array<TL, LEN>] and returned as the pair of a
    [std::array<TL, LEN>] and a [std::array<TR, LEN>]: the function has an
    instantiation only for pairs whose two types are the same. *)
Definition unzip {T} (IN : array (T * T)) : option (array T * array T) :=
  let LEN := length IN in
  lr ← for_loop 0 LEN
         (λ i (lr : list (option T) * list (option T)),
            p ← IN !! i;
            left ← store lr.1 i p.1;
            right ← store lr.2 i p.2;
            Some (left, right))
         (uninit LEN, uninit LEN);
  left ← freeze lr.1;
  right ← freeze lr.2;
  Some (left, right).

Definition zip {TL TR} (L : array TL) (R : array TR)
  : option (array (TL * TR)) :=
  let LEN := length L in
  if decide (length R = LEN) then
    temp ← for_loop 0 LEN
             (λ i temp, l ← L !! i; r ← R !! i; store temp i (l, r))
             (uninit LEN);
    freeze temp
  else None.

Definition zipWith {TA TB TR} (F : TA → TB → option TR)
    (A : array TA) (B : array TB) : option (array TR) :=
  let LEN := length A in
  if decide (length B = LEN) then
    temp ← for_loop 0 LEN
             (λ i temp, a ← A !! i; b ← B !! i; y ← F a b; store temp i y)
             (uninit LEN);
    freeze temp
  else None.

Definition zipWith3 {TA TB TC TR} (F : TA → TB → TC → option TR)
    (A : array TA) (B : array TB) (C : array TC) : option (array TR) :=
  let LEN := length A in
  if decide (length B = LEN ∧ length C = LEN) then
    temp ← for_loop 0 LEN
             (λ i temp,
                a ← A !! i; b ← B !! i; c ← C !! i; y ← F a b c;
                store temp i y)
             (uninit LEN);
    freeze temp
  else None.
End loop.

(** *** reduce.hpp *)

Fixpoint ReduceHelper_lreduce {TA TI} (LEN : nat) (F : TI → TA → option TI)
    (INIT : TI) (IN : array TA) : option TI :=
  match LEN with
  | O => Some INIT
  | S LEN' =>
      h ← head IN;
      acc ← F INIT h;
      t ← tail IN;
      ReduceHelper_lreduce LEN' F acc t
  end.

Fixpoint ReduceHelper_rreduce {TA TI} (LEN : nat) (F : TA → TI → option TI)
    (IN : array TA) (INIT : TI) : option TI :=
  match LEN with
  | O => Some INIT
  | S LEN' =>
      h ← head IN;
      t ← tail IN;
      r ← ReduceHelper_rreduce LEN' F t INIT;
      F h r
  end.

Definition lreduce {TA TI} (F : TI → TA → option TI) (INIT : TI)
    (IN : array TA) : option TI :=
  ReduceHelper_lreduce (length IN) F INIT IN.

Definition rreduce {TA TI} (F : TA → TI → option TI) (IN : array TA)
    (INIT : TI) : option TI :=
  ReduceHelper_rreduce (length IN) F IN INIT.

(** *** zip.hpp *)

Fixpoint XipHelper_zip {TL TR} (LEN : nat) (L : array TL) (R : array TR)
  : option (array (TL * TR)) :=
  match LEN with
  | O => Some []
  | S LEN' =>
      l ← L !! 0;
      r ← R !! 0;
      tl ← tail L;
      tr ← tail R;
      z ← XipHelper_zip LEN' tl tr;
      prepend (l, r) z
  end.

Fixpoint XipHelper_unzip {TL TR} (LEN : nat) (IN : array (TL * TR))
  : option (array TL * array TR) :=
  match LEN with
  | O => Some ([], [])
  | S LEN' =>
      tI ← tail IN;
      t ← XipHelper_unzip LEN' tI;
      p ← IN !! 0;
      a ← prepend p.1 t.1;
      b ← prepend p.2 t.2;
      Some (a, b)
  end.

Fixpoint XipHelper_zipWith {TA TB TR} (LEN : nat) (F : TA → TB → option TR)
    (A : array TA) (B : array TB) : option (array TR) :=
  match LEN with
  | O => Some []
  | S LEN' =>
      a ← A !! 0;
      b ← B !! 0;
      y ← F a b;
      tA ← tail A;
      tB ← tail B;
      z ← XipHelper_zipWith LEN' F tA tB;
      prepend y z
  end.

Fixpoint XipHelper_zipWith3 {TA TB TC TR} (LEN : nat)
    (F : TA → TB → TC → option TR)
    (A : array TA) (B : array TB) (C : array TC) : option (array TR) :=
  match LEN with
  | O => Some []
  | S LEN' =>
      a ← A !! 0;
      b ← B !! 0;
      c ← C !! 0;
      y ← F a b c;
      tA ← tail A;
      tB ← tail B;
      tC ← tail C;
      z ← XipHelper_zipWith3 LEN' F tA tB tC;
      prepend y z
  end.

(** The wrappers deduce one [LEN] from all their array arguments: with
    arrays of different lengths there is no instantiation. *)
Definition zip {TL TR} (L : array TL) (R : array TR)
  : option (array (TL * TR)) :=
  if decide (length L = length R) then XipHelper_zip (length L) L R
  else None.

Definition unzip {TL TR} (IN : array (TL * TR))
  : option (array TL * array TR) :=
  XipHelper_unzip (length IN) IN.

Definition zipWith {TA TB TR} (F : TA → TB → option TR)
    (A : array TA) (B : array TB) : option (array TR) :=
  if decide (length A = length B) then XipHelper_zipWith (length A) F A B
  else None.

Definition zipWith3 {TA TB TC TR} (F : TA → TB → TC → option TR)
    (A : array TA) (B : array TB) (C : array TC) : option (array TR) :=
  if decide (length A = length B ∧ length A = length C)
  then XipHelper_zipWith3 (length A) F A B C
  else None.

(** *** divconq.hpp *)

(** The callable [F] is applied at two types: to the two one-element
    arrays of a split pair, and to two results of the level below. *)
Record callable (T R : Type) := Callable {
  on_arrays : array T → array T → option R;
  on_results : R → R → option R
}.
Global Arguments Callable {_ _} _ _.
Global Arguments on_arrays {_ _} _ _ _.
Global Arguments on_results {_ _} _ _ _.

(** [DivconqHelper<LEV>::operator()] takes a [std::array<T, (1<<LEV)>];
    [DivconqHelper<1>] is the base case and there is no level 0. *)
Fixpoint DivconqHelper {T R} (LEV : nat) (F : callable T R) (IN : array T)
  : option R :=
  match LEV with
  | O => None
  | S LEV' =>
      if decide (N.of_nat (length IN) = N.shiftl 1 (N.of_nat LEV)) then
        match LEV' with
        | O => p ← split 1 IN; on_arrays F p.1 p.2
        | S _ =>
            p ← split (N.shiftl 1 (N.of_nat LEV')) IN;
            l ← DivconqHelper LEV' F p.1;
            r ← DivconqHelper LEV' F p.2;
            on_results F l r
        end
      else None
  end.

Definition divconq {T R} (F : callable T R) (IN : array T) : option R :=
  DivconqHelper (N.to_nat (clog2 (N.of_nat (length IN)))) F IN.
End hops.

(** ** examples/utility.hpp *)

Section utility.
Context {T : Type}.
(** [T]'s [operator!=]. *)
Context (neq : T → T → bool).

(** The loop of [check] from index [i] on, [n] iterations left. *)
Fixpoint check_loop (n i : nat) (TGT GOLD : array T) : option Z :=
  match n with
  | O => Some 0%Z
  | S n' =>
      t ← TGT !! i;
      g ← GOLD !! i;
      if neq t g then Some (- (Z.of_nat i + 1))%Z
      else check_loop n' (S i) TGT GOLD
  end.

(** [check] receives both arrays by reference; its result is the
    returned [int] together with the two arrays as the call leaves
    them. *)
Definition check (TGT GOLD : array T) : option (Z * array T * array T) :=
  let LEN := length TGT in
  if decide (length GOLD = LEN)
  then r ← check_loop LEN 0 TGT GOLD; Some (r, TGT, GOLD)
  else None.

(** The elements of [TGT] and [GOLD] at the indices from [lo] up to [hi]
    (excluded) are pairwise equal: [operator!=] answers [false]. *)
Definition agree_between (lo hi : nat) (TGT GOLD : list T) : Prop :=
  ∀ j t g, lo ≤ j < hi → TGT !! j = Some t → GOLD !! j = Some g →
           neq t g = false.

End utility.

(** ** examples/argminmax/test.cpp *)

Module argminmax.

Definition LOG_LIST_LENGTH : N := 4.
Definition LIST_LENGTH : N := N.shiftl 1 LOG_LIST_LENGTH.

(** [argmin_t<int>]: [data] is an [int], [idx] and [lev] are
    [std::size_t]. *)
Record argmin_t := Argmin { data : Z; idx : N; lev : N }.

(** [argmin_t<T>::operator()(v)] *)
Definition argmin_init (v : Z) : option argmin_t := Some (Argmin v 0 0).

(** [Argminop::operator()(argmin_t, argmin_t)].  [(b & 1) << lev] shifts
    an [int]: it has a value for [lev] below 31 only. *)
Definition Argminop (L R : argmin_t) : option argmin_t :=
  let b := bool_decide (data R < data L)%Z in
  let lev := lev L in
  let res := if b then data R else data L in
  if decide (lev < 31)%N then
    let idx := N.lor (N.shiftl (N.land (if b then 1 else 0) 1) lev)
                     (if b then idx R else idx L) in
    Some (Argmin res idx (size_add lev 1))
  else None.

(** [Argminop::operator()(std::array<argmin_t, 1>, std::array<argmin_t, 1>)] *)
Definition Argminop_arrays (L R : array argmin_t) : option argmin_t :=
  if decide (length L = 1 ∧ length R = 1)
  then l ← L !! 0; r ← R !! 0; Argminop l r
  else None.

Definition argminop : hops.callable argmin_t argmin_t :=
  hops.Callable Argminop_arrays Argminop.

Definition argmin_loop_synth (IN : array Z) : option (Z * N) :=
  if decide (N.of_nat (length IN) = LIST_LENGTH) then
    let LEV := N.to_nat (hops.clog2 LIST_LENGTH) in
    let temp : list (list (option argmin_t)) :=
      replicate (LEV + 1) (uninit (2 ^ LEV)) in
    temp ← for_loop 0 (2 ^ LEV)
             (λ idx temp, x ← IN !! idx;
                          store2 temp 0 idx (Argmin x (N.of_nat idx) 0))
             temp;
    temp ← for_loop 1 (LEV + 1)
             (λ lev temp,
                for_loop 0 (2 ^ (LEV - lev))
                  (λ idx temp,
                     l ← load2 temp (lev - 1) (2 * idx);
                     r ← load2 temp (lev - 1) (2 * idx + 1);
                     y ← Argminop l r;
                     store2 temp lev idx y)
                  temp)
             temp;
    out ← load2 temp LEV 0;
    Some (data out, idx out)
  else None.

Definition argmin_hop_synth (IN : array Z) : option (Z * N) :=
  if decide (N.of_nat (length IN) = LIST_LENGTH) then
    m ← hops.map argmin_init IN;
    out ← hops.divconq argminop m;
    Some (data out, idx out)
  else None.

(** The reference scan of [argmin_test]: [gold] starts as the
    value-initialised pair [(0, 0)]. *)
Definition gold_scan (input : array Z) : option (Z * N) :=
  for_loop 0 (N.to_nat LIST_LENGTH)
    (λ i gold, x ← input !! i;
               Some (if bool_decide (x < gold.1)%Z then (x, N.of_nat i)
                     else gold))
    (0%Z, 0%N).

(** A linear scan for the minimum value and its first index, started
    from the first element. *)
Fixpoint linear_scan (best : Z * N) (i : N) (l : list Z) : Z * N :=
  match l with
  | [] => best
  | x :: l' =>
      linear_scan (if bool_decide (x < best.1)%Z then (x, i) else best)
                  (i + 1)%N l'
  end.

Definition linear_argmin (l : list Z) : option (Z * N) :=
  match l with
  | [] => None
  | x :: l' => Some (linear_scan (x, 0%N) 1%N l')
  end.

End argminmax.

(** ** examples/insertion_sort/test.cpp *)

Module insertion_sort.

Definition LIST_LENGTH : nat := 16.

(** [isort_t<int>]: a value and the boundary flag. *)
Definition isort_t : Type := Z * bool.

(** [MinOp::operator()] *)
Definition minOp (me : isort_t) (past : array isort_t)
  : option (array isort_t) :=
  in_ ← hops.head past;
  let comparison := bool_decide (me.1 < in_.1)%Z && negb me.2 in
  let bump : isort_t := (if comparison then in_.1 else me.1, me.2) in
  let newme : isort_t := (if comparison then me.1 else in_.1, in_.2) in
  t ← hops.tail past;
  r ← hops.prepend newme t;
  hops.prepend bump r.


Definition isort_hop_synth (arr : array isort_t) (IN : isort_t)
  : option (isort_t * array isort_t) :=
  if decide (length arr = LIST_LENGTH) then
    out ← hops.rreduce minOp arr [IN];
    arr' ← hops.tail out;
    res ← hops.head out;
    Some (res, arr')
  else None.

Definition isort_loop_synth (arr : array isort_t) (IN : isort_t)
  : option (isort_t * array isort_t) :=
  if decide (length arr = LIST_LENGTH) then
    st ← for_down_iter LIST_LENGTH 0
           (λ i (st : array isort_t * isort_t),
              let (arr, bump) := st in
              me ← arr !! i;
              let comparison := bool_decide (me.1 < bump.1)%Z && negb me.2 in
              let newme : isort_t :=
                (if comparison then me.1 else bump.1, bump.2) in
              let bump' : isort_t :=
                (if comparison then bump.1 else me.1, me.2) in
              Some (<[i := newme]> arr, bump'))
           (arr, IN);
    Some (st.2, st.1)
  else None.




End insertion_sort.

(** ** examples/smith_waterman *)

(** *** systolic.hpp *)

Module systolic_hpp.

(** [matrix<T, W, H>] is an array of [H] rows, each an array of [W]
    elements. *)
Abbreviation matrix T := (list (list T)) (only parsing).

Record triple (TF TS TT : Type) := Triple { left : TF; top : TS; hist : TT }.
Global Arguments Triple {_ _ _} _ _ _.
Global Arguments left {_ _ _} _.
Global Arguments top {_ _ _} _.
Global Arguments hist {_ _ _} _.

(** [triple::operator()] *)
Definition triplizer {TF TS TT} (f : TF) (s : TS) (t : TT)
  : option (triple TF TS TT) :=
  Some (Triple f s t).

(** [Wrapper::operator()]; a [pair_t] is a pair. *)
Definition wrapper {TL TT TS}
    (F : TL → TT → matrix TS → option TS)
    (past : array TS * matrix TS) (cur : triple TL TT (array TS))
  : option (array TS * matrix TS) :=
  smatrix ← hops.prepend (hist cur) past.2;
  result ← F (left cur) (top cur) smatrix;
  col ← hops.append past.1 result;
  Some (col, smatrix).

Definition systolic {TL TT TS}
    (F : TL → TT → matrix TS → option TS)
    (left : array TL) (top : array TT) (smatrix : matrix TS)
  : option (matrix TS) :=
  let init : array TS * matrix TS := ([], []) in
  trips ← hops.zipWith3 triplizer left top smatrix;
  r ← hops.lreduce (hops.partial wrapper F) init trips;
  let newcol := r.1 in
  hops.zipWith hops.rshift newcol smatrix.

Module sloop.

(** [sloop::systolic]; [W] is the template parameter of the matrix type.
    The column counter [col] is a [std::size_t] that runs from [W - 1]
    down to 1; for [W = 0] it starts from the wrapped-around value, far
    outside the row. *)
Definition systolic {TL TT TS} (W : nat)
    (F : nat → TL → TT → matrix TS → option TS)
    (left : array TL) (top : array TT) (smatrix : matrix TS)
  : option (matrix TS) :=
  let H := length smatrix in
  if decide (length left = H ∧ length top = H ∧ W ≠ 0) then
    newcol ← for_loop 0 H
               (λ row newcol,
                  l ← left !! row;
                  t ← top !! row;
                  y ← F row l t smatrix;
                  store newcol row y)
               (uninit H);
    newsmatrix ← for_loop 0 H
               (λ row newsmatrix,
                  newsmatrix ← for_down_iter (W - 1) 1
                      (λ col newsmatrix,
                         r ← smatrix !! row;
                         x ← r !! (col - 1);
                         store2 newsmatrix row col x)
                      newsmatrix;
                  x ← newcol !! row;
                  x ← x;
                  store2 newsmatrix row 0 x)
               (replicate H (uninit W));
    mapM freeze newsmatrix
  else None.

End sloop.
End systolic_hpp.

(** *** smith_waterman.hpp and test.cpp *)

Module smith_waterman.
Export systolic_hpp.

Definition MATCH : Z := 2.
Definition ALPHA : Z := 2.
Definition BETA : Z := 1.
Definition READ_LENGTH : nat := 16.
Definition SW_HIST : nat := 2.

(** Conversion of an integer to [char]. *)
Definition to_char (z : Z) : Z := ((z + 128) `mod` 256 - 128)%Z.

(** [hw_base] is [char] unless the build is bit-accurate. *)
Definition hw_base : Type := Z.

(** [struct score { char v, e, f; }] *)
Record score := Score { v : Z; e : Z; f : Z }.

Record sw_ref := SwRef { b : hw_base; last : bool }.

(** [randtobase] at an unsigned integer type of [sizeof_IN] bytes, as the
    test calls it with an [unsigned char]: the three high bits of [IN]
    select the symbol; the symbols are the characters a, c, t, g and x. *)
Definition randtobase (sizeof_IN : Z) (IN : Z) : Z :=
  match Z.shiftr IN (8 * sizeof_IN - 3) with
  | 0 => 97
  | 1 => 99
  | 2 => 116
  | 3 => 103
  | _ => 120
  end%Z.

(** [toHwBase] and [toSwBase] return their argument unless the build is
    bit-accurate. *)
Definition to_hw_base (IN : Z) : hw_base := IN.
Definition to_sw_base (IN : hw_base) : Z := IN.

(** [smatrix[r][c]] *)
Definition at2 {T} (smatrix : matrix T) (r c : nat) : option T :=
  row ← smatrix !! r; row !! c.

(** The operators of [SmithWatermanUnit] that the fold calls on the rows
    gathered so far, newest first: the overload for a one-row matrix and
    the template over the number [IDX] of rows. *)
Definition sw_op_rec (read : hw_base) (ref : sw_ref) (smatrix : matrix score)
  : option score :=
  let IDX := length smatrix in
  if decide (IDX = 1) then Some (Score 0 0 0)
  else if last ref then
    let m := to_char (- Z.of_nat IDX) in Some (Score m m m)
  else
    let sigma := if decide (read = b ref) then MATCH else (- MATCH)%Z in
    c00 ← at2 smatrix 0 0;
    c10 ← at2 smatrix 1 0;
    c11 ← at2 smatrix 1 1;
    let ret_e := to_char (Z.max (v c00 - ALPHA) (e c00 - BETA)) in
    let ret_f := to_char (Z.max (v c10 - ALPHA) (f c10 - BETA)) in
    let ret_v := Z.max (to_char (v c11 + sigma)) (Z.max ret_e ret_f) in
    Some (Score ret_v ret_e ret_f).

(** The operator that the loop calls with the row index [IDX] and the
    whole matrix of [READ_LENGTH] rows. *)
Definition sw_op_loop (IDX : nat) (read : hw_base) (ref : sw_ref)
    (smatrix : matrix score) : option score :=
  if decide (length smatrix = READ_LENGTH) then
    if decide (IDX = 0) then Some (Score 0 0 0)
    else if last ref then
      let m := to_char (- (Z.of_nat IDX + 1)) in Some (Score m m m)
    else
      let sigma := if decide (read = b ref) then MATCH else (- MATCH)%Z in
      c00 ← at2 smatrix (IDX + 0) 0;
      c10 ← at2 smatrix (IDX - 1) 0;
      c11 ← at2 smatrix (IDX - 1) 1;
      let ret_e := to_char (Z.max (v c00 - ALPHA) (e c00 - BETA)) in
      let ret_f := to_char (Z.max (v c10 - ALPHA) (f c10 - BETA)) in
      let ret_v := Z.max (to_char (v c11 + sigma)) (Z.max ret_e ret_f) in
      Some (Score ret_v ret_e ret_f)
  else None.

(** Both entry points take a matrix of [READ_LENGTH] rows of [SW_HIST]
    scores. *)
Definition well_formed (smatrix : matrix score) : Prop :=
  length smatrix = READ_LENGTH ∧ Forall (λ row, length row = SW_HIST) smatrix.

Definition systolic_hop_synth (left : array hw_base) (top : array sw_ref)
    (smatrix : matrix score) : option (matrix score) :=
  if decide (well_formed smatrix) then systolic sw_op_rec left top smatrix
  else None.

Definition systolic_loop_synth (left : array hw_base) (top : array sw_ref)
    (smatrix : matrix score) : option (matrix score) :=
  if decide (well_formed smatrix)
  then sloop.systolic SW_HIST sw_op_loop left top smatrix
  else None.

End smith_waterman.

(** ** examples/reduce/test.cpp *)

Module reduce_test.

Definition MULTCONST : Z := 35.
Definition LOG_LIST_LENGTH : nat := 4.
Definition LIST_LENGTH : nat := Nat.shiftl 1 LOG_LIST_LENGTH.

(** The lambda of [minleft_hop_synth] and [minright_hop_synth]. *)
Definition lambdamin (L R : Z) : option Z :=
  Some (if bool_decide (L < R)%Z then L else R).

Definition minleft_hop_synth (IN : array Z) : option Z :=
  if decide (length IN = LIST_LENGTH)
  then hops.lreduce lambdamin 1001%Z IN
  else None.

Definition minright_hop_synth (IN : array Z) : option Z :=
  if decide (length IN = LIST_LENGTH)
  then hops.rreduce lambdamin IN 1001%Z
  else None.

(** [std::multiplies<int>]: a product outside the range of [int] has no
    defined value. *)
Definition multiplies (a b : Z) : option Z :=
  let r := (a * b)%Z in
  if decide (- 2 ^ 31 ≤ r < 2 ^ 31)%Z then Some r else None.

(** [Transform::operator()] *)
Definition transform {TA TI} (F : TA → option TI) (CUR : TA)
    (INIT : array TI) : option (array TI) :=
  y ← F CUR; hops.prepend y INIT.

(** The callable [f] keeps only references to the objects it is built
    from, temporaries of the statement that declares it; the model takes
    [f] as the callable those objects make up. *)
Definition trans_hop_synth (IN : array Z) : option (array Z) :=
  if decide (length IN = LIST_LENGTH) then
    let init : array Z := [] in
    let f := hops.partial transform (hops.partial1 multiplies MULTCONST) in
    hops.rreduce f IN init
  else None.

(** The two reversals move [float]s and never compute with them. *)
Section reverse.
Context {float : Type}.

Definition reverse_hop_synth (in_ : array float) : option (array float) :=
  if decide (length in_ = LIST_LENGTH) then
    let init : array float := [] in
    hops.lreduce (hops.flip hops.prepend) init in_
  else None.

Definition reverse_loop_synth (in_ : array float) : option (array float) :=
  if decide (length in_ = LIST_LENGTH) then
    out ← for_loop 0 LIST_LENGTH
            (λ i out, x ← in_ !! (LIST_LENGTH - i - 1); store out i x)
            (uninit LIST_LENGTH);
    freeze out
  else None.
End reverse.

Definition _interleave {T} (L R : array T) : option (array T) :=
  let LEN := length L in
  if decide (length R = LEN) then
    out ← for_loop 0 LEN
            (λ i out,
               l ← L !! i;
               out ← store out (2 * i) l;
               r ← R !! i;
               store out (2 * i + 1) r)
            (uninit (2 * LEN));
    freeze out
  else None.

Definition interleave_hop_synth (L R : array N) : option (array N) :=
  if decide (length L = LIST_LENGTH ∧ length R = LIST_LENGTH) then
    let init : array N := [] in
    z ← hops.zipWith hops.construct L R;
    hops.rreduce hops.concatenate z init
  else None.

Definition interleave_loop_synth (L R : array N) : option (array N) :=
  if decide (length L = LIST_LENGTH ∧ length R = LIST_LENGTH)
  then _interleave L R
  else None.

End reduce_test.

(** ** examples/divconq/test.cpp *)

Module divconq_test.

Definition LOG_LIST_LENGTH : nat := 4.
Definition LIST_LENGTH : nat := Nat.shiftl 1 LOG_LIST_LENGTH.

(** The lambda of [min_hop_synth] takes two [std::array<int, 1>]. *)
Definition lambdamin (L R : array Z) : option (array Z) :=
  if decide (length L = 1 ∧ length R = 1) then
    l ← L !! 0;
    r ← R !! 0;
    Some [if bool_decide (l < r)%Z then l else r]
  else None.

Definition min_hop_synth (IN : array Z) : option Z :=
  if decide (length IN = LIST_LENGTH) then
    r ← hops.divconq (hops.Callable lambdamin lambdamin) IN;
    r !! 0
  else None.

(** [Interleave::operator()] *)
Definition Interleave {T} (L R : array T) : option (array T) :=
  if decide (length L = length R) then
    let init : array T := [] in
    z ← hops.loop.zipWith hops.construct L R;
    hops.lreduce hops.concatenate init z
  else None.

Definition interleave {T} : hops.callable T (array T) :=
  hops.Callable Interleave Interleave.

(** The callable [fn] keeps only references to the objects it is built
    from, temporaries of the statement that declares it; the model takes
    [fn] as the callable those objects make up. *)
Definition idx_bitreverse_hop_synth (IN : array N) : option (array N) :=
  if decide (length IN = LIST_LENGTH) then
    let init : array N := [] in
    let fn :=
      hops.compose2
        (hops.partial1 (hops.partial hops.lreduce hops.concatenate) init)
        (hops.partial hops.loop.zipWith hops.construct) in
    hops.divconq (hops.Callable fn fn) IN
  else None.

(** [bitreverse<BITS>(i)].  The accumulator [b] is an [int]; it stays
    below [2^W], within the range of [int] for every [BITS] up to
    [2^31]. *)
Definition bitreverse_BITS (BITS : N) (i : N) : N :=
  let W := N.to_nat (hops.clog2 BITS) in
  foldl (λ b j, N.lor (N.shiftl b 1) (N.land (N.shiftr i (N.of_nat j)) 1))
        0%N (seq 0 W).

(** [bitreverse(IN)] on an array: the loop runs over [LIST_LENGTH]
    indices whatever the length [LEN] of the array; [b] is an
    [unsigned int]. *)
Definition bitreverse {T} (IN : array T) : option (array T) :=
  let LEN := length IN in
  OUT ← for_loop 0 LIST_LENGTH
          (λ t OUT,
             let b := (bitreverse_BITS (N.of_nat LEN) (N.of_nat t)
                       mod 2 ^ 32)%N in
             x ← IN !! N.to_nat b;
             store OUT t x)
          (uninit LEN);
  freeze OUT.

Definition idx_bitreverse_loop_synth (IN : array N) : option (array N) :=
  if decide (length IN = LIST_LENGTH) then bitreverse IN else None.

End divconq_test.

(** ** examples/map/test.cpp *)

Module map_test.

Definition LOG_LIST_LENGTH : nat := 4.
Definition LIST_LENGTH : nat := Nat.shiftl 1 LOG_LIST_LENGTH.

(** [bitreverse] of an [unsigned int]: [o << 1] wraps around at
    [2^32]. *)
Definition bitreverse (i : N) : N :=
  foldl (λ o j, N.lor (N.shiftl o 1 mod 2 ^ 32)
                      (N.land (N.shiftr i (N.of_nat j)) 1))
        0%N (seq 0 32).

Definition bitreverse_hop_synth (IN : array N) : option (array N) :=
  if decide (length IN = LIST_LENGTH)
  then hops.map (λ i, Some (bitreverse i)) IN
  else None.

Definition bitreverse_loop_synth (IN : array N) : option (array N) :=
  if decide (length IN = LIST_LENGTH)
  then hops.loop.map (λ i, Some (bitreverse i)) IN
  else None.

End map_test.

(** ** examples/bitonic_sort/bitonic.hpp *)

Module bitonic.

(** [CAS<true>] and [CAS<false>], instantiated as [min] and [max]. *)
Definition CAS (min : bool) (l r : Z) : option (Z * Z) :=
  if min then
    if bool_decide (l ≤ r)%Z then Some (r, l) else Some (l, r)
  else
    if bool_decide (l >= r)%Z then Some (r, l) else Some (l, r).

Definition min : Z → Z → option (Z * Z) := CAS true.
Definition max : Z → Z → option (Z * Z) := CAS false.

(** [Interleave::operator()]; fft.hpp has the same. *)
Definition Interleave {T} (L R : array T) : option (array T) :=
  if decide (length L = length R) then
    let init : array T := [] in
    z ← hops.zipWith hops.construct L R;
    hops.rreduce hops.concatenate z init
  else None.

Definition interleave {T} : hops.callable T (array T) :=
  hops.Callable Interleave Interleave.

(** [Bitreverse::operator()]; fft.hpp has the same. *)
Definition bitreverse {T} (IN : array T) : option (array T) :=
  hops.divconq interleave IN.

(** [BitonicOperator::operator()]: the overload for two one-element
    arrays, which overload resolution prefers, and the general one.  The
    comparison is that of [int].  The callable [swap] keeps only
    references to the objects it is built from, temporaries of the
    statement that declares it; the model takes [swap] as the callable
    those objects make up. *)
Definition BitonicOperator (L R : array Z) : option (array Z) :=
  if decide (length L = length R) then
    if decide (length L = 1) then
      z ← hops.zipWith min L R;
      p ← hops.unzip z;
      hops.uncurry hops.concatenate p
    else
      rR ← hops.reverse R;
      z ← hops.zipWith min L rR;
      p ← hops.unzip z;
      let swap :=
        hops.compose2 (hops.uncurry hops.concatenate)
          (hops.compose2 hops.unzip (hops.partial hops.zipWith min)) in
      bl ← bitreverse p.1;
      l ← hops.divconq (hops.Callable swap swap) bl;
      br ← bitreverse p.2;
      r ← hops.divconq (hops.Callable swap swap) br;
      bl' ← bitreverse l;
      br' ← bitreverse r;
      hops.concatenate bl' br'
  else None.

Definition bitonicOperator : hops.callable Z (array Z) :=
  hops.Callable BitonicOperator BitonicOperator.

Definition bitonic_sort (IN : array Z) : option (array Z) :=
  hops.divconq bitonicOperator IN.

Module loop.

(** [loop::bitreverse]; fft.hpp has the same.  [b] is an
    [unsigned int]. *)
Definition bitreverse {T} (IN : array T) : option (array T) :=
  let LEN := length IN in
  let LEV := N.to_nat (hops.log2 (N.of_nat LEN)) in
  out ← for_loop 0 LEN
          (λ t out,
             let b :=
               foldl (λ b j, N.lor (N.shiftl b 1 mod 2 ^ 32)
                               (N.land (N.shiftr (N.of_nat t) (N.of_nat j)) 1))
                     0%N (seq 0 LEV) in
             x ← IN !! N.to_nat b;
             out ← store out t x;
             y ← IN !! t;
             store out (N.to_nat b) y)
          (uninit LEN);
  freeze out.

(** [loop::butterfly].  [stagearr] is a local array of [LEV + 1] arrays;
    [LEV] and the loop counters are [int]s and [1 << (l + 1)] shifts an
    [int]: the model has a value for [LEV] below 31 only. *)
Definition butterfly (F : Z → Z → option (Z * Z)) (IN : array Z)
  : option (array Z) :=
  let LEN := length IN in
  let LEV := N.to_nat (hops.clog2 (N.of_nat LEN)) in
  if decide (LEV < 31) then
    let stagearr : list (list (option Z)) :=
      replicate (LEV + 1) (uninit LEN) in
    stagearr ← for_loop 0 LEN
                 (λ i stagearr, x ← IN !! i; store2 stagearr 0 i x)
                 stagearr;
    stagearr ← for_loop 0 LEV
                 (λ l stagearr,
                    let stride := N.shiftl 1 (N.of_nat l) in
                    let mask := (stride - 1)%N in
                    for_loop 0 (N.to_nat (N.shiftl 1 (N.of_nat (LEV - 1))))
                      (λ i stagearr,
                         let grp := N.shiftr (N.of_nat i) (N.of_nat l) in
                         let top := N.land (N.of_nat i) mask in
                         let base :=
                           (top + N.shiftl grp (N.of_nat (l + 1)))%N in
                         a ← load2 stagearr l (N.to_nat base);
                         b ← load2 stagearr l (N.to_nat (base + stride));
                         o ← F a b;
                         stagearr ← store2 stagearr (l + 1) (N.to_nat base)
                                      o.1;
                         store2 stagearr (l + 1) (N.to_nat (base + stride))
                           o.2)
                      stagearr)
                 stagearr;
    row ← stagearr !! LEV;
    freeze row
  else None.

(** [BitonicStage::operator()]: the overload for two one-element arrays
    and the general one; [bitreverse] is the loop of this namespace. *)
Definition BitonicStage (L R : array Z) : option (array Z) :=
  if decide (length L = length R) then
    if decide (length L = 1) then hops.concatenate L R
    else
      bl ← bitreverse L;
      fl ← butterfly max bl;
      lsub ← bitreverse fl;
      br ← bitreverse R;
      fr ← butterfly min br;
      rsub ← bitreverse fr;
      hops.concatenate lsub rsub
  else None.

Definition bitonicStage : hops.callable Z (array Z) :=
  hops.Callable BitonicStage BitonicStage.

(** [loop::bitonic_sort] *)
Definition bitonic_sort (IN : array Z) : option (array Z) :=
  d ← hops.divconq bitonicStage IN;
  b ← bitreverse d;
  f ← butterfly min b;
  bitreverse f.

End loop.
End bitonic.

(** ** examples/finite_impulse_response/test.cpp *)

Module fir.
Section fir.

(** [data_t], [coef_t] and [acc_t] are all [float] unless the build is
    bit-accurate; the functions use its zero, sum and product.  The
    number of taps [C_NUM_TAPS] and the coefficients [COEFFS_INIT] come
    from a header that is not part of the sources: they are any array
    [coeffs]. *)
Context {data_t : Type}.
Context (zero : data_t) (plus multiplies : data_t → data_t → data_t).
Context (coeffs : array data_t).





End fir.
End fir.

(** ** Functions the properties of the insertion sort are stated with *)

Module isort_model.
Import insertion_sort.

(** One cell of the sorter meeting the value that travels through the
    array: the new content of the cell and the value that travels on. *)
Definition cell_step (me bump : isort_t) : isort_t * isort_t :=
  let comparison := bool_decide (me.1 < bump.1)%Z && negb me.2 in
  ((if comparison then me.1 else bump.1, bump.2),
   (if comparison then bump.1 else me.1, me.2)).

(** An empty cell, and values stored as untagged cells. *)
Abbreviation zero := (0%Z, false) (only parsing).
Abbreviation tag S := ((λ x : Z, (x, false)) <$> S) (only parsing).

(** One call: [IN] travels from the last cell of [arr] to the first; the
    result is the value that leaves the array and the new array. *)
Fixpoint pass (arr : list isort_t) (IN : isort_t) : isort_t * list isort_t :=
  match arr with
  | [] => (IN, [])
  | me :: rest =>
      let r := pass rest IN in
      let s := cell_step me r.1 in
      (s.2, s.1 :: r.2)
  end.






End isort_model.

(** ** Functions the properties of the arg-min are stated with *)

Module argmin_model.
Import argminmax.

(** [v] is the minimum of [l] and [i] the first index that holds it. *)
Definition is_first_min (l : list Z) (v : Z) (i : N) : Prop :=
  l !! N.to_nat i = Some v ∧
  Forall (λ y, (v ≤ y)%Z) l ∧
  Forall (λ y, (v < y)%Z) (take (N.to_nat i) l).

(** One level of the staged table: entries [2*idx] and [2*idx+1] of the
    level below combined into entry [idx]. *)
Fixpoint combine_pairs (prev : list argmin_t) : option (list argmin_t) :=
  match prev with
  | l :: r :: rest =>
      y ← Argminop l r; ys ← combine_pairs rest; Some (y :: ys)
  | _ => Some []
  end.

(** The entries of one level of the table over the input [l]: entry [j]
    covers the [j]-th block of [2^lev] inputs and carries the minimum of
    the block and the index in [l] of its first occurrence; [base] is the
    index at which the first block starts. *)
Inductive level_ok (lev : N) : N → list argmin_t → list Z → Prop :=
  | level_ok_nil base : level_ok lev base [] []
  | level_ok_cons base v i block row l :
      N.of_nat (length block) = (2 ^ lev)%N →
      is_first_min block v i →
      level_ok lev (base + 2 ^ lev) row l →
      level_ok lev base (Argmin v (base + i) lev :: row) (block ++ l).

End argmin_model.

(** ** Functions the properties of the Smith-Waterman update are stated
    with *)

Module sw_model.
Import smith_waterman.


(** The same update with the conversions to [char] of the code. *)
Definition sw_cell (row_index : nat) (read : hw_base) (ref : sw_ref)
    (cell_left cell_above cell_diag : score) : score :=
  if last ref then
    let m := to_char (- (Z.of_nat row_index + 1)) in Score m m m
  else
    let sigma := if decide (read = b ref) then MATCH else (- MATCH)%Z in
    let e' := to_char (Z.max (v cell_left - ALPHA) (e cell_left - BETA)) in
    let f' := to_char (Z.max (v cell_above - ALPHA) (f cell_above - BETA)) in
    Score (Z.max (to_char (v cell_diag + sigma)) (Z.max e' f')) e' f'.


(** The new score of row [r] of the matrix: zero for row 0, the cell
    update from the row's own newest score and the two newest scores of
    the row above otherwise. *)
Definition sw_new_cell (left : list hw_base) (top : list sw_ref)
    (smatrix : list (list score)) (r : nat) : option score :=
  read ← left !! r;
  ref ← top !! r;
  match r with
  | O => Some (Score 0 0 0)
  | S r' =>
      cell_left ← at2 smatrix r 0;
      cell_above ← at2 smatrix r' 0;
      cell_diag ← at2 smatrix r' 1;
      Some (sw_cell r read ref cell_left cell_above cell_diag)
  end.

(** One step of the wavefront: every row takes its new score in front
    and drops its oldest one. *)
Definition sw_step (left : list hw_base) (top : list sw_ref)
    (smatrix : list (list score)) : option (list (list score)) :=
  cells ← mapM (sw_new_cell left top smatrix) (seq 0 (length smatrix));
  Some (zip_with (λ c row, c :: take (length row - 1) row) cells smatrix).

End sw_model.

(** ** Functions the properties of the bit reversal are stated with *)

Module bitrev_model.

(** The number whose [W] low bits are those of [t] in reverse order. *)
Fixpoint bitrev (W : nat) (t : N) : N :=
  match W with
  | O => 0
  | S W' => (t mod 2 * 2 ^ N.of_nat W' + bitrev W' (t / 2))%N
  end.

(** Elements taken in turn from [L] and from [R]. *)
Fixpoint interleave_list {T} (L R : list T) : list T :=
  match L, R with
  | l :: L', r :: R' => l :: r :: interleave_list L' R'
  | _, _ => []
  end.

(** A local array that a loop fills with the elements of [tgt] in some
    order: the elements assigned so far are those that [mask] marks. *)
Definition masked {T} (mask : list bool) (tgt : list T) : list (option T) :=
  zip_with (λ (m : bool) x, if m then Some x else None) mask tgt.

(** The array of [2^LEV] elements with the two halves reversed bitwise
    and interleaved. *)
Fixpoint bitrev_list {T} (LEV : nat) (IN : list T) : list T :=
  match LEV with
  | O => IN
  | S LEV' =>
      interleave_list (bitrev_list LEV' (take (2 ^ LEV') IN))
                      (bitrev_list LEV' (drop (2 ^ LEV') IN))
  end.

End bitrev_model.

(** ** Functions the properties of the bitonic sort are stated with *)

Module bitonic_model.
Import bitrev_model.

Section net.
Context (f g : Z → Z → Z).

(** The compare-and-swap of two arrays, element by element: the first
    components, then the second components. *)
Definition swap (L R : list Z) : list Z := zip_with f L R ++ zip_with g L R.

(** The butterfly network on [2^k] elements. *)
Fixpoint bfly (k : nat) (X : list Z) : list Z :=
  match k with
  | O => X
  | S k' => swap (bfly k' (take (2 ^ k') X)) (bfly k' (drop (2 ^ k') X))
  end.

(** The butterfly between two bit reversals. *)
Definition merge (k : nat) (X : list Z) : list Z :=
  bitrev_list k (bfly k (bitrev_list k X)).
End net.

(** What [bitonic_sort] computes on [2^k] elements. *)
Fixpoint bsort (k : nat) (X : list Z) : list Z :=
  match k with
  | O => X
  | S k' =>
      let L := bsort k' (take (2 ^ k') X) in
      let R := reverse (bsort k' (drop (2 ^ k') X)) in
      merge Z.max Z.min k' (zip_with Z.max L R)
      ++ merge Z.max Z.min k' (zip_with Z.min L R)
  end.

(** What [divconq(bitonicStage, IN)] computes on [2^k] elements. *)
Fixpoint bstage (k : nat) (X : list Z) : list Z :=
  match k with
  | O => X
  | S k' =>
      merge Z.min Z.max k' (bstage k' (take (2 ^ k') X))
      ++ merge Z.max Z.min k' (bstage k' (drop (2 ^ k') X))
  end.

(** [nb] blocks of [s] elements each, with [F] applied to every block. *)
Fixpoint blocks (F : list Z → list Z) (s nb : nat) (X : list Z) : list Z :=
  match nb with
  | O => []
  | S nb' => F (take s X) ++ blocks F s nb' (drop s X)
  end.

(** One stage of [loop::butterfly]: [nb] blocks of [2 * s] elements,
    each the compare-and-swap of its two halves. *)
Definition stage (f g : Z → Z → Z) (nb s : nat) (row : list Z) : list Z :=
  blocks (λ B, swap f g (take s B) (drop s B)) (2 * s) nb row.

(** The list of zeros and ones that [p] gives for the indices below [n]. *)
Definition bits (p : nat → bool) (n : nat) : list Z :=
  (λ i, Z.b2z (p i)) <$> seq 0 n.

(** The indices from [a] up to [d], or with [s] those outside. *)
Definition blk (s : bool) (a d : nat) (i : nat) : bool :=
  xorb s (bool_decide (a ≤ i < d)).

(** What [loop::bitonic_sort] computes on [2^k] elements. *)
Definition lsort (k : nat) (X : list Z) : list Z :=
  merge Z.max Z.min k (bstage k X).

(** Zeros for ones and ones for zeros. *)
Definition compl (x : Z) : Z := (1 - x)%Z.

End bitonic_model.

(** * Properties *)

(** ** Counted loops and local storage *)

Section storage_facts.
Context {T : Type}.
Implicit Types (res : list (option T)) (l : list T).

Lemma for_iter_snoc {St} n lo (body : nat → St → option St) s :
  for_iter (S n) lo body s = s' ← for_iter n lo body s; body (lo + n) s'.
Proof.
  revert lo s. induction n as [|n IH]; intros lo s.
  - simpl. rewrite Nat.add_0_r. by destruct (body lo s).
  - change (for_iter (S (S n)) lo body s)
      with (s' ← body lo s; for_iter (S n) (S lo) body s').
    destruct (body lo s) as [s1|] eqn:E; simpl; rewrite E; simpl; [|done].
    rewrite <- Nat.add_succ_comm. apply IH.
Qed.

Lemma for_iter_ext {St} n lo (body body' : nat → St → option St) s :
  (∀ i s, lo ≤ i < lo + n → body i s = body' i s) →
  for_iter n lo body s = for_iter n lo body' s.
Proof.
  revert lo s. induction n as [|n IH]; intros lo s Hb; [done|].
  simpl. rewrite Hb by lia. destruct (body' lo s); simpl; [|done].
  apply IH. intros. apply Hb. lia.
Qed.

Lemma length_uninit (LEN : nat) : length (uninit (T:=T) LEN) = LEN.
Proof. apply length_replicate. Qed.

Lemma store_Some res idx v :
  idx < length res → store res idx v = Some (<[idx := Some v]> res).
Proof. intros. unfold store. by rewrite decide_True. Qed.

Lemma store_None res idx v : length res ≤ idx → store res idx v = None.
Proof. intros. unfold store. rewrite decide_False; [done|lia]. Qed.

Lemma freeze_Some l : freeze (Some <$> l) = Some l.
Proof. unfold freeze. by apply mapM_fmap_Some. Qed.

(** A loop that assigns [res[off + idx] = vs[idx]] for every index of
    [vs] fills that window of [res] and leaves the rest as it was. *)
Lemma for_iter_fill (src : nat → option T) (g : nat → nat) vs off res :
  (∀ i, i < length vs → src i = vs !! i) →
  (∀ i, i < length vs → g i = off + i) →
  off + length vs ≤ length res →
  for_iter (length vs) 0 (λ idx res, x ← src idx; store res (g idx) x) res
  = Some (take off res ++ (Some <$> vs) ++ drop (off + length vs) res).
Proof.
  induction vs as [|v vs IH] using rev_ind; intros Hsrc Hg Hlen.
  - simpl. by rewrite Nat.add_0_r, take_drop.
  - rewrite length_app in *. simpl in *.
    replace (length vs + 1) with (S (length vs)) by lia.
    rewrite for_iter_snoc, IH; cycle 1.
    { intros i Hi. rewrite Hsrc by lia. by rewrite lookup_app_l. }
    { intros i Hi. apply Hg. lia. }
    { lia. }
    cbn [mbind option_bind]. rewrite Hsrc, Hg by lia.
    rewrite lookup_app_r, Nat.sub_diag by lia. cbn [mbind option_bind lookup list_lookup].
    rewrite store_Some
      by (rewrite !length_app, length_take, length_fmap, length_drop; lia).
    f_equal.
    rewrite insert_app_r_alt by (rewrite length_take; lia).
    rewrite length_take, Nat.min_l by lia.
    rewrite insert_app_r_alt by (rewrite length_fmap; lia).
    rewrite length_fmap.
    destruct (drop (off + length vs) res) as [|y ys] eqn:E.
    { apply (f_equal length) in E. rewrite length_drop in E. simpl in E. lia. }
    rewrite fmap_app, <- (assoc_L (++)). simpl. do 2 f_equal.
    replace (off + length vs - off - length vs) with 0 by lia.
    replace (off + S (length vs)) with (off + length vs + 1) by lia.
    rewrite <- (drop_drop res 1 (off + length vs)), E. done.
Qed.

(** The same loop over a fresh array of exactly the length it fills. *)
Lemma fill_uninit (src : nat → option T) vs :
  (∀ i, i < length vs → src i = vs !! i) →
  for_loop 0 (length vs) (λ idx res, x ← src idx; store res idx x)
    (uninit (length vs))
  = Some (Some <$> vs).
Proof.
  intros Hsrc. unfold for_loop. rewrite Nat.sub_0_r.
  rewrite (for_iter_fill src (λ i, i) vs 0); [|done|done|].
  - rewrite take_0, drop_ge by (rewrite length_uninit; lia).
    by rewrite app_nil_r.
  - rewrite length_uninit. lia.
Qed.
End storage_facts.

(** ** arrayops.hpp: what each primitive returns *)

Section arrayops_facts.
Context {T : Type}.
Implicit Types (IN L R : list T) (V : T).

Lemma prepend_ok V IN : hops.prepend V IN = Some (V :: IN).
Proof.
  unfold hops.prepend.
  rewrite store_Some by (rewrite length_uninit; lia).
  cbn [mbind option_bind]. unfold for_loop. rewrite Nat.sub_0_r.
  rewrite (for_iter_fill (λ i, IN !! i) (λ i, i + 1) IN 1);
    [|done|intros; lia|rewrite length_insert, length_uninit; lia].
  cbn [mbind option_bind].
  rewrite drop_ge by (rewrite length_insert, length_uninit; lia).
  rewrite app_nil_r. unfold uninit.
  replace (length IN + 1) with (S (length IN)) by lia. simpl.
  by rewrite freeze_Some.
Qed.

Lemma append_ok IN V : hops.append IN V = Some (IN ++ [V]).
Proof.
  unfold hops.append, for_loop. rewrite Nat.sub_0_r.
  rewrite (for_iter_fill (λ i, IN !! i) (λ i, i) IN 0);
    [|done|done|rewrite length_uninit; lia].
  cbn [mbind option_bind]. rewrite take_0. simpl.
  rewrite store_Some
    by (rewrite length_app, length_fmap, length_drop, length_uninit; lia).
  cbn [mbind option_bind].
  rewrite insert_app_r_alt by (rewrite length_fmap; lia).
  rewrite length_fmap, Nat.sub_diag.
  unfold uninit. rewrite drop_replicate.
  replace (length IN + 1 - length IN) with 1 by lia. simpl.
  rewrite <- (freeze_Some (IN ++ [V])). by rewrite fmap_app.
Qed.

Lemma concatenate_ok L R : hops.concatenate L R = Some (L ++ R).
Proof.
  unfold hops.concatenate, for_loop. rewrite !Nat.sub_0_r.
  rewrite (for_iter_fill (λ i, L !! i) (λ i, i) L 0);
    [|done|done|rewrite length_uninit; lia].
  cbn [mbind option_bind]. rewrite take_0. simpl.
  rewrite (for_iter_fill (λ i, R !! i) (λ i, length L + i) R (length L));
    [|done|done|
     rewrite length_app, length_fmap, length_drop, length_uninit; lia].
  cbn [mbind option_bind].
  rewrite take_app_length' by (by rewrite length_fmap).
  rewrite drop_ge
    by (rewrite length_app, length_fmap, length_drop, length_uninit; lia).
  rewrite app_nil_r, <- fmap_app. apply freeze_Some.
Qed.

Lemma split_ok (IDX : N) IN :
  hops.split IDX IN = Some (take (N.to_nat IDX) IN, drop (N.to_nat IDX) IN).
Proof.
  unfold hops.split.
  set (llen := if decide (N.of_nat (length IN) < IDX)%N
               then length IN else N.to_nat IDX).
  set (rlen := if decide (N.of_nat (length IN) < IDX)%N
               then 0 else length IN - N.to_nat IDX).
  assert (Hl : llen = length (take (N.to_nat IDX) IN)).
  { rewrite length_take. subst llen. case_decide; lia. }
  assert (Hr : rlen = length (drop (N.to_nat IDX) IN)).
  { rewrite length_drop. subst rlen. case_decide; lia. }
  assert (Hll : llen = Nat.min (N.to_nat IDX) (length IN)).
  { by rewrite Hl, length_take. }
  rewrite Hl at 1 2. rewrite fill_uninit; cycle 1.
  { intros i Hi. rewrite lookup_take_lt; [done|]. rewrite length_take in Hi. lia. }
  cbn [mbind option_bind].
  rewrite Hr at 1 2. rewrite fill_uninit; cycle 1.
  { intros i Hi. rewrite lookup_drop. f_equal.
    rewrite length_drop in Hi. lia. }
  cbn [mbind option_bind]. by rewrite !freeze_Some.
Qed.

Lemma head_cons V IN : hops.head (V :: IN) = Some V.
Proof. done. Qed.

Lemma tail_cons V IN : hops.tail (V :: IN) = Some IN.
Proof.
  unfold hops.tail. rewrite decide_False by done.
  replace (length (V :: IN) - 1) with (length IN) by (simpl; lia).
  rewrite (fill_uninit (λ i, (V :: IN) !! (i + 1)) IN); cycle 1.
  { intros i _. by rewrite Nat.add_1_r. }
  cbn [mbind option_bind]. apply freeze_Some.
Qed.

Lemma tail_nil : hops.tail (T:=T) [] = None.
Proof. done. Qed.
End arrayops_facts.


Lemma size_pred_to_nat (LEN : nat) :
  LEN ≠ 0 → N.to_nat (size_pred LEN) = LEN - 1.
Proof. intros. unfold size_pred. rewrite decide_False by done. lia. Qed.

Lemma rrotate_ok {T} (IN : list T) :
  hops.rrotate IN
  = Some (drop (length IN - 1) IN ++ take (length IN - 1) IN).
Proof.
  unfold hops.rrotate. rewrite split_ok. cbn [mbind option_bind].
  unfold hops.uncurry, hops.flip. cbn [fst snd].
  rewrite concatenate_ok.
  destruct IN as [|x IN]; [done|].
  by rewrite size_pred_to_nat.
Qed.

Lemma lrotate_ok {T} (IN : list T) :
  hops.lrotate IN = Some (drop 1 IN ++ take 1 IN).
Proof.
  unfold hops.lrotate. rewrite split_ok. cbn [mbind option_bind].
  unfold hops.uncurry, hops.flip. cbn [fst snd].
  by rewrite concatenate_ok.
Qed.

Lemma rshift_ok {T} (V : T) (IN : list T) :
  IN ≠ [] → hops.rshift V IN = Some (V :: take (length IN - 1) IN).
Proof.
  intros HIN. unfold hops.rshift.
  rewrite split_ok. cbn [mbind option_bind fst].
  rewrite prepend_ok. cbn [mbind option_bind].
  destruct IN as [|x IN]; [done|].
  rewrite size_pred_to_nat by done.
  rewrite decide_True; [done|].
  cbn [length]. rewrite length_take. cbn [length]. lia.
Qed.

(** ** C6: split and concatenate *)

(** C6.  For every array [A] of length [N] and every split index [k],
    [split<k>(A)] returns a pair of arrays of lengths [min(k, N)] and
    [max(N - k, 0)], the first holding the elements of [A] at the indices
    below [k] and the second those from [k] on, and concatenating the two
    gives [A] back. *)
Theorem split_concatenate_inverse {T} (k : N) (A : list T) :
  ∃ first second,
    hops.split k A = Some (first, second) ∧
    Z.of_nat (length first) = (Z.of_N k `min` Z.of_nat (length A))%Z ∧
    Z.of_nat (length second) = ((Z.of_nat (length A) - Z.of_N k) `max` 0)%Z ∧
    (∀ i, (N.of_nat i < k)%N → first !! i = A !! i) ∧
    (∀ i, second !! i = A !! (N.to_nat k + i)) ∧
    (∀ i, first !! i = None ↔ (k ≤ N.of_nat i)%N ∨ length A ≤ i) ∧
    hops.concatenate first second = Some A.
Proof.
  exists (take (N.to_nat k) A), (drop (N.to_nat k) A).
  split_and!.
  - apply split_ok.
  - rewrite length_take. lia.
  - rewrite length_drop. lia.
  - intros i Hi. apply lookup_take_lt. lia.
  - intros i. apply lookup_drop.
  - intros i. rewrite lookup_ge_None, length_take. lia.
  - rewrite concatenate_ok. by rewrite take_drop.
Qed.

Example split_concatenate_sample :
  hops.split 2 [10; 20; 30; 40; 50]%Z = Some ([10; 20], [30; 40; 50])%Z ∧
  hops.split 7 [10; 20; 30]%Z = Some ([10; 20; 30], [])%Z ∧
  hops.concatenate [10; 20]%Z [30; 40; 50]%Z = Some [10; 20; 30; 40; 50]%Z.
Proof. by vm_compute. Qed.

(** ** C9: the fill loop of range *)

(** With a step that divides the distance the loop makes one assignment
    per element of the declared length, at the indices 0, 1, ... in
    turn. *)
Lemma range_loop_exact (n : nat) (STOP STEP v idx : N) :
  (v + N.of_nat n * STEP = STOP)%N → (0 < STEP)%N →
  (STOP < size_t_modulus)%N → (idx + N.of_nat n < size_t_modulus)%N →
  hops.range_loop (S n) STOP STEP v idx
  = Some ((λ i, (idx + N.of_nat i, v + N.of_nat i * STEP)%N) <$> seq 0 n).
Proof.
  revert v idx. induction n as [|n IH]; intros v idx Hv Hstep Hstop Hidx.
  - cbn [hops.range_loop]. rewrite (proj2 (N.ltb_ge v STOP)) by lia. done.
  - change (hops.range_loop (S (S n)) STOP STEP v idx)
      with (if (v <? STOP)%N
            then tr ← hops.range_loop (S n) STOP STEP (size_add v STEP)
                                       (size_add idx 1);
                 Some ((idx, v) :: tr)
            else Some []).
    rewrite (proj2 (N.ltb_lt v STOP)) by nia.
    unfold size_add. rewrite !N.mod_small by nia.
    rewrite IH by nia. cbn [mbind option_bind]. f_equal.
    cbn [seq fmap list_fmap]. f_equal; [f_equal; lia|].
    rewrite <- fmap_S_seq, <- list_fmap_compose.
    apply list_fmap_ext. intros _ i _. cbn. f_equal; lia.
Qed.

Lemma range_exact_writes (STOP START STEP : N) :
  (START ≤ STOP)%N → (0 < STEP)%N → (STOP < size_t_modulus)%N →
  (STEP | STOP - START)%N →
  let n := hops.range_length STOP START STEP in
  ∃ tr, hops.range_loop (S (N.to_nat n)) STOP STEP START 0 = Some tr ∧
        N.of_nat (length tr) = n ∧
        Forall (λ w, (w.1 < n)%N) tr.
Proof.
  intros Hle Hstep Hstop [q Hq] n.
  assert (Hn : n = q).
  { subst n. unfold hops.range_length, size_sub.
    rewrite (N.mod_small START) by lia.
    replace (STOP + size_t_modulus - START)%N
      with (STOP - START + 1 * size_t_modulus)%N by lia.
    rewrite N.Div0.mod_add, N.mod_small by lia.
    rewrite Hq. apply N.div_mul. lia. }
  eexists. split.
  - apply range_loop_exact; [|done|done|unfold size_t_modulus in *; nia].
    rewrite N2Nat.id, Hn. lia.
  - split.
    + rewrite length_fmap, length_seq. lia.
    + apply Forall_fmap, list.Forall_forall. intros i Hi.
      apply elem_of_seq in Hi. cbn. lia.
Qed.

(** Once the loop has run to its end, a larger bound on the iterations
    changes nothing. *)
Lemma range_loop_mono (fuel fuel' : nat) (STOP STEP v idx : N) tr :
  hops.range_loop fuel STOP STEP v idx = Some tr → fuel ≤ fuel' →
  hops.range_loop fuel' STOP STEP v idx = Some tr.
Proof.
  revert fuel' v idx tr.
  induction fuel as [|fuel IH]; intros fuel' v idx tr H Hle; [done|].
  destruct fuel' as [|fuel']; [lia|].
  cbn [hops.range_loop] in *.
  destruct (v <? STOP)%N; [|done].
  destruct (hops.range_loop fuel _ _ _ _) as [tr'|] eqn:E; [|done].
  by rewrite (IH fuel' _ _ tr') by (done || lia).
Qed.

(** C9 at the instantiation [range<5, 0, 2>()]: the declared length is
    2, the loop makes three assignments, the last of them at index 2,
    which is not below the length; whatever the bound on the iterations,
    the call does not return an array. *)
Theorem range_overruns :
  hops.range_length 5 0 2 = 2%N ∧
  hops.range_loop 4 5 2 0 0 = Some [(0, 0); (1, 2); (2, 4)]%N ∧
  ¬ Forall (λ w, (w.1 < hops.range_length 5 0 2)%N)
           [(0, 0); (1, 2); (2, 4)]%N ∧
  ∀ fuel, hops.range fuel 5 0 2 = None.
Proof.
  split_and!; [by vm_compute|by vm_compute| |].
  - rewrite !list.Forall_cons. intros (_ & _ & H & _). vm_compute in H. done.
  - intros fuel. do 4 (destruct fuel as [|fuel]; [by vm_compute|]).
    unfold hops.range. rewrite decide_False by done.
    rewrite (range_loop_mono 4 _ 5 2 0 0 [(0, 0); (1, 2); (2, 4)]%N)
      by (done || lia).
    by vm_compute.
Qed.

Example range_sample :
  hops.range 20 16 0 1
    = Some [0; 1; 2; 3; 4; 5; 6; 7; 8; 9; 10; 11; 12; 13; 14; 15]%N ∧
  hops.range 20 10 4 3 = Some [4; 7]%N.
Proof. by vm_compute. Qed.

(** ** C10: the two rotations *)

Lemma rotate_inverse_any {T} (A : list T) :
  (r ← hops.rrotate A; hops.lrotate r) = Some A ∧
  (l ← hops.lrotate A; hops.rrotate l) = Some A.
Proof.
  rewrite rrotate_ok, lrotate_ok. cbn [mbind option_bind].
  rewrite rrotate_ok, lrotate_ok.
  destruct A as [|x A]; [done|]. split; f_equal.
  - cbn [length]. replace (S (length A) - 1) with (length A) by lia.
    destruct (drop (length A) (x :: A)) as [|y l] eqn:E.
    { apply (f_equal length) in E. rewrite length_drop in E. simpl in E. lia. }
    assert (l = []) as ->.
    { apply (f_equal length) in E. rewrite length_drop in E. simpl in E.
      destruct l; [done|simpl in E; lia]. }
    simpl. rewrite drop_0, take_0.
    rewrite <- E. apply take_drop.
  - simpl. rewrite drop_0, take_0.
    rewrite length_app. simpl. replace (length A + 1 - 1) with (length A) by lia.
    rewrite drop_app_length, take_app_length. done.
Qed.

(** C10.  For every non-empty array [A], rotating right and then left
    gives [A] back, and so does rotating left and then right. *)
Theorem rotate_inverse {T} (A : list T) :
  A ≠ [] →
  (r ← hops.rrotate A; hops.lrotate r) = Some A ∧
  (l ← hops.lrotate A; hops.rrotate l) = Some A.
Proof. intros _. apply rotate_inverse_any. Qed.

Lemma rotate_inverse_witness :
  [3; 1; 2]%Z ≠ [] ∧
  (r ← hops.rrotate [3; 1; 2]%Z; hops.lrotate r) = Some [3; 1; 2]%Z ∧
  (l ← hops.lrotate [3; 1; 2]%Z; hops.rrotate l) = Some [3; 1; 2]%Z.
Proof. split; [done|]. apply (rotate_inverse [3; 1; 2]%Z). done. Defined.

Example rotate_sample :
  hops.rrotate [1; 2; 3; 4]%Z = Some [4; 1; 2; 3]%Z ∧
  hops.lrotate [1; 2; 3; 4]%Z = Some [2; 3; 4; 1]%Z.
Proof. by vm_compute. Qed.

(** ** C1: the two forms of map *)

Lemma for_iter_None {St} n lo (body : nat → St → option St) s i :
  lo ≤ i < lo + n → (∀ s, body i s = None) → for_iter n lo body s = None.
Proof.
  revert lo s. induction n as [|n IH]; intros lo s Hi Hb; [lia|].
  simpl. destruct (decide (lo = i)) as [->|Hne]; [by rewrite Hb|].
  destruct (body lo s); simpl; [|done]. apply IH; [lia|done].
Qed.

Lemma mapM_total {A B} (f : A → B) (l : list A) :
  mapM (λ x, Some (f x)) l = Some (f <$> l).
Proof. induction l as [|x l IH]; [done|]. simpl. by rewrite IH. Qed.

Section map_facts.
Context {TA TR : Type}.
Implicit Types (F : TA → option TR) (IN : list TA).

Lemma MapHelper_ok F IN : hops.MapHelper (length IN) F IN = mapM F IN.
Proof.
  induction IN as [|x IN IH]; [done|].
  cbn [length hops.MapHelper mapM lookup list_lookup mbind option_bind].
  destruct (F x) as [y|]; [|done]. cbn [mbind option_bind].
  rewrite tail_cons. cbn [mbind option_bind]. rewrite IH.
  destruct (mapM F IN) as [r|]; [|done]. cbn [mbind option_bind].
  by rewrite prepend_ok.
Qed.

Lemma map_ok F IN : hops.map F IN = mapM F IN.
Proof. apply MapHelper_ok. Qed.

Lemma loop_map_ok F IN : hops.loop.map F IN = mapM F IN.
Proof.
  unfold hops.loop.map, for_loop. rewrite Nat.sub_0_r.
  destruct (mapM F IN) as [vs|] eqn:E.
  - apply mapM_Some_1 in E. assert (Hl : length IN = length vs) by (by eapply Forall2_length).
    rewrite Hl.
    rewrite (for_iter_ext _ _ _
               (λ idx res, y ← IN !! idx ≫= F; store res idx y))
      by (intros i s _; by destruct (IN !! i)).
    rewrite (for_iter_fill (λ i, IN !! i ≫= F) (λ i, i) vs 0);
      [| |done|rewrite length_uninit; lia].
    + cbn [mbind option_bind]. rewrite take_0.
      rewrite drop_ge by (rewrite length_uninit; lia).
      rewrite app_nil_r. apply freeze_Some.
    + intros i Hi.
      destruct (lookup_lt_is_Some_2 IN i) as [x Hx]; [lia|].
      destruct (lookup_lt_is_Some_2 vs i) as [y Hy]; [lia|].
      rewrite Hx, Hy. cbn [mbind option_bind].
      eapply Forall2_lookup_lr in E; eauto.
  - apply mapM_None_1, list.Exists_exists in E.
    destruct E as (x & Hx & HF).
    apply list_elem_of_lookup in Hx. destruct Hx as [i Hi].
    rewrite (for_iter_None _ _ _ _ i); [done| |].
    + apply lookup_lt_Some in Hi. lia.
    + intros s. rewrite Hi. cbn [mbind option_bind]. by rewrite HF.
Qed.
End map_facts.

(** C1.  For every unary callable [F] and every input array [IN], the
    recursive form of [map] and its loop form return the same array; it
    has the length of [IN] and its element [i] is [F] applied to element
    [i] of [IN]. *)
Theorem map_forms_agree {TA TR} (F : TA → TR) (IN : list TA) :
  hops.map (λ x, Some (F x)) IN = hops.loop.map (λ x, Some (F x)) IN ∧
  ∃ OUT, hops.map (λ x, Some (F x)) IN = Some OUT ∧
         length OUT = length IN ∧
         ∀ i, OUT !! i = F <$> (IN !! i).
Proof.
  rewrite map_ok, loop_map_ok, mapM_total. split; [done|].
  exists (F <$> IN). split_and!; [done|apply length_fmap|].
  intros i. apply list_lookup_fmap.
Qed.

(** The two forms also agree on a callable that has no value at some
    element: then neither form has one. *)
Lemma map_forms_agree_partial {TA TR} (F : TA → option TR) (IN : list TA) :
  hops.map F IN = hops.loop.map F IN.
Proof. by rewrite map_ok, loop_map_ok. Qed.

Example map_sample :
  hops.map (λ x, Some (- x)%Z) [3; -1; 4]%Z = Some [-3; 1; -4]%Z ∧
  hops.loop.map (λ x, Some (- x)%Z) [3; -1; 4]%Z = Some [-3; 1; -4]%Z.
Proof. by vm_compute. Qed.

(** ** C5: the two folds *)

Section reduce_facts.
Context {TA TI : Type}.

Lemma lreduce_cons (F : TI → TA → option TI) INIT h t :
  hops.lreduce F INIT (h :: t) = acc ← F INIT h; hops.lreduce F acc t.
Proof.
  unfold hops.lreduce.
  cbn [length hops.ReduceHelper_lreduce]. rewrite head_cons.
  cbn [mbind option_bind]. destruct (F INIT h); [|done].
  cbn [mbind option_bind]. by rewrite tail_cons.
Qed.

Lemma rreduce_cons (F : TA → TI → option TI) INIT h t :
  hops.rreduce F (h :: t) INIT = r ← hops.rreduce F t INIT; F h r.
Proof.
  unfold hops.rreduce.
  cbn [length hops.ReduceHelper_rreduce]. rewrite head_cons, tail_cons.
  done.
Qed.

Lemma lreduce_total (f : TI → TA → TI) INIT IN :
  hops.lreduce (λ a x, Some (f a x)) INIT IN = Some (foldl f INIT IN).
Proof.
  revert INIT. induction IN as [|h t IH]; intros INIT; [done|].
  rewrite lreduce_cons. cbn [mbind option_bind]. apply IH.
Qed.

Lemma rreduce_total (f : TA → TI → TI) INIT IN :
  hops.rreduce (λ x a, Some (f x a)) IN INIT = Some (foldr f INIT IN).
Proof.
  induction IN as [|h t IH]; [done|].
  rewrite rreduce_cons, IH. done.
Qed.
End reduce_facts.

(** C5.  For every combining callable [F], every initial value [init]
    (of a type [TI] that need not be the element type [TA]) and every
    array [a]: [lreduce(F, init, a)] is [init] when [a] has length 0 and
    [lreduce(F, F(init, head(a)), tail(a))] otherwise; [rreduce(F, a,
    init)] is [init] when [a] has length 0 and
    [F(head(a), rreduce(F, tail(a), init))] otherwise.  The callables
    here always return; [lreduce_cons] and [rreduce_cons] give the same
    equations for callables that may not. *)
Theorem reduce_equations {TA TI} (Fl : TI → TA → TI) (Fr : TA → TI → TI)
    (init : TI) (a : list TA) :
  let lreduce := hops.lreduce (λ acc x, Some (Fl acc x)) in
  let rreduce := hops.rreduce (λ x acc, Some (Fr x acc)) in
  (length a = 0 ∧
     lreduce init a = Some init ∧ rreduce a init = Some init)
  ∨ (∃ h t, length a ≠ 0 ∧
       hops.head a = Some h ∧ hops.tail a = Some t ∧
       lreduce init a = lreduce (Fl init h) t ∧
       rreduce a init = (r ← rreduce t init; Some (Fr h r)) ∧
       is_Some (rreduce t init)).
Proof.
  intros lreduce rreduce. destruct a as [|h t]; [left; done|].
  right. exists h, t. split_and!; [done|done|apply tail_cons| | |].
  - subst lreduce. by rewrite lreduce_cons.
  - subst rreduce. by rewrite rreduce_cons.
  - subst rreduce. rewrite rreduce_total. done.
Qed.

Example reduce_sample :
  hops.lreduce (λ acc x, Some (acc - x)%Z) 100%Z [1; 2; 3]%Z = Some 94%Z ∧
  hops.rreduce (λ x acc, Some (x - acc)%Z) [1; 2; 3]%Z 100%Z = Some (-98)%Z ∧
  hops.rreduce (λ x (acc : list Z), Some (acc ++ [x])) [1; 2; 3]%Z []
  = Some [3; 2; 1]%Z.
Proof. by vm_compute. Qed.

(** ** C7: zip and unzip *)

Section zip_facts.
Context {TL TR : Type}.

Lemma XipHelper_zip_ok (L : list TL) (R : list TR) :
  length L = length R →
  hops.XipHelper_zip (length L) L R = Some (zip L R).
Proof.
  revert R. induction L as [|l L IH]; intros [|r R] Hlen; try done.
  cbn [length hops.XipHelper_zip lookup list_lookup mbind option_bind].
  rewrite !tail_cons. cbn [mbind option_bind].
  rewrite IH by (simpl in Hlen; lia). cbn [mbind option_bind].
  by rewrite prepend_ok.
Qed.

Lemma XipHelper_unzip_ok (IN : list (TL * TR)) :
  hops.XipHelper_unzip (length IN) IN = Some (IN.*1, IN.*2).
Proof.
  induction IN as [|p IN IH]; [done|].
  cbn [length hops.XipHelper_unzip].
  rewrite tail_cons. cbn [mbind option_bind]. rewrite IH.
  cbn [lookup list_lookup mbind option_bind fst snd].
  by rewrite !prepend_ok.
Qed.
End zip_facts.

(** C7.  For every array [P] of two-element tuples, zipping the pair of
    arrays that [unzip(P)] returns gives [P] back; for every pair of
    arrays [L] and [R] of equal length, [unzip(zip(L, R))] is the pair
    [(L, R)]. *)
Theorem zip_unzip_inverse {TL TR} (P : list (TL * TR))
    (L : list TL) (R : list TR) :
  length L = length R →
  (p ← hops.unzip P; hops.zip p.1 p.2) = Some P ∧
  (z ← hops.zip L R; hops.unzip z) = Some (L, R).
Proof.
  intros Hlen. split.
  - unfold hops.unzip. rewrite XipHelper_unzip_ok.
    cbn [mbind option_bind fst snd]. unfold hops.zip.
    rewrite decide_True by (by rewrite !length_fmap).
    rewrite XipHelper_zip_ok by (by rewrite !length_fmap).
    f_equal. apply zip_fst_snd.
  - unfold hops.zip. rewrite decide_True by done.
    rewrite XipHelper_zip_ok by done. cbn [mbind option_bind].
    unfold hops.unzip. rewrite XipHelper_unzip_ok.
    rewrite fst_zip, snd_zip by lia. done.
Qed.

Lemma zip_unzip_inverse_witness :
  length [1; 2; 3] = length [true; false; true] ∧
  (p ← hops.unzip [(1, true); (2, false)]; hops.zip p.1 p.2)
    = Some [(1, true); (2, false)] ∧
  (z ← hops.zip [1; 2; 3] [true; false; true]; hops.unzip z)
    = Some ([1; 2; 3], [true; false; true]).
Proof.
  split; [reflexivity|].
  apply (zip_unzip_inverse [(1, true); (2, false)] [1; 2; 3]
           [true; false; true]).
  reflexivity.
Defined.

(** ** C8: check *)

Section check_facts.
Context {T : Type} (neq : T → T → bool).

Lemma check_loop_spec n i (TGT GOLD : list T) :
  i + n = length TGT → length GOLD = length TGT →
  ∃ r, check_loop neq n i TGT GOLD = Some r ∧
       ((r = 0%Z ∧ agree_between neq i (length TGT) TGT GOLD)
        ∨ (∃ k t g, r = (- (Z.of_nat k + 1))%Z ∧ i ≤ k ∧
             TGT !! k = Some t ∧ GOLD !! k = Some g ∧ neq t g = true ∧
             agree_between neq i k TGT GOLD)).
Proof.
  revert i. induction n as [|n IH]; intros i Hi Hlen.
  - exists 0%Z. split; [done|]. left. split; [done|].
    intros j t g Hj. lia.
  - cbn [check_loop].
    destruct (lookup_lt_is_Some_2 TGT i) as [t Ht]; [lia|].
    destruct (lookup_lt_is_Some_2 GOLD i) as [g Hg]; [lia|].
    rewrite Ht, Hg. cbn [mbind option_bind].
    destruct (neq t g) eqn:E.
    + eexists. split; [done|]. right. exists i, t, g.
      split_and!; try done. intros j ?? Hj. lia.
    + destruct (IH (S i)) as (r & Hr & Hcase); [lia|done|].
      exists r. split; [done|].
      assert (Hstep : ∀ hi, agree_between neq (S i) hi TGT GOLD →
                            agree_between neq i hi TGT GOLD).
      { intros hi Hag j t' g' Hj Ht' Hg'.
        destruct (decide (j = i)) as [->|Hne]; [congruence|].
        eapply Hag; [|done..]. lia. }
      destruct Hcase as [[-> Hag]|(k & t' & g' & -> & Hk & ? & ? & ? & Hag)].
      * left. auto.
      * right. exists k, t', g'. split_and!; auto with lia.
Qed.
End check_facts.

(** C8.  For every pair of arrays [TGT] and [GOLD] of equal length,
    [check(TGT, GOLD)] returns 0 when the elements at every index are
    equal, and otherwise [-(i+1)] for the first index [i] whose elements
    differ; the call leaves both arrays as they were, and the returned
    value is all it produces. *)
Theorem check_spec {T} (neq : T → T → bool) (TGT GOLD : list T) :
  length TGT = length GOLD →
  ∃ r, check neq TGT GOLD = Some (r, TGT, GOLD) ∧
       ((r = 0%Z ∧ agree_between neq 0 (length TGT) TGT GOLD)
        ∨ (∃ i t g, r = (- (Z.of_nat i + 1))%Z ∧
             TGT !! i = Some t ∧ GOLD !! i = Some g ∧ neq t g = true ∧
             agree_between neq 0 i TGT GOLD)).
Proof.
  intros Hlen. unfold check. rewrite decide_True by done.
  destruct (check_loop_spec neq (length TGT) 0 TGT GOLD) as (r & Hr & Hcase);
    [done|done|].
  exists r. rewrite Hr. split; [done|].
  destruct Hcase as [?|(k & t & g & ? & ? & ?)]; [by left|].
  right. by exists k, t, g.
Qed.

Lemma check_spec_witness :
  let neq := λ x y : Z, negb (x =? y)%Z in
  length [4; 8; 15; 16]%Z = length [4; 8; 23; 42]%Z ∧
  ∃ r, check neq [4; 8; 15; 16]%Z [4; 8; 23; 42]%Z
       = Some (r, [4; 8; 15; 16]%Z, [4; 8; 23; 42]%Z) ∧
       ((r = 0%Z ∧ agree_between neq 0 4 [4; 8; 15; 16]%Z [4; 8; 23; 42]%Z)
        ∨ (∃ i t g, r = (- (Z.of_nat i + 1))%Z ∧
             [4; 8; 15; 16]%Z !! i = Some t ∧
             [4; 8; 23; 42]%Z !! i = Some g ∧ neq t g = true ∧
             agree_between neq 0 i [4; 8; 15; 16]%Z [4; 8; 23; 42]%Z)).
Proof.
  intros neq. split; [reflexivity|].
  apply (check_spec neq [4; 8; 15; 16]%Z [4; 8; 23; 42]%Z). reflexivity.
Defined.

Example check_sample :
  let neq := λ x y : Z, negb (x =? y)%Z in
  check neq [4; 8; 15; 16]%Z [4; 8; 23; 42]%Z
    = Some (-3, [4; 8; 15; 16], [4; 8; 23; 42])%Z ∧
  check neq [4; 8]%Z [4; 8]%Z = Some (0, [4; 8], [4; 8])%Z ∧
  check neq [5]%Z [6]%Z = Some (-1, [5], [6])%Z.
Proof. by vm_compute. Qed.

(** ** C2: the two arg-min realizations *)

Section argmin_facts.
Import argminmax argmin_model.

(** *** The minimum and its first index *)

Lemma is_first_min_singleton (x : Z) : is_first_min [x] x 0.
Proof. split_and!; [done|by repeat constructor|constructor]. Qed.

Lemma is_first_min_lt_length l v i :
  is_first_min l v i → (i < N.of_nat (length l))%N.
Proof. intros [H%lookup_lt_Some _]. lia. Qed.

Lemma is_first_min_app l1 l2 v1 i1 v2 i2 :
  is_first_min l1 v1 i1 → is_first_min l2 v2 i2 →
  is_first_min (l1 ++ l2)
    (if bool_decide (v2 < v1)%Z then v2 else v1)
    (if bool_decide (v2 < v1)%Z then N.of_nat (length l1) + i2 else i1).
Proof.
  intros (Hi1 & Hle1 & Hlt1) (Hi2 & Hle2 & Hlt2).
  pose proof (lookup_lt_Some _ _ _ Hi1) as Hlen1.
  case_bool_decide as Hv; split_and!.
  - rewrite lookup_app_r by lia. rewrite <- Hi2. f_equal. lia.
  - apply list.Forall_app. split; [|done].
    eapply Forall_impl; [exact Hle1|]. intros y ?. cbn in *. lia.
  - replace (N.to_nat (N.of_nat (length l1) + i2))
      with (length l1 + N.to_nat i2) by lia.
    rewrite take_app_add. apply list.Forall_app. split; [|done].
    eapply Forall_impl; [exact Hle1|]. intros y ?. cbn in *. lia.
  - by rewrite lookup_app_l by lia.
  - apply list.Forall_app. split; [done|].
    eapply Forall_impl; [exact Hle2|]. intros y ?. cbn in *. lia.
  - rewrite take_app_le by lia. done.
Qed.

Lemma is_first_min_unique l v i v' i' :
  is_first_min l v i → is_first_min l v' i' → v = v' ∧ i = i'.
Proof.
  intros (Hi & Hle & Hlt) (Hi' & Hle' & Hlt').
  assert (v = v') as <-.
  { rewrite list.Forall_forall in Hle, Hle'.
    apply list_elem_of_lookup_2 in Hi as Hv, Hi' as Hv'.
    apply Hle in Hv'. apply Hle' in Hv. lia. }
  split; [done|].
  rewrite Forall_lookup in Hlt, Hlt'.
  destruct (N.lt_trichotomy i i') as [Hlti|[->|Hlti]]; [|done|].
  - assert (v < v)%Z; [|lia].
    apply (Hlt' (N.to_nat i)). rewrite lookup_take_lt by lia. done.
  - assert (v < v)%Z; [|lia].
    apply (Hlt (N.to_nat i')). rewrite lookup_take_lt by lia. done.
Qed.

Lemma linear_scan_spec (pre l : list Z) (best : Z * N) :
  is_first_min pre best.1 best.2 →
  is_first_min (pre ++ l)
    (linear_scan best (N.of_nat (length pre)) l).1
    (linear_scan best (N.of_nat (length pre)) l).2.
Proof.
  revert pre best. induction l as [|x l IH]; intros pre best Hbest.
  - by rewrite app_nil_r.
  - cbn [linear_scan].
    replace (N.of_nat (length pre) + 1)%N
      with (N.of_nat (length (pre ++ [x])))
      by (rewrite length_app; simpl; lia).
    rewrite (cons_middle x pre l), (assoc_L (++)).
    apply IH.
    pose proof (is_first_min_app pre [x] _ _ x 0 Hbest
                  (is_first_min_singleton x)) as H.
    rewrite N.add_0_r in H.
    by case_bool_decide.
Qed.

Lemma linear_argmin_spec (l : list Z) :
  l ≠ [] →
  ∃ v i, linear_argmin l = Some (v, i) ∧ is_first_min l v i.
Proof.
  destruct l as [|x l]; [done|]. intros _.
  pose proof (linear_scan_spec [x] l (x, 0%N) (is_first_min_singleton x)) as H.
  cbn [linear_argmin].
  change (N.of_nat (length [x])) with 1%N in H.
  destruct (linear_scan (x, 0%N) 1 l) as [v i].
  by exists v, i.
Qed.

(** *** The index bits *)

Lemma land_pow2_low (lev i : N) : (i < 2 ^ lev)%N → N.land (2 ^ lev) i = 0%N.
Proof.
  intros Hi. apply N.bits_inj_0. intros n.
  rewrite N.land_spec, N.pow2_bits_eqb.
  destruct (N.eqb_spec lev n) as [<-|]; [|done].
  destruct (decide (i = 0%N)) as [->|]; [by rewrite N.bits_0|].
  rewrite N.bits_above_log2; [done|]. apply N.log2_lt_pow2; lia.
Qed.

Lemma lor_pow2_low (lev i : N) :
  (i < 2 ^ lev)%N → N.lor (2 ^ lev) i = (2 ^ lev + i)%N.
Proof.
  intros Hi. pose proof (land_pow2_low lev i Hi) as H.
  by rewrite <- N.lxor_lor, <- N.add_nocarry_lxor.
Qed.

Lemma lor_pow2_set (lev a : N) :
  N.testbit a lev = true → N.lor (2 ^ lev) a = a.
Proof.
  intros Ha. apply N.bits_inj. intros n.
  rewrite N.lor_spec, N.pow2_bits_eqb.
  destruct (N.eqb_spec lev n) as [<-|]; [by rewrite Ha|done].
Qed.

Lemma testbit_block (lev base i : N) :
  (2 ^ (lev + 1) | base)%N → (i < 2 ^ lev)%N →
  N.testbit (base + 2 ^ lev + i) lev = true.
Proof.
  intros [k ->] Hi. apply N.testbit_true.
  replace (k * 2 ^ (lev + 1) + 2 ^ lev + i)%N
    with (i + (2 * k + 1) * 2 ^ lev)%N
    by (rewrite N.pow_add_r; change (2 ^ 1)%N with 2%N; lia).
  rewrite N.div_add by (apply N.pow_nonzero; lia).
  rewrite N.div_small by done.
  rewrite N.add_0_l, N.add_comm, N.mul_comm, N.Div0.mod_add. done.
Qed.

(** *** The combining operator *)

Lemma Argminop_eq (v1 v2 : Z) (i1 i2 lev : N) :
  (lev < 31)%N →
  Argminop (Argmin v1 i1 lev) (Argmin v2 i2 lev)
  = Some (Argmin (if bool_decide (v2 < v1)%Z then v2 else v1)
                 (if bool_decide (v2 < v1)%Z then N.lor (2 ^ lev) i2 else i1)
                 (lev + 1)).
Proof.
  intros Hlev. unfold Argminop. cbn [data idx argminmax.lev].
  rewrite decide_True by done.
  unfold size_add, size_t_modulus. rewrite N.mod_small by lia.
  case_bool_decide.
  - change (N.land 1 1) with 1%N. by rewrite N.shiftl_1_l.
  - change (N.land 0 1) with 0%N. by rewrite N.shiftl_0_l, N.lor_0_l.
Qed.

(** *** The divide-and-conquer form *)

Lemma DivconqHelper_1 {T R} (F : hops.callable T R) (IN : list T) :
  hops.DivconqHelper 1 F IN
  = if decide (N.of_nat (length IN) = N.shiftl 1 (N.of_nat 1))
    then p ← hops.split 1 IN; hops.on_arrays F p.1 p.2
    else None.
Proof. done. Qed.

Lemma DivconqHelper_SS {T R} (F : hops.callable T R) (LEV : nat) (IN : list T) :
  hops.DivconqHelper (S (S LEV)) F IN
  = if decide (N.of_nat (length IN) = N.shiftl 1 (N.of_nat (S (S LEV))))
    then p ← hops.split (N.shiftl 1 (N.of_nat (S LEV))) IN;
         l ← hops.DivconqHelper (S LEV) F p.1;
         r ← hops.DivconqHelper (S LEV) F p.2;
         hops.on_results F l r
    else None.
Proof. done. Qed.

Lemma DivconqHelper_argmin (LEV : nat) (l : list Z) :
  LEV < 31 → length l = 2 ^ S LEV →
  ∃ v i,
    hops.DivconqHelper (S LEV) argminop ((λ x, Argmin x 0 0) <$> l)
      = Some (Argmin v i (N.of_nat (S LEV))) ∧
    is_first_min l v i.
Proof.
  revert l. induction LEV as [|LEV IH]; intros l HLEV Hlen.
  - destruct l as [|a [|c [|? ?]]]; try done.
    rewrite DivconqHelper_1, decide_True by done.
    rewrite split_ok. cbn [mbind option_bind fst snd].
    cbn [argminop hops.on_arrays fmap list_fmap take drop N.to_nat Pos.to_nat
         Pos.iter_op Nat.add].
    unfold Argminop_arrays. rewrite decide_True by done.
    change (N.to_nat 1) with 1.
    cbn [take drop lookup list_lookup mbind option_bind].
    rewrite Argminop_eq by done.
    eexists _, _. split; [done|].
    pose proof (is_first_min_app [a] [c] a 0 c 0 (is_first_min_singleton a)
                  (is_first_min_singleton c)) as H.
    cbn [app length] in H.
    case_bool_decide; exact H.
  - rewrite DivconqHelper_SS.
    rewrite decide_True
      by (rewrite length_fmap, Hlen, N.shiftl_1_l, Nat2N.inj_pow; done).
    rewrite split_ok. cbn [mbind option_bind fst snd].
    rewrite N.shiftl_1_l.
    replace (N.to_nat (2 ^ N.of_nat (S LEV))) with (2 ^ S LEV)
      by (rewrite <- (Nat2N.id (2 ^ S LEV)), Nat2N.inj_pow; done).
    rewrite <- fmap_take, <- fmap_drop.
    assert (Hpow : 2 ^ S (S LEV) = 2 ^ S LEV + 2 ^ S LEV)
      by (rewrite (Nat.pow_succ_r' 2 (S LEV)); lia).
    destruct (IH (take (2 ^ S LEV) l)) as (v1 & i1 & -> & H1);
      [lia|rewrite length_take; lia|].
    destruct (IH (drop (2 ^ S LEV) l)) as (v2 & i2 & -> & H2);
      [lia|rewrite length_drop; lia|].
    cbn [mbind option_bind argminop hops.on_results].
    rewrite Argminop_eq by lia.
    eexists _, _. split.
    { f_equal. f_equal. lia. }
    pose proof (is_first_min_app _ _ _ _ _ _ H1 H2) as H.
    rewrite take_drop in H.
    pose proof (is_first_min_lt_length _ _ _ H2) as Hi2.
    rewrite length_drop, Hlen, Hpow in Hi2.
    rewrite length_take, Hlen, Nat.min_l in H by lia.
    assert (Hp : N.of_nat (2 ^ S LEV) = (2 ^ N.of_nat (S LEV))%N)
      by (by rewrite Nat2N.inj_pow).
    rewrite lor_pow2_low by lia. rewrite <- Hp. exact H.
Qed.

Lemma argmin_hop_synth_spec (IN : list Z) :
  N.of_nat (length IN) = LIST_LENGTH →
  ∃ v i, argmin_hop_synth IN = Some (v, i) ∧ is_first_min IN v i.
Proof.
  intros Hlen. unfold argmin_hop_synth. rewrite decide_True by done.
  rewrite map_ok. unfold argmin_init. rewrite mapM_total.
  cbn [mbind option_bind]. unfold hops.divconq.
  rewrite length_fmap, Hlen.
  change (N.to_nat (hops.clog2 LIST_LENGTH)) with 4.
  destruct (DivconqHelper_argmin 3 IN) as (v & i & -> & H); [lia| |].
  { change LIST_LENGTH with 16%N in Hlen. simpl. lia. }
  by exists v, i.
Qed.

(** *** The staged table *)

Lemma for_iter_S {St} n lo (body : nat → St → option St) s :
  for_iter (S n) lo body s = s' ← body lo s; for_iter n (S lo) body s'.
Proof. done. Qed.

(** A loop that stores into one row of a table, computing each value
    from rows it does not store into, is a loop on that row. *)
Lemma for_iter_store2 {T} (g : nat → list (list (option T)) → option T)
    (r n : nat) (temp : list (list (option T))) (row : list (option T)) :
  temp !! r = Some row →
  (∀ idx row', g idx (<[r := row']> temp) = g idx temp) →
  for_iter n 0 (λ idx temp, y ← g idx temp; store2 temp r idx y) temp
  = row' ← for_iter n 0 (λ idx row, y ← g idx temp; store row idx y) row;
    Some (<[r := row']> temp).
Proof.
  intros Hrow Hg. pose proof (lookup_lt_Some _ _ _ Hrow) as Hr.
  induction n as [|n IH].
  - cbn [for_iter mbind option_bind]. by rewrite list_insert_id.
  - rewrite !for_iter_snoc, IH, Nat.add_0_l.
    destruct (for_iter n 0 _ row) as [row'|]; [|done].
    cbn [mbind option_bind]. rewrite Hg.
    destruct (g n temp) as [y|]; [|done]. cbn [mbind option_bind].
    unfold store2. rewrite list_lookup_insert_eq by done.
    cbn [mbind option_bind].
    destruct (store row' n y) as [row''|]; [|done].
    cbn [mbind option_bind]. by rewrite list_insert_insert_eq.
Qed.

Lemma load2_prefix {T} (temp : list (list (option T))) r c
    (known : list T) junk x :
  temp !! r = Some ((Some <$> known) ++ junk) → known !! c = Some x →
  load2 temp r c = Some x.
Proof.
  intros Hr Hc. unfold load2. rewrite Hr. cbn [mbind option_bind].
  rewrite lookup_app_l
    by (rewrite length_fmap; by eapply lookup_lt_Some).
  by rewrite list_lookup_fmap, Hc.
Qed.

Lemma combine_pairs_lookup (prev next : list argmin_t) (i : nat) :
  combine_pairs prev = Some next → i < length next →
  ∃ l r y, prev !! (2 * i) = Some l ∧ prev !! (2 * i + 1) = Some r ∧
           Argminop l r = Some y ∧ next !! i = Some y.
Proof.
  revert prev next.
  induction i as [|i IH]; intros [|l [|r prev]] next H Hi;
    cbn [combine_pairs] in H; simplify_eq; try (simpl in Hi; lia).
  - destruct (Argminop l r) as [y|] eqn:E; [|done].
    destruct (combine_pairs prev) as [ys|]; [|done].
    cbn [mbind option_bind] in H. simplify_eq. by exists l, r, y.
  - destruct (Argminop l r) as [y|] eqn:E; [|done].
    destruct (combine_pairs prev) as [ys|] eqn:E'; [|done].
    cbn [mbind option_bind] in H. simplify_eq.
    destruct (IH prev ys) as (l' & r' & y' & ? & ? & ? & ?);
      [done|simpl in Hi; lia|].
    exists l', r', y'.
    replace (2 * S i) with (S (S (2 * i))) by lia. done.
Qed.

(** One level of [argmin_loop_synth]: the inner loop writes the pairwise
    combination of the level below. *)
Lemma argmin_level_loop (temp : list (list (option argmin_t))) (lev m : nat)
    (prev next : list argmin_t) junk rowl :
  lev ≠ 0 →
  temp !! (lev - 1) = Some ((Some <$> prev) ++ junk) →
  temp !! lev = Some rowl →
  length next = m → m ≤ length rowl →
  combine_pairs prev = Some next →
  for_loop 0 m
    (λ idx temp,
       l ← load2 temp (lev - 1) (2 * idx);
       r ← load2 temp (lev - 1) (2 * idx + 1);
       y ← Argminop l r;
       store2 temp lev idx y)
    temp
  = Some (<[lev := (Some <$> next) ++ drop m rowl]> temp).
Proof.
  intros Hlev Hprev Hrow <- Hlen Hnext. unfold for_loop. rewrite Nat.sub_0_r.
  set (g := λ (idx : nat) (temp : list (list (option argmin_t))),
              l ← load2 temp (lev - 1) (2 * idx);
              r ← load2 temp (lev - 1) (2 * idx + 1);
              Argminop l r).
  rewrite (for_iter_ext _ _ _ (λ idx temp, y ← g idx temp; store2 temp lev idx y)).
  2: { intros i t _. unfold g. destruct (load2 t (lev - 1) (2 * i)); [|done].
       cbn [mbind option_bind].
       by destruct (load2 t (lev - 1) (2 * i + 1)). }
  rewrite (for_iter_store2 g lev _ temp rowl Hrow).
  2: { intros idx row'. unfold g, load2.
       by rewrite list_lookup_insert_ne by lia. }
  rewrite (for_iter_fill (λ i, g i temp) (λ i, i) next 0); [|..|lia].
  - cbn [mbind option_bind]. by rewrite take_0.
  - intros i Hi.
    destruct (combine_pairs_lookup prev next i Hnext Hi)
      as (l & r & y & Hl & Hr & Hy & ->).
    unfold g.
    rewrite (load2_prefix _ _ _ _ _ _ Hprev Hl).
    rewrite (load2_prefix _ _ _ _ _ _ Hprev Hr). done.
  - done.
Qed.

(** The first loop writes the leaves: every input with its own index. *)
Lemma argmin_init_loop (temp : list (list (option argmin_t))) (IN : list Z) row0 :
  temp !! 0 = Some row0 → length row0 = length IN →
  for_loop 0 (length IN)
    (λ idx temp, x ← IN !! idx;
                 store2 temp 0 idx (Argmin x (N.of_nat idx) 0))
    temp
  = Some (<[0 := Some <$> imap (λ i x, Argmin x (N.of_nat i) 0) IN]> temp).
Proof.
  intros Hrow Hlen. unfold for_loop. rewrite Nat.sub_0_r.
  set (g := λ (idx : nat) (temp : list (list (option argmin_t))),
              x ← IN !! idx; Some (Argmin x (N.of_nat idx) 0)).
  rewrite (for_iter_ext _ _ _ (λ idx temp, y ← g idx temp; store2 temp 0 idx y))
    by (intros i t _; unfold g; by destruct (IN !! i)).
  rewrite (for_iter_store2 g 0 _ temp row0 Hrow) by done.
  set (leaves := imap (λ i x, Argmin x (N.of_nat i) 0) IN).
  assert (Hl : length leaves = length IN) by apply length_imap.
  rewrite <- Hl.
  rewrite (for_iter_fill (λ i, g i temp) (λ i, i) leaves 0); [|..|lia].
  - cbn [mbind option_bind]. rewrite take_0.
    rewrite drop_ge by lia. by rewrite app_nil_r.
  - intros i Hi. unfold g, leaves. rewrite list_lookup_imap.
    by destruct (IN !! i).
  - done.
Qed.

Lemma level_ok_cons' lev base v i i' block row l l' :
  i' = (base + i)%N → l' = block ++ l →
  N.of_nat (length block) = (2 ^ lev)%N →
  is_first_min block v i →
  level_ok lev (base + 2 ^ lev) row l →
  level_ok lev base (Argmin v i' lev :: row) l'.
Proof. intros -> ->. apply level_ok_cons. Qed.

Lemma level_ok_leaves (base : N) (IN : list Z) :
  level_ok 0 base (imap (λ i x, Argmin x (base + N.of_nat i) 0) IN) IN.
Proof.
  revert base. induction IN as [|x IN IH]; intros base; [constructor|].
  cbn [imap]. apply (level_ok_cons' 0 base x 0 _ [x] _ IN);
    [lia|done|done|apply is_first_min_singleton|].
  erewrite imap_ext; [apply IH|].
  intros i y _. cbn. f_equal. change (2 ^ 0)%N with 1%N. lia.
Qed.

Lemma combine_pairs_level (n : nat) (lev base : N) row l :
  (lev < 31)%N → (2 ^ (lev + 1) | base)%N → length row = 2 * n →
  level_ok lev base row l →
  ∃ row', combine_pairs row = Some row' ∧ length row' = n ∧
          level_ok (lev + 1) base row' l.
Proof.
  intros Hlev. revert base row l.
  induction n as [|n IH]; intros base row l Hbase Hlen Hok.
  - destruct row; [|done]. inversion Hok; subst.
    exists []. split_and!; [done..|constructor].
  - destruct row as [|a [|c row]]; try (simpl in Hlen; lia).
    inversion Hok as [|? v1 i1 block1 ? l1 Hb1 Hm1 Hok1]; subst.
    inversion Hok1 as [|? v2 i2 block2 ? l2 Hb2 Hm2 Hok2]; subst.
    assert (Hpow : (2 ^ (lev + 1) = 2 ^ lev + 2 ^ lev)%N)
      by (rewrite N.pow_add_r; change (2 ^ 1)%N with 2%N; lia).
    destruct (IH (base + 2 ^ (lev + 1))%N row l2) as (ys & Hys & Hlenys & Hokys).
    { destruct Hbase as [k ->]. exists (k + 1)%N. lia. }
    { simpl in Hlen. lia. }
    { by rewrite Hpow, N.add_assoc. }
    cbn [combine_pairs]. rewrite Argminop_eq by done.
    cbn [mbind option_bind]. rewrite Hys. cbn [mbind option_bind].
    eexists. split; [done|]. split; [simpl; lia|].
    pose proof (is_first_min_lt_length _ _ _ Hm2) as Hi2.
    eapply (level_ok_cons' (lev + 1) base _
              (if bool_decide (v2 < v1)%Z
               then N.of_nat (length block1) + i2 else i1)%N
              _ (block1 ++ block2)).
    + case_bool_decide; [|done].
      rewrite lor_pow2_set by (apply testbit_block; [done|lia]). lia.
    + by rewrite <- (assoc_L (++)).
    + rewrite length_app. lia.
    + by apply is_first_min_app.
    + done.
Qed.

Lemma level_ok_singleton lev base node l :
  level_ok lev base [node] l →
  ∃ v i, node = Argmin v (base + i) lev ∧ is_first_min l v i.
Proof.
  inversion 1 as [|? v i block ? l' Hb Hm Hnil]; subst.
  inversion Hnil; subst. rewrite app_nil_r. by exists v, i.
Qed.

Lemma argmin_loop_synth_spec (IN : list Z) :
  N.of_nat (length IN) = LIST_LENGTH →
  ∃ v i, argmin_loop_synth IN = Some (v, i) ∧ is_first_min IN v i.
Proof.
  intros Hlen. assert (Hlen' : length IN = 16).
  { change LIST_LENGTH with 16%N in Hlen. lia. }
  pose proof (level_ok_leaves 0 IN) as Hok0.
  erewrite imap_ext in Hok0; [|intros i x _; by rewrite N.add_0_l].
  set (leaves := imap (λ i x, Argmin x (N.of_nat i) 0) IN) in *.
  assert (Hl0 : length leaves = 16)
    by (unfold leaves; by rewrite length_imap).
  destruct (combine_pairs_level 8 0 0 leaves IN) as (n1 & Hn1 & Hl1 & Hok1);
    [done|by exists 0%N|done|done|].
  destruct (combine_pairs_level 4 1 0 n1 IN) as (n2 & Hn2 & Hl2 & Hok2);
    [done|by exists 0%N|done|done|].
  destruct (combine_pairs_level 2 2 0 n2 IN) as (n3 & Hn3 & Hl3 & Hok3);
    [done|by exists 0%N|done|done|].
  destruct (combine_pairs_level 1 3 0 n3 IN) as (n4 & Hn4 & Hl4 & Hok4);
    [done|by exists 0%N|done|done|].
  change (0 + 1)%N with 1%N in *. change (1 + 1)%N with 2%N in *.
  change (2 + 1)%N with 3%N in *. change (3 + 1)%N with 4%N in *.
  destruct n4 as [|out [|? ?]]; try done.
  destruct (level_ok_singleton _ _ _ _ Hok4) as (v & i & -> & Hm).
  exists v, i. split; [|done].
  unfold argmin_loop_synth. rewrite decide_True by done.
  change (N.to_nat (hops.clog2 LIST_LENGTH)) with 4.
  change (2 ^ 4) with 16. rewrite <- Hlen' at 1.
  rewrite (argmin_init_loop _ IN (uninit 16)) by done.
  fold leaves. cbn [mbind option_bind].
  unfold for_loop at 1. change (4 + 1 - 1) with 4.
  change (4 + 1) with 5. cbn [replicate insert list_insert].
  rewrite for_iter_S. cbn beta. change (2 ^ (4 - 1)) with 8.
  rewrite (argmin_level_loop _ 1 8 leaves n1 [] (uninit 16));
    [|done|by rewrite app_nil_r|done|done|rewrite length_uninit; lia|done].
  cbn [mbind option_bind insert list_insert].
  rewrite for_iter_S. cbn beta. change (2 ^ (4 - 2)) with 4.
  rewrite (argmin_level_loop _ 2 4 n1 n2 (drop 8 (uninit 16)) (uninit 16));
    [|done|done|done|done|rewrite length_uninit; lia|done].
  cbn [mbind option_bind insert list_insert].
  rewrite for_iter_S. cbn beta. change (2 ^ (4 - 3)) with 2.
  rewrite (argmin_level_loop _ 3 2 n2 n3 (drop 4 (uninit 16)) (uninit 16));
    [|done|done|done|done|rewrite length_uninit; lia|done].
  cbn [mbind option_bind insert list_insert].
  rewrite for_iter_S. cbn beta. change (2 ^ (4 - 4)) with 1.
  rewrite (argmin_level_loop _ 4 1 n3 [Argmin v (0 + i) 4]
             (drop 2 (uninit 16)) (uninit 16));
    [|done|done|done|done|rewrite length_uninit; lia|done].
  cbn [mbind option_bind insert list_insert for_iter].
  unfold load2.
  cbn [lookup list_lookup mbind option_bind fmap list_fmap app data idx].
  by rewrite N.add_0_l.
Qed.
End argmin_facts.

(** *** The reference scan of the test *)

Section gold_facts.
Import argminmax argmin_model.

Lemma gold_loop_linear_scan (pre l : list Z) (best : Z * N) :
  for_iter (length l) (length pre)
    (λ i gold, x ← (pre ++ l) !! i;
               Some (if bool_decide (x < gold.1)%Z then (x, N.of_nat i)
                     else gold))
    best
  = Some (linear_scan best (N.of_nat (length pre)) l).
Proof.
  revert pre best. induction l as [|x l IH]; intros pre best; [done|].
  cbn [length for_iter linear_scan].
  rewrite lookup_app_r, Nat.sub_diag by done.
  cbn [lookup list_lookup mbind option_bind].
  pose proof (IH (pre ++ [x])) as IH'.
  rewrite <- (assoc_L (++)), length_app in IH'. cbn [app length] in IH'.
  rewrite Nat.add_1_r in IH'. rewrite IH'.
  do 2 f_equal. lia.
Qed.

Lemma gold_scan_linear_scan (IN : list Z) :
  N.of_nat (length IN) = LIST_LENGTH →
  gold_scan IN = Some (linear_scan (0%Z, 0%N) 0 IN).
Proof.
  intros Hlen. unfold gold_scan, for_loop.
  replace (N.to_nat LIST_LENGTH - 0) with (length IN) by lia.
  apply (gold_loop_linear_scan [] IN).
Qed.

(** Seeded with [(0, 0)], the scan finds the minimum and its first index
    when the minimum is negative, and keeps the seed otherwise. *)
Lemma linear_scan_seeded (pre l : list Z) (best : Z * N) :
  (best = (0%Z, 0%N) ∧ Forall (λ y, (0 ≤ y)%Z) pre)
  ∨ ((best.1 < 0)%Z ∧ is_first_min pre best.1 best.2) →
  let r := linear_scan best (N.of_nat (length pre)) l in
  (r = (0%Z, 0%N) ∧ Forall (λ y, (0 ≤ y)%Z) (pre ++ l))
  ∨ ((r.1 < 0)%Z ∧ is_first_min (pre ++ l) r.1 r.2).
Proof.
  revert pre best. induction l as [|x l IH]; intros pre best Hbest.
  - cbn. by rewrite app_nil_r.
  - cbn [linear_scan].
    replace (N.of_nat (length pre) + 1)%N
      with (N.of_nat (length (pre ++ [x])))
      by (rewrite length_app; simpl; lia).
    rewrite (cons_middle x pre l), (assoc_L (++)).
    apply IH.
    destruct Hbest as [[-> Hpre]|[Hneg Hmin]].
    + cbn [fst]. case_bool_decide.
      * right. cbn [fst snd]. split; [done|]. split_and!.
        -- rewrite lookup_app_r, Nat2N.id, Nat.sub_diag by (rewrite Nat2N.id; lia).
           done.
        -- apply list.Forall_app. split.
           ++ eapply Forall_impl; [done|]. intros; cbn in *; lia.
           ++ by repeat constructor.
        -- rewrite Nat2N.id, take_app_length.
           eapply Forall_impl; [done|]. intros; cbn in *; lia.
      * left. split; [done|]. apply list.Forall_app. split; [done|].
        repeat constructor. lia.
    + right.
      pose proof (is_first_min_app pre [x] _ _ x 0 Hmin
                    (is_first_min_singleton x)) as H.
      rewrite N.add_0_r in H.
      case_bool_decide; cbn [fst snd]; (split; [lia|done]).
Qed.

Lemma gold_scan_spec (IN : list Z) (v : Z) (i : N) :
  N.of_nat (length IN) = LIST_LENGTH → is_first_min IN v i →
  gold_scan IN = Some (if bool_decide (v < 0)%Z then (v, i) else (0%Z, 0%N)).
Proof.
  intros Hlen Hmin. rewrite gold_scan_linear_scan by done. f_equal.
  pose proof (linear_scan_seeded [] IN (0%Z, 0%N)) as H.
  cbn [app length] in H. change (N.of_nat 0) with 0%N in H.
  destruct H as [[-> Hall]|[Hneg Hmin']]; [left; by split| |].
  - rewrite bool_decide_false; [done|].
    destruct Hmin as (Hv%list_elem_of_lookup_2 & _).
    rewrite list.Forall_forall in Hall. apply Hall in Hv. lia.
  - destruct (linear_scan (0%Z, 0%N) 0 IN) as [v' i'].
    cbn [fst snd] in Hneg, Hmin'.
    destruct (is_first_min_unique _ _ _ _ _ Hmin Hmin') as [<- <-].
    by rewrite bool_decide_true.
Qed.
End gold_facts.

(** C2.  For every 16-element integer array, and so for the one that
    the seed-42 normal-distribution fill produces, both arg-min
    realizations, the staged table [argmin_loop_synth] and the
    divide-and-conquer form [argmin_hop_synth] over entries
    [{value, 0, 0}], return the pair [(value, index)] that a linear scan
    for the minimum value and its first index returns. *)
Theorem argmin_realizations_agree (IN : list Z) :
  N.of_nat (length IN) = argminmax.LIST_LENGTH →
  ∃ v i,
    argminmax.argmin_loop_synth IN = Some (v, i) ∧
    argminmax.argmin_hop_synth IN = Some (v, i) ∧
    argminmax.linear_argmin IN = Some (v, i) ∧
    argmin_model.is_first_min IN v i.
Proof.
  intros Hlen.
  destruct (argmin_loop_synth_spec IN Hlen) as (v & i & Hloop & Hv).
  destruct (argmin_hop_synth_spec IN Hlen) as (v' & i' & Hhop & Hv').
  destruct (linear_argmin_spec IN) as (v'' & i'' & Hlin & Hv'').
  { intros ->. done. }
  destruct (is_first_min_unique _ _ _ _ _ Hv Hv') as [<- <-].
  destruct (is_first_min_unique _ _ _ _ _ Hv Hv'') as [<- <-].
  by exists v, i.
Qed.

Lemma argmin_realizations_agree_witness :
  let IN := [3; -5; 7; 0; -5; 12; -9; 4; 1; -9; 6; -2; 8; -1; 5; 2]%Z in
  N.of_nat (length IN) = argminmax.LIST_LENGTH ∧
  ∃ v i,
    argminmax.argmin_loop_synth IN = Some (v, i) ∧
    argminmax.argmin_hop_synth IN = Some (v, i) ∧
    argminmax.linear_argmin IN = Some (v, i) ∧
    argmin_model.is_first_min IN v i.
Proof.
  intros IN. split; [reflexivity|].
  apply (argmin_realizations_agree IN). reflexivity.
Defined.

Example argmin_sample :
  let IN := [3; -5; 7; 0; -5; 12; -9; 4; 1; -9; 6; -2; 8; -1; 5; 2]%Z in
  argminmax.argmin_loop_synth IN = Some (-9, 6%N)%Z ∧
  argminmax.argmin_hop_synth IN = Some (-9, 6%N)%Z ∧
  argminmax.linear_argmin IN = Some (-9, 6%N)%Z ∧
  argminmax.gold_scan IN = Some (-9, 6%N)%Z.
Proof. by vm_compute. Qed.

(** ** C3: the streaming insertion sort *)

Section isort_facts.
Import insertion_sort isort_model.
Implicit Types (arr : list isort_t) (IN me bump : isort_t).

Lemma length_pass arr IN : length (pass arr IN).2 = length arr.
Proof. induction arr as [|me arr IH]; [done|]. simpl. by rewrite IH. Qed.

Lemma pass_app arr1 arr2 IN :
  pass (arr1 ++ arr2) IN
  = let r2 := pass arr2 IN in
    let r1 := pass arr1 r2.1 in
    (r1.1, r1.2 ++ r2.2).
Proof.
  induction arr1 as [|me arr1 IH]; [simpl; by destruct (pass arr2 IN)|].
  simpl. rewrite IH. done.
Qed.

(** The fold form makes one pass. *)
Lemma rreduce_minOp arr IN :
  hops.rreduce minOp arr [IN] = Some ((pass arr IN).1 :: (pass arr IN).2).
Proof.
  induction arr as [|me arr IH]; [done|].
  rewrite rreduce_cons, IH. cbn [mbind option_bind].
  unfold minOp. rewrite head_cons. cbn [mbind option_bind].
  rewrite tail_cons. cbn [mbind option_bind].
  rewrite prepend_ok. cbn [mbind option_bind]. rewrite prepend_ok.
  done.
Qed.

Lemma isort_hop_synth_pass arr IN :
  length arr = LIST_LENGTH → isort_hop_synth arr IN = Some (pass arr IN).
Proof.
  intros Hlen. unfold isort_hop_synth. rewrite decide_True by done.
  rewrite rreduce_minOp. cbn [mbind option_bind].
  rewrite tail_cons, head_cons. cbn [mbind option_bind].
  by destruct (pass arr IN).
Qed.

(** The loop form makes the same pass, from the last index down. *)
Lemma isort_loop_body arr suffix n IN :
  length arr = n →
  for_down_iter n 0
    (λ i (st : list isort_t * isort_t),
       let (arr, bump) := st in
       me ← arr !! i;
       let comparison := bool_decide (me.1 < bump.1)%Z && negb me.2 in
       let newme : isort_t := (if comparison then me.1 else bump.1, bump.2) in
       let bump' : isort_t := (if comparison then bump.1 else me.1, me.2) in
       Some (<[i := newme]> arr, bump'))
    (arr ++ suffix, IN)
  = Some ((pass arr IN).2 ++ suffix, (pass arr IN).1).
Proof.
  revert arr suffix IN. induction n as [|n IH]; intros arr suffix IN Hlen.
  - by destruct arr.
  - destruct arr as [|me arr _] using rev_ind; [done|].
    rewrite length_app in Hlen. simpl in Hlen.
    assert (n = length arr) as -> by lia.
    cbn [for_down_iter]. rewrite Nat.add_0_l.
    rewrite <- (assoc_L (++)).
    rewrite lookup_app_r, Nat.sub_diag by done.
    cbn [app lookup list_lookup mbind option_bind].
    rewrite insert_app_r_alt, Nat.sub_diag by done.
    cbn [insert list_insert].
    rewrite IH by done.
    rewrite pass_app. cbn [pass cell_step fst snd].
    rewrite <- (assoc_L (++)). done.
Qed.

Lemma isort_loop_synth_pass arr IN :
  length arr = LIST_LENGTH → isort_loop_synth arr IN = Some (pass arr IN).
Proof.
  intros Hlen. unfold isort_loop_synth. rewrite decide_True by done.
  rewrite <- (app_nil_r arr) at 1.
  rewrite isort_loop_body by done. cbn [mbind option_bind fst snd].
  rewrite app_nil_r. by destruct (pass arr IN).
Qed.




Lemma for_iter_app {St} a c lo (body : nat → St → option St) s :
  for_iter (a + c) lo body s
  = s' ← for_iter a lo body s; for_iter c (lo + a) body s'.
Proof.
  revert lo s. induction a as [|a IH]; intros lo s.
  - simpl. by rewrite Nat.add_0_r.
  - simpl. destruct (body lo s) as [s1|]; [|done]. simpl.
    rewrite IH. by rewrite Nat.add_succ_comm.
Qed.


Section drive_facts.
Context (synth : list isort_t → isort_t → option (isort_t * list isort_t)).
Context (Hsynth : ∀ arr IN,
            length arr = LIST_LENGTH → synth arr IN = Some (pass arr IN)).
Context (input : list Z) (beyond : nat → Z).
Context (Hinput : length input = LIST_LENGTH).




End drive_facts.

(** *** The sorter as a sequence of passes *)











(** *** The sort the passes build *)







(** *** The whole sequence of calls *)

End isort_facts.




(** ** C4: the cell update of the Smith-Waterman unit *)

Section sw_facts.
Import smith_waterman sw_model.


(** What the two operators return, conversions to [char] included. *)
Lemma sw_op_rec_char read ref cur above rest cl ca cd :
  cur !! 0 = Some cl → above !! 0 = Some ca → above !! 1 = Some cd →
  sw_op_rec read ref (cur :: above :: rest)
  = Some (sw_cell (S (length rest)) read ref cl ca cd).
Proof.
  intros Hl Ha Hd. unfold sw_op_rec, sw_cell, at2.
  rewrite decide_False by (simpl; lia).
  destruct (last ref).
  - cbn [length]. do 3 f_equal; f_equal; lia.
  - cbn [lookup list_lookup mbind option_bind].
    rewrite Hl, Ha, Hd. done.
Qed.

Lemma sw_op_loop_char IDX read ref smatrix cur above cl ca cd :
  length smatrix = READ_LENGTH → IDX ≠ 0 →
  smatrix !! IDX = Some cur → smatrix !! (IDX - 1) = Some above →
  cur !! 0 = Some cl → above !! 0 = Some ca → above !! 1 = Some cd →
  sw_op_loop IDX read ref smatrix = Some (sw_cell IDX read ref cl ca cd).
Proof.
  intros Hlen Hne Hcur Habove Hl Ha Hd. unfold sw_op_loop, sw_cell, at2.
  rewrite decide_True, decide_False by done.
  destruct (last ref); [done|].
  rewrite Nat.add_0_r, Hcur, Habove. cbn [mbind option_bind].
  rewrite Hl, Ha, Hd. done.
Qed.

End sw_facts.




(** *** The two realizations of the wavefront step *)

Section systolic_facts.
Import smith_waterman sw_model.

Lemma zipWith3_triplizer {TF TS TT}
    (A : list TF) (B : list TS) (C : list TT) :
  length A = length B → length A = length C →
  hops.zipWith3 triplizer A B C
  = Some (zip_with (λ a bc, Triple a bc.1 bc.2) A (zip B C)).
Proof.
  intros HB HC. unfold hops.zipWith3. rewrite decide_True by done.
  revert B C HB HC.
  induction A as [|a A IH]; intros [|b' B] [|c C] HB HC; try done.
  cbn [length hops.XipHelper_zipWith3 lookup list_lookup mbind option_bind
       triplizer].
  rewrite !tail_cons. cbn [mbind option_bind].
  rewrite IH by (simpl in *; lia). cbn [mbind option_bind].
  by rewrite prepend_ok.
Qed.

Lemma zipWith_total {TA TB TR} (F : TA → TB → option TR) (g : TA → TB → TR)
    (A : list TA) (B : list TB) :
  (∀ a b', F a b' = Some (g a b')) → length A = length B →
  hops.zipWith F A B = Some (zip_with g A B).
Proof.
  intros HF Hlen. unfold hops.zipWith. rewrite decide_True by done.
  revert B Hlen. induction A as [|a A IH]; intros [|b' B] Hlen; try done.
  cbn [length hops.XipHelper_zipWith lookup list_lookup mbind option_bind].
  rewrite HF, !tail_cons. cbn [mbind option_bind].
  rewrite IH by (simpl in *; lia). cbn [mbind option_bind].
  by rewrite prepend_ok.
Qed.

Lemma zipWith_Forall2 {TA TB TR} (F : TA → TB → option TR) (g : TA → TB → TR)
    (A : list TA) (B : list TB) :
  Forall2 (λ a b', F a b' = Some (g a b')) A B →
  hops.zipWith F A B = Some (zip_with g A B).
Proof.
  intros HF. unfold hops.zipWith.
  rewrite decide_True by (by eapply list.Forall2_length).
  induction HF as [|a b' A B Hab HF IH]; [done|].
  cbn [length hops.XipHelper_zipWith lookup list_lookup mbind option_bind].
  rewrite Hab, !tail_cons. cbn [mbind option_bind].
  rewrite IH. cbn [mbind option_bind].
  by rewrite prepend_ok.
Qed.

Lemma wrapper_step {TL TT TS}
    (F : TL → TT → list (list TS) → option TS)
    (col : list TS) (past : list (list TS)) (l : TL) (t : TT) (row : list TS) :
  hops.partial wrapper F (col, past) (Triple l t row)
  = y ← F l t (row :: past); Some (col ++ [y], row :: past).
Proof.
  unfold hops.partial, wrapper.
  cbn [hist systolic_hpp.left systolic_hpp.top fst snd].
  rewrite prepend_ok. cbn [mbind option_bind].
  destruct (F l t (row :: past)) as [y|]; [|done].
  cbn [mbind option_bind]. by rewrite append_ok.
Qed.

(** The fold hands the operator, for row [r], the rows up to [r] with
    the newest first, and gathers the results into the new column. *)
Lemma lreduce_wrapper {TL TT TS}
    (F : TL → TT → list (list TS) → option TS)
    (left : list TL) (top : list TT) (sm : list (list TS)) (n k : nat)
    (col : list TS) :
  length left = length sm → length top = length sm → k + n = length sm →
  hops.lreduce (hops.partial wrapper F) (col, reverse (take k sm))
    (drop k (zip_with (λ a bc, Triple a bc.1 bc.2) left (zip top sm)))
  = ys ← mapM (λ r, l ← left !! r; t ← top !! r;
                    F l t (reverse (take (S r) sm)))
              (seq k n);
    Some (col ++ ys, reverse sm).
Proof.
  intros Hleft Htop. revert k col.
  induction n as [|n IH]; intros k col Hk.
  - rewrite drop_ge
      by (rewrite length_zip_with, length_zip; lia).
    cbn [seq mapM mbind option_bind mret option_ret].
    rewrite take_ge by lia. by rewrite app_nil_r.
  - destruct (lookup_lt_is_Some_2 left k) as [l Hl]; [lia|].
    destruct (lookup_lt_is_Some_2 top k) as [t Ht]; [lia|].
    destruct (lookup_lt_is_Some_2 sm k) as [row Hrow]; [lia|].
    rewrite (drop_S _ (Triple l t row) k).
    2: { rewrite lookup_zip_with, Hl. cbn [mbind option_bind].
         rewrite lookup_zip_with, Ht. cbn [mbind option_bind].
         by rewrite Hrow. }
    rewrite lreduce_cons.
    cbn [seq mapM]. rewrite Hl, Ht. cbn [mbind option_bind].
    rewrite wrapper_step.
    rewrite (take_S_r _ _ row) by done. rewrite reverse_snoc.
    destruct (F l t (row :: reverse (take k sm))) as [y|]; [|done].
    cbn [mbind option_bind].
    rewrite <- reverse_snoc, <- take_S_r by done.
    rewrite IH by lia.
    destruct (mapM _ (seq (S k) n)) as [ys|]; [|done].
    cbn [mbind option_bind mret option_ret].
    by rewrite <- (assoc_L (++)).
Qed.

Lemma systolic_fold {TL TT TS}
    (F : TL → TT → list (list TS) → option TS)
    (left : list TL) (top : list TT) (sm : list (list TS)) :
  length left = length sm → length top = length sm →
  systolic F left top sm
  = cells ← mapM (λ r, l ← left !! r; t ← top !! r;
                       F l t (reverse (take (S r) sm)))
                 (seq 0 (length sm));
    hops.zipWith hops.rshift cells sm.
Proof.
  intros Hleft Htop. unfold systolic.
  rewrite zipWith3_triplizer by lia. cbn [mbind option_bind].
  pose proof (lreduce_wrapper F left top sm (length sm) 0 [] Hleft Htop) as H.
  rewrite drop_0, take_0 in H.
  change (reverse (@nil (list TS))) with (@nil (list TS)) in H.
  rewrite H by done.
  destruct (mapM _ (seq 0 (length sm))) as [ys|]; [|done].
  done.
Qed.

Lemma rows_so_far {T} (sm : list (list T)) r cur above :
  sm !! S r = Some cur → sm !! r = Some above →
  ∃ rest, reverse (take (S (S r)) sm) = cur :: above :: rest ∧
          length rest = r.
Proof.
  intros Hcur Habove.
  rewrite (take_S_r _ _ cur), (take_S_r _ _ above) by done.
  rewrite !reverse_app. cbn [reverse rev_append app]. eexists. split; [done|].
  rewrite length_reverse, length_take.
  apply lookup_lt_Some in Habove. lia.
Qed.

Lemma well_formed_row (sm : list (list score)) r row :
  well_formed sm → sm !! r = Some row → ∃ c0 c1, row = [c0; c1].
Proof.
  intros [_ Hrows] Hrow. rewrite Forall_lookup in Hrows.
  specialize (Hrows _ _ Hrow). unfold SW_HIST in Hrows.
  destruct row as [|c0 [|c1 [|? ?]]]; try done. by exists c0, c1.
Qed.

Section cells.
Context (left : list hw_base) (top : list sw_ref) (sm : list (list score)).
Context (Hsm : well_formed sm).
Context (Hleft : length left = READ_LENGTH) (Htop : length top = READ_LENGTH).

Lemma sw_cells_agree r :
  r < READ_LENGTH →
  ∃ c, sw_new_cell left top sm r = Some c ∧
       (l ← left !! r; t ← top !! r;
        sw_op_rec l t (reverse (take (S r) sm))) = Some c ∧
       (l ← left !! r; t ← top !! r; sw_op_loop r l t sm) = Some c.
Proof.
  intros Hr. pose proof Hsm as [Hlen _].
  destruct (lookup_lt_is_Some_2 left r) as [l Hl]; [lia|].
  destruct (lookup_lt_is_Some_2 top r) as [t Ht]; [lia|].
  destruct (lookup_lt_is_Some_2 sm r) as [cur Hcur]; [lia|].
  unfold sw_new_cell. rewrite Hl, Ht. cbn [mbind option_bind].
  destruct r as [|r].
  - exists (Score 0 0 0). split_and!; [done| |].
    + destruct sm as [|row0 sm']; [done|]. done.
    + unfold sw_op_loop. by rewrite decide_True by done.
  - destruct (lookup_lt_is_Some_2 sm r) as [above Habove]; [lia|].
    destruct (well_formed_row _ _ _ Hsm Hcur) as (cl & ? & ->).
    destruct (well_formed_row _ _ _ Hsm Habove) as (ca & cd & ->).
    unfold at2. rewrite Hcur, Habove.
    cbn [mbind option_bind lookup list_lookup].
    eexists. split_and!; [done| |].
    + destruct (rows_so_far sm r _ _ Hcur Habove) as (rest & -> & Hrest).
      rewrite (sw_op_rec_char l t _ _ rest cl ca cd) by done.
      by rewrite Hrest.
    + rewrite (sw_op_loop_char (S r) l t sm [cl; x] [ca; cd] cl ca cd);
        try done.
      by rewrite Nat.sub_succ, Nat.sub_0_r.
Qed.

Lemma sw_cells_column :
  ∃ cells,
    length cells = READ_LENGTH ∧
    mapM (sw_new_cell left top sm) (seq 0 (length sm)) = Some cells ∧
    mapM (λ r, l ← left !! r; t ← top !! r;
               sw_op_rec l t (reverse (take (S r) sm)))
         (seq 0 (length sm)) = Some cells ∧
    ∀ r, r < length cells →
         (l ← left !! r; t ← top !! r; sw_op_loop r l t sm) = cells !! r.
Proof.
  pose proof Hsm as [Hlen _].
  destruct (mapM (sw_new_cell left top sm) (seq 0 (length sm)))
    as [cells|] eqn:E.
  2: { apply mapM_None_1, list.Exists_exists in E.
       destruct E as (r & Hr%elem_of_seq & Hnone).
       destruct (sw_cells_agree r) as (c & Hc & _); [lia|]. congruence. }
  pose proof (length_mapM _ _ _ E) as Hcells. rewrite length_seq in Hcells.
  exists cells. split_and!; [lia|done| |].
  - rewrite <- E. apply Forall_mapM_ext, list.Forall_forall.
    intros r Hr%elem_of_seq.
    destruct (sw_cells_agree r) as (c & -> & -> & _); [lia|done].
  - intros r Hr.
    destruct (sw_cells_agree r) as (c & Hc & _ & ->); [lia|].
    apply mapM_Some_1 in E.
    destruct (lookup_lt_is_Some_2 cells r) as [c' Hc']; [done|].
    rewrite Hc'.
    eapply Forall2_lookup_lr in E; [| |exact Hc'].
    2: { apply lookup_seq. split; [done|]. lia. }
    cbn in E. congruence.
Qed.
End cells.

(** X26.  Both realizations of the wavefront step, [systolic] through
    the fold and [sloop::systolic] through the loops, return the matrix
    of [sw_step]: in each row the new score, from [sw_new_cell], followed
    by the row's scores but the oldest. *)
Lemma systolic_forms_agree (left : list hw_base) (top : list sw_ref)
    (sm : list (list score)) :
  well_formed sm → length left = READ_LENGTH → length top = READ_LENGTH →
  ∃ new, sw_step left top sm = Some new ∧
         systolic_hop_synth left top sm = Some new ∧
         systolic_loop_synth left top sm = Some new.
Proof.
  intros Hsm Hleft Htop. pose proof Hsm as [Hlen Hrows].
  destruct (sw_cells_column left top sm Hsm Hleft Htop)
    as (cells & Hcells & Hnew & Hrec & Hloop).
  exists (zip_with (λ c row, c :: take (length row - 1) row) cells sm).
  split_and!.
  - unfold sw_step. by rewrite Hnew.
  - unfold systolic_hop_synth. rewrite decide_True by done.
    rewrite systolic_fold, Hrec by lia. cbn [mbind option_bind].
    apply zipWith_Forall2, Forall2_same_length_lookup_2; [lia|].
    intros r c row _ Hrow. apply rshift_ok.
    by destruct (well_formed_row sm r row Hsm Hrow) as (c0 & c1 & ->).
  - unfold systolic_loop_synth. rewrite decide_True by done.
    unfold sloop.systolic. rewrite decide_True by (rewrite Hlen; done).
    rewrite Hlen.
    assert (for_loop 0 READ_LENGTH
              (λ row newcol,
                 l ← left !! row; t ← top !! row;
                 y ← sw_op_loop row l t sm; store newcol row y)
              (uninit READ_LENGTH)
            = Some (Some <$> cells)) as ->.
    { unfold for_loop. rewrite Nat.sub_0_r.
      rewrite (for_iter_ext _ _ _
                 (λ row newcol,
                    y ← (l ← left !! row; t ← top !! row;
                         sw_op_loop row l t sm);
                    store newcol row y)).
      2: { intros r s' _. destruct (left !! r); [|done].
           cbn [mbind option_bind]. by destruct (top !! r). }
      rewrite <- Hcells.
      rewrite (for_iter_fill _ (λ i, i) cells 0);
        [|done|done|rewrite length_uninit; lia].
      rewrite take_0, drop_ge by (rewrite length_uninit; lia).
      by rewrite app_nil_r. }
    cbn [mbind option_bind]. unfold for_loop. rewrite Nat.sub_0_r.
    unfold READ_LENGTH, SW_HIST in *.
    do 16 (destruct cells as [|? cells]; [done|]).
    destruct cells; [|done].
    do 16 (destruct sm as [|? sm]; [done|]).
    destruct sm; [|done].
    repeat match goal with
           | H : Forall _ (_ :: _) |- _ =>
               apply list.Forall_cons in H as [? H]
           end.
    repeat match goal with
           | H : length ?row = 2 |- _ =>
               destruct row as [|? [|? [|? ?]]]; try (simpl in H; lia); clear H
           end.
    vm_compute. reflexivity.
Qed.
End systolic_facts.

Lemma systolic_forms_agree_witness :
  let left := replicate 16 97%Z in
  let top := replicate 16 (smith_waterman.SwRef 97%Z false) in
  let sm := replicate 16 [smith_waterman.Score 1 0 0;
                          smith_waterman.Score 0 0 0] in
  ∃ new, sw_model.sw_step left top sm = Some new ∧
         smith_waterman.systolic_hop_synth left top sm = Some new ∧
         smith_waterman.systolic_loop_synth left top sm = Some new.
Proof.
  intros left top sm. apply (systolic_forms_agree left top sm).
  - split; [reflexivity|]. unfold sm. cbn [replicate].
    repeat (apply list.Forall_cons; split; [reflexivity|]).
    apply list.Forall_nil_2.
  - reflexivity.
  - reflexivity.
Defined.

(** * The rest of the library *)

(** ** Loops that fill an array *)

Section fill_facts.
Context {T : Type}.

Lemma fill_loop (src : nat → option T) (n : nat) :
  (res ← for_loop 0 n (λ idx res, x ← src idx; store res idx x) (uninit n);
   freeze res)
  = mapM src (seq 0 n).
Proof.
  destruct (mapM src (seq 0 n)) as [vs|] eqn:E.
  - apply mapM_Some_1 in E.
    assert (Hl : n = length vs).
    { apply list.Forall2_length in E. by rewrite length_seq in E. }
    rewrite Hl at 1 2. rewrite fill_uninit.
    + cbn [mbind option_bind]. apply freeze_Some.
    + intros i Hi.
      destruct (lookup_lt_is_Some_2 vs i) as [y Hy]; [done|].
      rewrite Hy. eapply (Forall2_lookup_lr _ _ _ i i y) in E; [done| |done].
      apply lookup_seq. lia.
  - apply mapM_None_1, list.Exists_exists in E.
    destruct E as (i & Hi & Hsrc). apply elem_of_seq in Hi.
    unfold for_loop. rewrite (for_iter_None _ _ _ _ i); [done|lia|].
    intros s. by rewrite Hsrc.
Qed.

Lemma mapM_seq_lookup {B} (f : T → option B) (l : list T) :
  mapM (λ i, l !! i ≫= f) (seq 0 (length l)) = mapM f l.
Proof.
  induction l as [|x l IH]; [done|].
  cbn [length seq mapM lookup list_lookup mbind option_bind].
  rewrite <- fmap_S_seq.
  destruct (f x) as [y|]; [|done]. cbn [mbind option_bind].
  rewrite <- IH. f_equal.
  clear. generalize (seq 0 (length l)). intros ks.
  induction ks as [|k ks IH]; [done|].
  cbn [fmap list_fmap mapM lookup list_lookup]. by rewrite IH.
Qed.
End fill_facts.

(** ** arrayops.hpp: the other primitives *)

Section more_arrayops.
Context {T : Type}.
Implicit Types (IN : list T) (V : T).

Lemma reverse_ok IN : hops.reverse IN = Some (reverse IN).
Proof.
  unfold hops.reverse. cbn zeta.
  pose proof (fill_uninit (λ idx, IN !! (length IN - (idx + 1)))
                (reverse IN)) as H.
  rewrite length_reverse in H. rewrite H; [apply freeze_Some|].
  intros i Hi. rewrite reverse_lookup by done. f_equal. lia.
Qed.

Lemma replicate_ok (LEN : nat) V : hops.replicate LEN V = Some (replicate LEN V).
Proof.
  unfold hops.replicate.
  pose proof (fill_uninit (λ _, Some V) (replicate LEN V)) as H.
  rewrite length_replicate in H. cbn [mbind option_bind] in H.
  rewrite H; [apply freeze_Some|].
  intros i Hi. by rewrite lookup_replicate_2.
Qed.

Lemma last_ok IN : hops.last IN = last IN.
Proof.
  unfold hops.last. destruct (decide (IN = [])) as [->|HIN]; [done|].
  rewrite size_pred_to_nat by (by destruct IN).
  rewrite last_lookup. f_equal. lia.
Qed.

Lemma lshift_ok IN V : IN ≠ [] → hops.lshift IN V = Some (drop 1 IN ++ [V]).
Proof.
  intros HIN. destruct IN as [|x IN]; [done|].
  unfold hops.lshift. rewrite tail_cons. cbn [mbind option_bind].
  by rewrite append_ok.
Qed.
End more_arrayops.

(** X1.  [reverse] returns an array of the length of its argument whose
    element [i] is element [LEN - 1 - i] of the argument; reversing the
    result gives the argument back. *)
Theorem reverse_involutive {T} (IN : list T) :
  ∃ OUT, hops.reverse IN = Some OUT ∧ length OUT = length IN ∧
         (∀ i, i < length IN → OUT !! i = IN !! (length IN - 1 - i)) ∧
         hops.reverse OUT = Some IN.
Proof.
  exists (reverse IN). rewrite !reverse_ok, reverse_involutive, length_reverse.
  split_and!; try done.
  intros i Hi. rewrite reverse_lookup by done. f_equal. lia.
Qed.

(** X2.  [replicate<LEN>(V)] returns an array of [LEN] elements, each of
    them [V]. *)
Theorem replicate_spec {T} (LEN : nat) (V : T) :
  ∃ OUT, hops.replicate LEN V = Some OUT ∧ length OUT = LEN ∧
         ∀ i, i < LEN → OUT !! i = Some V.
Proof.
  exists (replicate LEN V). rewrite replicate_ok, length_replicate.
  split_and!; try done. intros i Hi. by apply lookup_replicate_2.
Qed.

(** X3.  The head of [prepend(V, IN)] is [V] and its tail is [IN]; an
    array that is not empty is its head prepended to its tail, and the
    empty array has neither a head nor a tail. *)
Theorem prepend_head_tail {T} (V : T) (IN : list T) :
  (r ← hops.prepend V IN; hops.head r) = Some V ∧
  (r ← hops.prepend V IN; hops.tail r) = Some IN ∧
  match IN with
  | [] => hops.head IN = None ∧ hops.tail IN = None
  | _ => ∃ h t, hops.head IN = Some h ∧ hops.tail IN = Some t ∧
                hops.prepend h t = Some IN
  end.
Proof.
  rewrite prepend_ok. cbn [mbind option_bind]. rewrite tail_cons.
  split_and!; try done.
  destruct IN as [|h t]; [done|].
  exists h, t. by rewrite tail_cons, prepend_ok.
Qed.

(** X4.  [append(IN, V)] has one element more than [IN], starts with the
    elements of [IN], and both [last] and [At<LEN>] of it are [V]; the empty
    array has no last element. *)
Theorem append_last {T} (IN : list T) (V : T) :
  (∃ OUT, hops.append IN V = Some OUT ∧ length OUT = S (length IN) ∧
          take (length IN) OUT = IN ∧
          hops.last OUT = Some V ∧
          hops.At (N.of_nat (length IN)) OUT = Some V) ∧
  hops.last (@nil T) = None.
Proof.
  split; [|done]. exists (IN ++ [V]). rewrite append_ok, last_ok.
  rewrite length_app, take_app_length, last_snoc. unfold hops.At.
  rewrite Nat2N.id, lookup_app_r, Nat.sub_diag by lia.
  split_and!; try done. simpl. lia.
Qed.

(** X5.  On an array that is not empty [rshift(V, IN)] is [V] followed by
    all elements of [IN] but the last, and [lshift(IN, V)] is all elements
    of [IN] but the first followed by [V]; on the empty array neither has
    an instantiation. *)
Theorem shift_spec {T} (V : T) (IN : list T) :
  match IN with
  | [] => hops.rshift V IN = None ∧ hops.lshift IN V = None
  | _ => hops.rshift V IN = Some (V :: take (length IN - 1) IN) ∧
         hops.lshift IN V = Some (drop 1 IN ++ [V])
  end.
Proof.
  destruct IN as [|x IN]; [done|].
  by rewrite rshift_ok, lshift_ok.
Qed.

(** X6.  A rotation is the shift that feeds back the element falling off:
    [rrotate(IN)] is [rshift(last(IN), IN)] and [lrotate(IN)] is
    [lshift(IN, head(IN))]; both rotations of the empty array are the
    empty array. *)
Theorem rotate_as_shift {T} (IN : list T) :
  match IN with
  | [] => hops.rrotate IN = Some [] ∧ hops.lrotate IN = Some []
  | _ => ∃ h l OUTr OUTl,
           hops.head IN = Some h ∧ hops.last IN = Some l ∧
           hops.rrotate IN = Some OUTr ∧ hops.rshift l IN = Some OUTr ∧
           hops.lrotate IN = Some OUTl ∧ hops.lshift IN h = Some OUTl
  end.
Proof.
  destruct IN as [|h t] eqn:E; [done|]. rewrite <- E.
  assert (HIN : IN ≠ []) by (by rewrite E).
  destruct (proj2 (last_is_Some IN) HIN) as [l Hl].
  exists h, l. rewrite last_ok, Hl.
  rewrite rrotate_ok, lrotate_ok, rshift_ok, lshift_ok by done.
  eexists _, _. split_and!; try done; [by rewrite E| |by rewrite E].
  apply last_Some in Hl as [l' ->]. rewrite length_app. cbn [length].
  replace (length l' + 1 - 1) with (length l') by lia.
  by rewrite drop_app_length, take_app_length.
Qed.

(** *** range *)

Lemma range_store_trace (vs : list N) (n : nat) :
  length vs ≤ n →
  foldl (λ acc w, temp ← acc; store temp (N.to_nat w.1) w.2)
        (Some (uninit n))
        (imap (λ i v, (N.of_nat i, v)) vs)
  = Some ((Some <$> vs) ++ replicate (n - length vs) None).
Proof.
  induction vs as [|v vs IH] using rev_ind; intros Hn.
  - simpl. by rewrite Nat.sub_0_r.
  - rewrite length_app in Hn. cbn [length] in Hn.
    rewrite imap_app, foldl_app, IH by lia.
    cbn [imap foldl mbind option_bind fst snd].
    rewrite Nat.add_0_r, Nat2N.id.
    rewrite store_Some
      by (rewrite length_app, length_fmap, length_replicate; lia).
    f_equal. rewrite insert_app_r_alt by (rewrite length_fmap; lia).
    rewrite length_fmap, Nat.sub_diag, length_app. cbn [length].
    replace (n - length vs) with (S (n - (length vs + 1))) by lia.
    rewrite fmap_app, <- (assoc_L (++)). done.
Qed.

(** X7.  When [STEP] divides [STOP - START], [range<STOP, START, STEP>()]
    returns the progression [START, START + STEP, ...] of
    [(STOP - START) / STEP] elements. *)
Theorem range_progression (STOP START STEP : N) (fuel : nat) :
  (START ≤ STOP < size_t_modulus)%N → (0 < STEP)%N →
  (STEP | STOP - START)%N →
  N.to_nat ((STOP - START) / STEP) < fuel →
  hops.range fuel STOP START STEP
  = Some ((λ i, (START + N.of_nat i * STEP)%N)
            <$> seq 0 (N.to_nat ((STOP - START) / STEP))).
Proof.
  intros [Hle Hstop] Hstep [q Hq] Hfuel.
  assert (Hdiv : ((STOP - START) / STEP = q)%N).
  { rewrite Hq. apply N.div_mul. lia. }
  assert (Hn : hops.range_length STOP START STEP = q).
  { unfold hops.range_length, size_sub.
    rewrite (N.mod_small START) by lia.
    replace (STOP + size_t_modulus - START)%N
      with (STOP - START + 1 * size_t_modulus)%N by lia.
    rewrite N.Div0.mod_add, N.mod_small by lia. done. }
  rewrite Hdiv in *.
  unfold hops.range. rewrite decide_False by lia. rewrite Hn.
  rewrite (range_loop_mono (S (N.to_nat q)) fuel STOP STEP START 0
             ((λ i, (0 + N.of_nat i, START + N.of_nat i * STEP)%N)
                <$> seq 0 (N.to_nat q))); [| |lia]; cycle 1.
  { apply range_loop_exact; [|done|done|unfold size_t_modulus in *; nia].
    rewrite N2Nat.id. lia. }
  cbn [mbind option_bind].
  set (vs := (λ i, (START + N.of_nat i * STEP)%N) <$> seq 0 (N.to_nat q)).
  assert (Hvs : length vs = N.to_nat q).
  { subst vs. by rewrite length_fmap, length_seq. }
  replace ((λ i, (0 + N.of_nat i, START + N.of_nat i * STEP)%N)
             <$> seq 0 (N.to_nat q))
    with (imap (λ i v, (N.of_nat i, v)) vs); cycle 1.
  { subst vs. apply list_eq. intros i.
    rewrite list_lookup_imap, !list_lookup_fmap.
    destruct (seq 0 (N.to_nat q) !! i) as [k|] eqn:E; [|done].
    apply lookup_seq in E as [-> _]. done. }
  rewrite range_store_trace by lia. cbn [mbind option_bind].
  rewrite Hvs, Nat.sub_diag, app_nil_r. apply freeze_Some.
Qed.

Lemma range_progression_witness :
  hops.range 20 10 4 3 = Some [4; 7]%N.
Proof.
  apply (range_progression 10 4 3 20); [done|done|by exists 2%N|].
  vm_compute. lia.
Defined.

(** *** log2 and clog2 *)

Lemma log2_rec_small (fuel : nat) (n : N) :
  (n ≤ 2)%N → hops.log2_rec fuel n = 1%N.
Proof.
  intros Hn. destruct fuel as [|fuel]; [done|].
  cbn [hops.log2_rec]. by rewrite (proj2 (N.leb_le n 2)).
Qed.

Lemma log2_rec_bounds (fuel : nat) (n : N) :
  (2 ≤ n < 2 ^ N.of_nat (S fuel))%N →
  let r := hops.log2_rec fuel n in
  (1 ≤ r ∧ 3 * 2 ^ r ≤ 4 * n < 6 * 2 ^ r)%N.
Proof.
  revert n. induction fuel as [|fuel IH]; intros n [Hlo Hhi].
  { change (2 ^ N.of_nat 1)%N with 2%N in Hhi. lia. }
  cbn zeta. cbn [hops.log2_rec].
  destruct (n <=? 2)%N eqn:E.
  - apply N.leb_le in E. assert (n = 2%N) as -> by lia. done.
  - apply N.leb_gt in E.
    assert (Hdiv : (n = 2 * (n / 2) + n mod 2)%N) by apply N.div_mod'.
    assert (Hmod : (n mod 2 < 2)%N) by (apply N.mod_lt; lia).
    set (d := (n / 2)%N) in *. set (m := (n mod 2)%N) in *.
    clearbody d m.
    destruct (decide (d = 1)%N) as [H1|H1].
    + rewrite H1, log2_rec_small by lia.
      change (2 ^ (1 + 1))%N with 4%N. lia.
    + specialize (IH d). cbn zeta in IH.
      destruct IH as (Hr & Hlow & Hupp).
      { split; [lia|].
        rewrite (Nat2N.inj_succ (S fuel)), N.pow_succ_r' in Hhi. lia. }
      set (r := hops.log2_rec fuel d) in *.
      rewrite N.pow_add_r. change (2 ^ 1)%N with 2%N.
      assert (∃ p, 2 ^ r = 2 * p)%N as [p Hp].
      { exists (2 ^ (r - 1))%N. rewrite <- N.pow_succ_r'. f_equal. lia. }
      lia.
Qed.

Lemma log2_bounds (n : N) :
  (2 ≤ n < size_t_modulus)%N →
  (1 ≤ hops.log2 n ∧
   3 * 2 ^ hops.log2 n ≤ 4 * n < 6 * 2 ^ hops.log2 n)%N.
Proof.
  intros [Hlo Hhi]. apply (log2_rec_bounds 64 n). split; [done|].
  unfold size_t_modulus in Hhi.
  change (2 ^ N.of_nat 65)%N with (2 * 2 ^ 64)%N. lia.
Qed.

Lemma log2_pow2 (k : N) : (1 ≤ k < 64 → hops.log2 (2 ^ k) = k)%N.
Proof.
  intros [Hk1 Hk].
  assert (H2k : (2 ≤ 2 ^ k < size_t_modulus)%N).
  { split.
    - change 2%N with (2 ^ 1)%N at 1. apply N.pow_le_mono_r; lia.
    - apply N.pow_lt_mono_r; lia. }
  destruct (log2_bounds _ H2k) as (Hr & Hlow & Hupp).
  set (r := hops.log2 (2 ^ k)) in *. clearbody r.
  destruct (N.lt_trichotomy r k) as [Hlt|[->|Hgt]]; [|done|].
  + assert (2 * 2 ^ r ≤ 2 ^ k)%N; [|lia].
    rewrite <- N.pow_succ_r'. apply N.pow_le_mono_r; lia.
  + assert (2 * 2 ^ k ≤ 2 ^ r)%N; [|lia].
    rewrite <- N.pow_succ_r'. apply N.pow_le_mono_r; lia.
Qed.

(** X8.  For [2 <= n < 2^64], [log2(n)] is the [r >= 1] with
    [3 * 2^r <= 4 * n < 6 * 2^r]: the binary logarithm rounded at three
    quarters of a power of two, not truncated, so already [log2(3)] is 2
    and [log2(6)] is 3.  On a power of two [2^k], [1 <= k < 64], it is
    [k]; on 0, 1 and 2 it is 1. *)
Theorem log2_spec (n k : N) :
  (2 ≤ n < size_t_modulus)%N → (1 ≤ k < 64)%N →
  (1 ≤ hops.log2 n ∧
   3 * 2 ^ hops.log2 n ≤ 4 * n < 6 * 2 ^ hops.log2 n ∧
   hops.log2 (2 ^ k) = k ∧
   hops.log2 0 = 1 ∧ hops.log2 1 = 1 ∧ hops.log2 2 = 1 ∧
   hops.log2 3 = 2 ∧ hops.log2 6 = 3)%N.
Proof.
  intros Hn Hk. destruct (log2_bounds n Hn) as (? & ? & ?).
  split_and!; try done. by apply log2_pow2.
Qed.

Lemma log2_spec_witness :
  (1 ≤ hops.log2 12 ∧
   3 * 2 ^ hops.log2 12 ≤ 4 * 12 < 6 * 2 ^ hops.log2 12 ∧
   hops.log2 (2 ^ 4) = 4 ∧
   hops.log2 0 = 1 ∧ hops.log2 1 = 1 ∧ hops.log2 2 = 1 ∧
   hops.log2 3 = 2 ∧ hops.log2 6 = 3)%N.
Proof. apply (log2_spec 12 4); unfold size_t_modulus; lia. Defined.

(** X9.  For [2 <= n < 2^31], [clog2(n)] is the least [c] with
    [n <= 2^c], the binary logarithm rounded up; on 0 and 1 it is 1. *)
Theorem clog2_ceiling (n : N) :
  (2 ≤ n < 2 ^ 31)%N →
  (2 ^ (hops.clog2 n - 1) < n ≤ 2 ^ hops.clog2 n ∧
   hops.clog2 n = N.log2_up n ∧
   hops.clog2 0 = 1 ∧ hops.clog2 1 = 1)%N.
Proof.
  intros [Hlo Hhi].
  assert (Hb : (2 ^ (hops.clog2 n - 1) < n ≤ 2 ^ hops.clog2 n)%N).
  { destruct (log2_bounds n) as (Hr & Hlow & Hupp).
    { unfold size_t_modulus. lia. }
    unfold hops.clog2. set (r := hops.log2 n) in *. clearbody r.
    rewrite N.shiftl_1_l.
    assert (2 ^ r = 2 * 2 ^ (r - 1))%N as Hp.
    { rewrite <- N.pow_succ_r'. f_equal. lia. }
    destruct (2 ^ r <? n)%N eqn:E.
    - apply N.ltb_lt in E.
      replace (r + 1 - 1)%N with r by lia.
      rewrite N.pow_add_r. change (2 ^ 1)%N with 2%N. lia.
    - apply N.ltb_ge in E. rewrite N.add_0_r. lia. }
  split_and!; [apply Hb|apply Hb| |done|done].
  symmetry. apply N.log2_up_unique.
  - unfold hops.clog2.
    destruct (log2_bounds n) as (Hr & _); [unfold size_t_modulus; lia|].
    lia.
  - by rewrite <- N.sub_1_r.
Qed.

Lemma clog2_ceiling_witness :
  (2 ^ (hops.clog2 5 - 1) < 5 ≤ 2 ^ hops.clog2 5 ∧
   hops.clog2 5 = N.log2_up 5 ∧
   hops.clog2 0 = 1 ∧ hops.clog2 1 = 1)%N.
Proof. apply (clog2_ceiling 5). lia. Defined.

(** ** zip.hpp: zipWith and the loop forms *)

Lemma mapM_ext_in {A B} (f g : A → option B) (l : list A) :
  (∀ x, x ∈ l → f x = g x) → mapM f l = mapM g l.
Proof.
  induction l as [|x l IH]; intros H; [done|].
  cbn [mapM]. rewrite (H x) by left.
  rewrite IH; [done|]. intros y Hy. apply H. by right.
Qed.

Lemma mapM_Some_id {A} (l : list A) : mapM Some l = Some l.
Proof. induction l as [|x l IH]; [done|]. cbn [mapM]. by rewrite IH. Qed.

Section zip_more.
Context {TA TB TC TR : Type}.

Lemma XipHelper_zipWith_ok (F : TA → TB → option TR)
    (A : list TA) (B : list TB) :
  length A = length B →
  hops.XipHelper_zipWith (length A) F A B
  = mapM (hops.uncurry F) (zip A B).
Proof.
  unfold hops.uncurry.
  revert B. induction A as [|a A IH]; intros [|b' B] Hlen; try done.
  cbn [length hops.XipHelper_zipWith lookup list_lookup mbind option_bind
       zip zip_with mapM fst snd].
  destruct (F a b') as [y|]; cbn [mbind option_bind]; [|done].
  rewrite !tail_cons. cbn [mbind option_bind].
  rewrite IH by (simpl in Hlen; lia).
  destruct (mapM _ _) as [r|]; cbn [mbind option_bind]; [|done].
  by rewrite prepend_ok.
Qed.

Lemma XipHelper_zipWith3_ok (F : TA → TB → TC → option TR)
    (A : list TA) (B : list TB) (C : list TC) :
  length A = length B → length A = length C →
  hops.XipHelper_zipWith3 (length A) F A B C
  = mapM (λ p, F p.1.1 p.1.2 p.2) (zip (zip A B) C).
Proof.
  revert B C.
  induction A as [|a A IH]; intros [|b' B] [|c C] HB HC; try done.
  cbn [length hops.XipHelper_zipWith3 lookup list_lookup mbind option_bind
       zip zip_with mapM fst snd].
  destruct (F a b' c) as [y|]; cbn [mbind option_bind]; [|done].
  rewrite !tail_cons. cbn [mbind option_bind].
  rewrite IH by (simpl in *; lia).
  destruct (mapM _ _) as [r|]; cbn [mbind option_bind]; [|done].
  by rewrite prepend_ok.
Qed.

Lemma loop_zipWith_ok (F : TA → TB → option TR)
    (A : list TA) (B : list TB) :
  length A = length B →
  hops.loop.zipWith F A B = mapM (hops.uncurry F) (zip A B).
Proof.
  intros Hlen. unfold hops.loop.zipWith. cbn zeta.
  rewrite decide_True by done.
  unfold for_loop.
  rewrite (for_iter_ext _ _ _
             (λ i temp, y ← (a ← A !! i; b' ← B !! i; F a b');
                        store temp i y)); cycle 1.
  { intros i s _. destruct (A !! i); [|done]. by destruct (B !! i). }
  pose proof (fill_loop (λ i, a ← A !! i; b' ← B !! i; F a b')
                (length A)) as H.
  unfold for_loop in H. rewrite H.
  rewrite <- (mapM_seq_lookup (hops.uncurry F) (zip A B)).
  rewrite length_zip_with, <- Hlen, Nat.min_id.
  apply mapM_ext_in. intros i _.
  rewrite lookup_zip_with.
  destruct (A !! i); [|done]. by destruct (B !! i).
Qed.

Lemma loop_zipWith3_ok (F : TA → TB → TC → option TR)
    (A : list TA) (B : list TB) (C : list TC) :
  length A = length B → length A = length C →
  hops.loop.zipWith3 F A B C
  = mapM (λ p, F p.1.1 p.1.2 p.2) (zip (zip A B) C).
Proof.
  intros HB HC. unfold hops.loop.zipWith3. cbn zeta.
  rewrite decide_True by done.
  unfold for_loop.
  rewrite (for_iter_ext _ _ _
             (λ i temp, y ← (a ← A !! i; b' ← B !! i; c ← C !! i; F a b' c);
                        store temp i y)); cycle 1.
  { intros i s _. destruct (A !! i); [|done]. destruct (B !! i); [|done].
    by destruct (C !! i). }
  pose proof (fill_loop (λ i, a ← A !! i; b' ← B !! i; c ← C !! i; F a b' c)
                (length A)) as H.
  unfold for_loop in H. rewrite H.
  rewrite <- (mapM_seq_lookup (λ p, F p.1.1 p.1.2 p.2) (zip (zip A B) C)).
  rewrite !length_zip_with, <- HB, <- HC, !Nat.min_id.
  apply mapM_ext_in. intros i _.
  rewrite !lookup_zip_with.
  destruct (A !! i); [|done]. destruct (B !! i); [|done].
  by destruct (C !! i).
Qed.
End zip_more.

Lemma loop_zip_ok {TL TR} (L : list TL) (R : list TR) :
  length L = length R → hops.loop.zip L R = Some (zip L R).
Proof.
  intros Hlen. unfold hops.loop.zip. cbn zeta.
  rewrite decide_True by done.
  unfold for_loop.
  rewrite (for_iter_ext _ _ _
             (λ i temp, y ← (l ← L !! i; r ← R !! i; Some (l, r));
                        store temp i y)); cycle 1.
  { intros i s _. destruct (L !! i); [|done]. by destruct (R !! i). }
  pose proof (fill_loop (λ i, l ← L !! i; r ← R !! i; Some (l, r))
                (length L)) as H.
  unfold for_loop in H. rewrite H.
  rewrite <- (mapM_Some_id (zip L R)).
  rewrite <- (mapM_seq_lookup Some (zip L R)).
  rewrite length_zip_with, <- Hlen, Nat.min_id.
  apply mapM_ext_in. intros i _.
  rewrite lookup_zip_with.
  destruct (L !! i); [|done]. by destruct (R !! i).
Qed.

Lemma store_prefix {T} (vs : list T) (n : nat) (v : T) :
  length vs < n →
  store ((Some <$> vs) ++ replicate (n - length vs) None) (length vs) v
  = Some ((Some <$> (vs ++ [v])) ++ replicate (n - length (vs ++ [v])) None).
Proof.
  intros Hn.
  rewrite store_Some
    by (rewrite length_app, length_fmap, length_replicate; lia).
  f_equal. rewrite insert_app_r_alt by (rewrite length_fmap; lia).
  rewrite length_fmap, Nat.sub_diag, length_app. cbn [length].
  replace (n - length vs) with (S (n - (length vs + 1))) by lia.
  by rewrite fmap_app, <- (assoc_L (++)).
Qed.

Lemma loop_unzip_ok {T} (IN : list (T * T)) :
  hops.loop.unzip IN = Some (IN.*1, IN.*2).
Proof.
  unfold hops.loop.unzip. cbn zeta. unfold for_loop. rewrite Nat.sub_0_r.
  set (body := λ (i : nat) (lr : list (option T) * list (option T)),
         p ← IN !! i;
         left ← store lr.1 i p.1;
         right ← store lr.2 i p.2;
         Some (left, right)).
  assert (H : ∀ k, k ≤ length IN →
            for_iter k 0 body (uninit (length IN), uninit (length IN))
            = Some ((Some <$> take k IN.*1) ++ replicate (length IN - k) None,
                    (Some <$> take k IN.*2) ++ replicate (length IN - k) None)).
  { induction k as [|k IH]; intros Hk.
    - cbn [for_iter]. by rewrite !take_0, Nat.sub_0_r.
    - rewrite for_iter_snoc, IH by lia. cbn [mbind option_bind].
      rewrite Nat.add_0_l. subst body. cbn beta.
      destruct (lookup_lt_is_Some_2 IN k) as [p Hp]; [lia|].
      rewrite Hp. cbn [mbind option_bind fst snd].
      assert (Hl1 : length (take k IN.*1) = k)
        by (rewrite length_take, length_fmap; lia).
      assert (Hl2 : length (take k IN.*2) = k)
        by (rewrite length_take, length_fmap; lia).
      pose proof (store_prefix (take k IN.*1) (length IN) p.1) as H1.
      pose proof (store_prefix (take k IN.*2) (length IN) p.2) as H2.
      rewrite length_app, Hl1 in H1. rewrite length_app, Hl2 in H2.
      cbn [length] in H1, H2.
      rewrite H1, H2 by lia. cbn [mbind option_bind].
      rewrite (take_S_r IN.*1 k p.1) by (by rewrite list_lookup_fmap, Hp).
      rewrite (take_S_r IN.*2 k p.2) by (by rewrite list_lookup_fmap, Hp).
      by replace (k + 1) with (S k) by lia. }
  rewrite H by done. cbn [mbind option_bind fst snd].
  rewrite Nat.sub_diag, !app_nil_r.
  rewrite !take_ge by (rewrite length_fmap; lia).
  by rewrite !freeze_Some.
Qed.

(** X10.  [zipWith(F, A, B)] is [map] of the uncurried [F] over
    [zip(A, B)], also where [F] has no value; with a callable that always
    returns, the result holds [f] of the elements at each index when the
    lengths agree, and there is no instantiation when they differ. *)
Theorem zipWith_zip_map {TA TB TR} (F : TA → TB → option TR)
    (f : TA → TB → TR) (A : list TA) (B : list TB) :
  hops.zipWith F A B = (z ← hops.zip A B; hops.map (hops.uncurry F) z) ∧
  hops.zipWith (λ a b', Some (f a b')) A B
  = if decide (length A = length B) then Some (zip_with f A B) else None.
Proof.
  unfold hops.zipWith, hops.zip.
  destruct (decide (length A = length B)) as [Hlen|Hlen]; [|done].
  rewrite XipHelper_zip_ok, !XipHelper_zipWith_ok by done.
  cbn [mbind option_bind]. rewrite map_ok. split; [done|].
  unfold hops.uncurry. rewrite mapM_total. f_equal.
  clear Hlen. revert B. induction A as [|a A IH]; intros [|b' B]; try done.
  cbn [zip_with fmap list_fmap fst snd]. f_equal. apply IH.
Qed.

(** X11.  The loop forms of zip.hpp return what the recursive forms
    return: [loop::zip], [loop::unzip] (on pairs of one type, the only
    ones it has an instantiation for), [loop::zipWith] of two and of
    three arrays, whatever the callable and the lengths. *)
Theorem zip_loop_forms_agree {TA TB TC TR}
    (F : TA → TB → option TR) (F3 : TA → TB → TC → option TR)
    (A : list TA) (B : list TB) (C : list TC) (P : list (TA * TA)) :
  hops.loop.zip A B = hops.zip A B ∧
  hops.loop.unzip P = hops.unzip P ∧
  hops.loop.zipWith F A B = hops.zipWith F A B ∧
  hops.loop.zipWith3 F3 A B C = hops.zipWith3 F3 A B C.
Proof.
  split_and!.
  - unfold hops.zip. destruct (decide (length A = length B)) as [Hlen|Hlen].
    + by rewrite loop_zip_ok, XipHelper_zip_ok.
    + unfold hops.loop.zip. cbn zeta. by rewrite decide_False.
  - unfold hops.unzip. by rewrite loop_unzip_ok, XipHelper_unzip_ok.
  - unfold hops.zipWith.
    destruct (decide (length A = length B)) as [Hlen|Hlen].
    + by rewrite loop_zipWith_ok, XipHelper_zipWith_ok.
    + unfold hops.loop.zipWith. cbn zeta. by rewrite decide_False.
  - unfold hops.zipWith3.
    destruct (decide (length A = length B ∧ length A = length C))
      as [[HB HC]|Hlen].
    + by rewrite loop_zipWith3_ok, XipHelper_zipWith3_ok.
    + unfold hops.loop.zipWith3. cbn zeta. rewrite decide_False; [done|].
      intros [??]. apply Hlen. split; congruence.
Qed.

(** ** reduce.hpp: folds over arrays built by other primitives *)

Section reduce_more.
Context {TA TI : Type}.

Lemma lreduce_app (F : TI → TA → option TI) INIT (L R : list TA) :
  hops.lreduce F INIT (L ++ R)
  = acc ← hops.lreduce F INIT L; hops.lreduce F acc R.
Proof.
  revert INIT. induction L as [|h L IH]; intros INIT; [done|].
  cbn [app]. rewrite !lreduce_cons.
  destruct (F INIT h) as [acc|]; cbn [mbind option_bind]; [|done].
  apply IH.
Qed.

Lemma rreduce_app (F : TA → TI → option TI) INIT (L R : list TA) :
  hops.rreduce F (L ++ R) INIT
  = acc ← hops.rreduce F R INIT; hops.rreduce F L acc.
Proof.
  induction L as [|h L IH].
  - cbn [app]. by destruct (hops.rreduce F R INIT).
  - cbn [app]. rewrite rreduce_cons, IH.
    destruct (hops.rreduce F R INIT) as [acc|]; cbn [mbind option_bind];
      [|done].
    by rewrite rreduce_cons.
Qed.
End reduce_more.

(** X12.  A fold over [concatenate(L, R)] is the fold over one part
    continued over the other: [lreduce] folds [L] and then [R] from
    what [L] gave, [rreduce] folds [R] and then [L]; this holds also for
    callables that have no value somewhere. *)
Theorem reduce_concatenate {TA TI} (Fl : TI → TA → option TI)
    (Fr : TA → TI → option TI) (init : TI) (L R : list TA) :
  (c ← hops.concatenate L R; hops.lreduce Fl init c)
  = (acc ← hops.lreduce Fl init L; hops.lreduce Fl acc R) ∧
  (c ← hops.concatenate L R; hops.rreduce Fr c init)
  = (acc ← hops.rreduce Fr R init; hops.rreduce Fr L acc).
Proof.
  rewrite concatenate_ok. cbn [mbind option_bind].
  split; [apply lreduce_app|apply rreduce_app].
Qed.

(** *** examples/reduce/test.cpp *)

Section reduce_test_facts.
Import reduce_test.

Lemma lambdamin_min (L R : Z) : lambdamin L R = Some (Z.min L R).
Proof. unfold lambdamin. f_equal. case_bool_decide; lia. Qed.

Lemma lreduce_lambdamin (init : Z) (IN : list Z) :
  ∃ m, hops.lreduce lambdamin init IN = Some m ∧
       m ∈ init :: IN ∧ Forall (λ x, (m ≤ x)%Z) (init :: IN).
Proof.
  revert init. induction IN as [|x IN IH]; intros init.
  - exists init. split_and!; [done|by left|]. apply list.Forall_singleton. lia.
  - rewrite lreduce_cons, lambdamin_min. cbn [mbind option_bind].
    destruct (IH (Z.min init x)) as (m & -> & Hin & Hall).
    exists m. split; [done|].
    apply list.Forall_cons in Hall as [Hm Hall].
    split.
    + apply elem_of_cons in Hin as [->|Hin].
      * destruct (Z.min_spec init x) as [[_ ->]|[_ ->]];
          [by left|right; by left].
      * right. by right.
    + rewrite !list.Forall_cons. split_and!; [lia|lia|done].
Qed.

Lemma rreduce_lambdamin (init : Z) (IN : list Z) :
  ∃ m, hops.rreduce lambdamin IN init = Some m ∧
       m ∈ init :: IN ∧ Forall (λ x, (m ≤ x)%Z) (init :: IN).
Proof.
  induction IN as [|x IN IH].
  - exists init. split_and!; [done|by left|]. apply list.Forall_singleton. lia.
  - destruct IH as (m & Hm & Hin & Hall).
    rewrite rreduce_cons, Hm. cbn [mbind option_bind].
    rewrite lambdamin_min. exists (Z.min x m). split; [done|].
    apply list.Forall_cons in Hall as [Hmi Hall].
    split.
    + destruct (Z.min_spec x m) as [[_ ->]|[_ ->]]; [right; by left|].
      apply elem_of_cons in Hin as [->|Hin]; [by left|right; by right].
    + rewrite !list.Forall_cons. split_and!; [lia|lia|].
      eapply Forall_impl; [done|]. cbn. lia.
Qed.

Lemma least_unique (l : list Z) (m m' : Z) :
  m ∈ l → Forall (λ x, (m ≤ x)%Z) l →
  m' ∈ l → Forall (λ x, (m' ≤ x)%Z) l → m = m'.
Proof.
  rewrite !list.Forall_forall. intros Hin Hall Hin' Hall'.
  apply Hall in Hin'. apply Hall' in Hin. lia.
Qed.

(** X13.  On an array of [LIST_LENGTH] integers [minleft_hop_synth] and
    [minright_hop_synth] return the same value: the least of 1001 and
    the elements, so never more than 1001. *)
Theorem min_folds (IN : list Z) :
  length IN = LIST_LENGTH →
  ∃ m, minleft_hop_synth IN = Some m ∧ minright_hop_synth IN = Some m ∧
       m ∈ 1001%Z :: IN ∧ Forall (λ x, (m ≤ x)%Z) (1001%Z :: IN).
Proof.
  intros Hlen. unfold minleft_hop_synth, minright_hop_synth.
  rewrite !decide_True by done.
  destruct (lreduce_lambdamin 1001 IN) as (m & -> & Hin & Hall).
  destruct (rreduce_lambdamin 1001 IN) as (m' & -> & Hin' & Hall').
  exists m. split_and!; try done.
  f_equal. by eapply least_unique.
Qed.

Lemma min_folds_witness :
  let IN := [3; -7; 12; 0; 5; -7; 9; 1; 4; 4; -2; 8; 15; -1; 6; 2]%Z in
  minleft_hop_synth IN = Some (-7)%Z ∧ minright_hop_synth IN = Some (-7)%Z.
Proof.
  intros IN.
  destruct (min_folds IN) as (m & Hl & Hr & _); [reflexivity|].
  assert (m = (-7)%Z) as ->; [|done].
  vm_compute in Hl. congruence.
Defined.

Lemma rreduce_transform {TA TI} (F : TA → option TI) (IN : list TA) :
  hops.rreduce (hops.partial transform F) IN [] = mapM F IN.
Proof.
  induction IN as [|x IN IH]; [done|].
  rewrite rreduce_cons, IH. cbn [mapM].
  unfold hops.partial, transform.
  destruct (mapM F IN) as [r|]; cbn [mbind option_bind].
  - destruct (F x) as [y|]; cbn [mbind option_bind]; [|done].
    by rewrite prepend_ok.
  - by destruct (F x).
Qed.

(** X14.  [trans_hop_synth] returns the array of the products
    [MULTCONST * x], provided each of them is within the range of [int];
    in general the right fold with [transform] over the empty array is
    [map]. *)
Theorem trans_hop_synth_map (IN : list Z) :
  length IN = LIST_LENGTH →
  Forall (λ x, (- 2 ^ 31 ≤ MULTCONST * x < 2 ^ 31)%Z) IN →
  trans_hop_synth IN = Some ((λ x, (MULTCONST * x)%Z) <$> IN) ∧
  ∀ (TA TI : Type) (F : TA → option TI) (A : list TA),
    hops.rreduce (hops.partial transform F) A [] = hops.map F A.
Proof.
  intros Hlen Hall. split.
  - unfold trans_hop_synth. rewrite decide_True by done.
    cbn zeta. unfold hops.partial1. rewrite rreduce_transform.
    rewrite <- mapM_total. apply mapM_ext_in.
    intros x Hx. rewrite list.Forall_forall in Hall.
    unfold multiplies. cbn zeta. by rewrite decide_True by (by apply Hall).
  - intros. by rewrite rreduce_transform, map_ok.
Qed.

Lemma trans_hop_synth_map_witness :
  let IN := [3; -7; 12; 0; 5; -7; 9; 1; 4; 4; -2; 8; 15; -1; 6; 2]%Z in
  trans_hop_synth IN
  = Some [105; -245; 420; 0; 175; -245; 315; 35; 140; 140; -70; 280; 525;
          -35; 210; 70]%Z.
Proof.
  intros IN. apply (trans_hop_synth_map IN); [reflexivity|].
  unfold IN, MULTCONST. repeat (apply list.Forall_cons; split; [lia|]).
  apply list.Forall_nil_2.
Defined.

Lemma lreduce_flip_prepend {T} (acc IN : list T) :
  hops.lreduce (hops.flip hops.prepend) acc IN = Some (reverse IN ++ acc).
Proof.
  revert acc. induction IN as [|x IN IH]; intros acc; [done|].
  rewrite lreduce_cons.
  change (hops.flip hops.prepend acc x) with (hops.prepend x acc).
  rewrite prepend_ok.
  cbn [mbind option_bind]. rewrite IH, reverse_cons, <- (assoc_L (++)). done.
Qed.

(** X15.  The left fold with the flipped [prepend] over the empty array
    is [reverse]; [reverse_hop_synth], which is this fold, and
    [reverse_loop_synth] return the same array, the reversed input, on
    [LIST_LENGTH] elements. *)
Theorem reverse_folds {T} (IN : list T) :
  hops.lreduce (hops.flip hops.prepend) [] IN = hops.reverse IN ∧
  reverse_hop_synth IN = reverse_loop_synth IN ∧
  reverse_hop_synth IN
  = if decide (length IN = LIST_LENGTH) then hops.reverse IN else None.
Proof.
  assert (H : hops.lreduce (hops.flip hops.prepend) [] IN = hops.reverse IN).
  { by rewrite lreduce_flip_prepend, reverse_ok, app_nil_r. }
  unfold reverse_hop_synth, reverse_loop_synth.
  destruct (decide (length IN = LIST_LENGTH)) as [Hlen|Hlen]; [|done].
  cbn zeta. rewrite H. split; [done|]. split; [|done].
  unfold hops.reverse. cbn zeta. rewrite Hlen. f_equal.
Qed.
End reduce_test_facts.

(** *** Interleaving *)

Section interleave_facts.
Import bitrev_model.
Context {T : Type}.
Implicit Types (L R : list T).

Lemma length_interleave_list L R :
  length L = length R → length (interleave_list L R) = 2 * length L.
Proof.
  revert R. induction L as [|l L IH]; intros [|r R] Hlen; try done.
  cbn [interleave_list length]. rewrite IH by (simpl in Hlen; lia). lia.
Qed.

Lemma lookup_interleave_list L R i :
  length L = length R →
  interleave_list L R !! (2 * i) = L !! i ∧
  interleave_list L R !! (2 * i + 1) = R !! i.
Proof.
  revert R i. induction L as [|l L IH]; intros [|r R] i Hlen; try done.
  destruct i as [|i]; [done|].
  replace (2 * S i) with (S (S (2 * i))) by lia.
  cbn [interleave_list lookup list_lookup plus].
  apply IH. simpl in Hlen. lia.
Qed.

Lemma interleave_list_snoc L R l r :
  length L = length R →
  interleave_list (L ++ [l]) (R ++ [r]) = interleave_list L R ++ [l; r].
Proof.
  revert R. induction L as [|l' L IH]; intros [|r' R] Hlen; try done.
  cbn [app interleave_list]. rewrite IH by (simpl in Hlen; lia). done.
Qed.

Lemma concat_construct L R :
  concat (zip_with (λ l r, [l; r]) L R) = interleave_list L R.
Proof.
  revert R. induction L as [|l L IH]; intros [|r R]; try done.
  cbn [zip_with concat interleave_list app]. by rewrite IH.
Qed.

Lemma rreduce_concatenate (X : list (list T)) :
  hops.rreduce hops.concatenate X [] = Some (concat X).
Proof.
  induction X as [|x X IH]; [done|].
  rewrite rreduce_cons, IH. cbn [mbind option_bind].
  by rewrite concatenate_ok.
Qed.

Lemma lreduce_concatenate (acc : list T) (X : list (list T)) :
  hops.lreduce hops.concatenate acc X = Some (acc ++ concat X).
Proof.
  revert acc. induction X as [|x X IH]; intros acc.
  - cbn [concat]. by rewrite app_nil_r.
  - rewrite lreduce_cons, concatenate_ok. cbn [mbind option_bind].
    rewrite IH. cbn [concat]. by rewrite (assoc_L (++)).
Qed.

Lemma loop_zipWith_zipWith {TA TB TR} (F : TA → TB → option TR)
    (A : list TA) (B : list TB) :
  hops.loop.zipWith F A B = hops.zipWith F A B.
Proof.
  unfold hops.zipWith.
  destruct (decide (length A = length B)) as [Hlen|Hlen].
  - by rewrite loop_zipWith_ok, XipHelper_zipWith_ok.
  - unfold hops.loop.zipWith. cbn zeta. by rewrite decide_False.
Qed.

Lemma zipWith_construct L R :
  length L = length R →
  hops.zipWith hops.construct L R = Some (zip_with (λ l r, [l; r]) L R).
Proof. intros. by apply zipWith_total. Qed.

Lemma bitonic_Interleave_ok L R :
  length L = length R →
  bitonic.Interleave L R = Some (interleave_list L R).
Proof.
  intros Hlen. unfold bitonic.Interleave. rewrite decide_True by done.
  cbn zeta. rewrite zipWith_construct by done. cbn [mbind option_bind].
  by rewrite rreduce_concatenate, concat_construct.
Qed.

Lemma divconq_test_Interleave_ok L R :
  length L = length R →
  divconq_test.Interleave L R = Some (interleave_list L R).
Proof.
  intros Hlen. unfold divconq_test.Interleave. rewrite decide_True by done.
  cbn zeta. rewrite loop_zipWith_zipWith, zipWith_construct by done.
  cbn [mbind option_bind].
  by rewrite lreduce_concatenate, concat_construct.
Qed.

Lemma _interleave_ok L R :
  length L = length R →
  reduce_test._interleave L R = Some (interleave_list L R).
Proof.
  intros Hlen. unfold reduce_test._interleave. cbn zeta.
  rewrite decide_True by done. unfold for_loop. rewrite Nat.sub_0_r.
  set (body := λ (i : nat) (out : list (option T)),
         l ← L !! i;
         out ← store out (2 * i) l;
         r ← R !! i;
         store out (2 * i + 1) r).
  assert (H : ∀ k, k ≤ length L →
            for_iter k 0 body (uninit (2 * length L))
            = Some ((Some <$> interleave_list (take k L) (take k R))
                    ++ replicate (2 * length L - 2 * k) None)).
  { induction k as [|k IH]; intros Hk.
    - cbn [for_iter]. rewrite !take_0. cbn [interleave_list fmap list_fmap app].
      by rewrite Nat.sub_0_r.
    - rewrite for_iter_snoc, IH by lia. cbn [mbind option_bind].
      rewrite Nat.add_0_l. subst body. cbn beta.
      destruct (lookup_lt_is_Some_2 L k) as [l Hl]; [lia|].
      destruct (lookup_lt_is_Some_2 R k) as [r Hr]; [lia|].
      rewrite Hl, Hr. cbn [mbind option_bind].
      assert (Htk : length (take k L) = length (take k R))
        by (rewrite !length_take; lia).
      assert (Hlk : length (interleave_list (take k L) (take k R)) = 2 * k).
      { rewrite length_interleave_list by done. rewrite length_take. lia. }
      pose proof (store_prefix (interleave_list (take k L) (take k R))
                    (2 * length L) l) as H1.
      rewrite Hlk in H1. rewrite H1 by lia. cbn [mbind option_bind].
      pose proof (store_prefix (interleave_list (take k L) (take k R) ++ [l])
                    (2 * length L) r) as H2.
      rewrite !length_app, Hlk in H2. cbn [length] in H2.
      rewrite length_app, Hlk. cbn [length].
      rewrite H2 by lia. f_equal.
      rewrite (take_S_r L k l), (take_S_r R k r) by done.
      rewrite interleave_list_snoc by done.
      rewrite <- (assoc_L (++)). cbn [app].
      do 2 f_equal. lia. }
  rewrite H by done. cbn [mbind option_bind].
  rewrite Nat.sub_diag, app_nil_r.
  rewrite take_ge, (take_ge R) by lia. apply freeze_Some.
Qed.
End interleave_facts.

(** X16.  The three interleavings, [Interleave] of bitonic.hpp and
    fft.hpp (right fold of [concatenate] over [zipWith(construct, L, R)]),
    [Interleave] of the divconq test (left fold over the loop form of
    [zipWith]) and the loop [_interleave], return the same array of
    twice the length: element [2 * i] is [L[i]] and element [2 * i + 1]
    is [R[i]]. *)
Theorem interleave_forms_agree {T} (L R : list T) :
  length L = length R →
  ∃ OUT, bitonic.Interleave L R = Some OUT ∧
         divconq_test.Interleave L R = Some OUT ∧
         reduce_test._interleave L R = Some OUT ∧
         length OUT = 2 * length L ∧
         ∀ i, OUT !! (2 * i) = L !! i ∧ OUT !! (2 * i + 1) = R !! i.
Proof.
  intros Hlen. exists (bitrev_model.interleave_list L R).
  rewrite bitonic_Interleave_ok, divconq_test_Interleave_ok, _interleave_ok
    by done.
  split_and!; try done.
  - by apply length_interleave_list.
  - intros i. by apply lookup_interleave_list.
Qed.

Lemma interleave_forms_agree_witness :
  bitonic.Interleave [1; 2; 3] [4; 5; 6] = Some [1; 4; 2; 5; 3; 6] ∧
  divconq_test.Interleave [1; 2; 3] [4; 5; 6] = Some [1; 4; 2; 5; 3; 6] ∧
  reduce_test._interleave [1; 2; 3] [4; 5; 6] = Some [1; 4; 2; 5; 3; 6].
Proof.
  destruct (interleave_forms_agree [1; 2; 3] [4; 5; 6])
    as (OUT & H1 & H2 & H3 & _); [reflexivity|].
  assert (OUT = [1; 4; 2; 5; 3; 6]) as ->; [|done].
  vm_compute in H1. congruence.
Defined.

(** X17.  On two arrays of [LIST_LENGTH] elements
    [interleave_hop_synth] and [interleave_loop_synth] return the same
    array, with [L[i]] at [2 * i] and [R[i]] at [2 * i + 1]. *)
Theorem interleave_synth_agree (L R : list N) :
  length L = reduce_test.LIST_LENGTH → length R = reduce_test.LIST_LENGTH →
  ∃ OUT, reduce_test.interleave_hop_synth L R = Some OUT ∧
         reduce_test.interleave_loop_synth L R = Some OUT ∧
         length OUT = 2 * reduce_test.LIST_LENGTH ∧
         ∀ i, OUT !! (2 * i) = L !! i ∧ OUT !! (2 * i + 1) = R !! i.
Proof.
  intros HL HR. exists (bitrev_model.interleave_list L R).
  unfold reduce_test.interleave_hop_synth, reduce_test.interleave_loop_synth.
  rewrite !decide_True by done. cbn zeta.
  rewrite zipWith_construct, _interleave_ok by congruence.
  cbn [mbind option_bind]. rewrite rreduce_concatenate, concat_construct.
  split_and!; try done.
  - rewrite length_interleave_list by congruence. by rewrite HL.
  - intros i. apply lookup_interleave_list. congruence.
Qed.

Lemma interleave_synth_agree_witness :
  let L := N.of_nat <$> seq 0 16 in
  let R := N.of_nat <$> seq 16 16 in
  ∃ OUT, reduce_test.interleave_hop_synth L R = Some OUT ∧
         reduce_test.interleave_loop_synth L R = Some OUT ∧
         length OUT = 2 * reduce_test.LIST_LENGTH ∧
         ∀ i, OUT !! (2 * i) = L !! i ∧ OUT !! (2 * i + 1) = R !! i.
Proof.
  intros L R. apply (interleave_synth_agree L R); reflexivity.
Defined.


(** ** Bit reversal *)

Section bitrev_facts.
Import bitrev_model.

Lemma testbit_high (a W k : N) :
  (a < 2 ^ W)%N → (W ≤ k)%N → N.testbit a k = false.
Proof.
  intros Ha Hk. destruct (decide (a = 0%N)) as [->|]; [apply N.bits_0|].
  apply N.bits_above_log2.
  assert (N.log2 a < W)%N by (apply N.log2_lt_pow2; lia). lia.
Qed.

Lemma testbit_add_pow2 (b W r k : N) :
  (b < 2)%N → (r < 2 ^ W)%N →
  N.testbit (b * 2 ^ W + r) k
  = if decide (k = W) then (b =? 1)%N else N.testbit r k.
Proof.
  intros Hb Hr. assert (b = 0 ∨ b = 1)%N as [->| ->] by lia.
  - rewrite N.mul_0_l, N.add_0_l. case_decide as Hk; [|done].
    subst k. by apply (testbit_high r W).
  - rewrite N.mul_1_l, <- lor_pow2_low by done.
    rewrite N.lor_spec, N.pow2_bits_eqb.
    case_decide as Hk.
    + subst k. by rewrite N.eqb_refl.
    + destruct (N.eqb_spec W k); [congruence|done].
Qed.

Lemma bitrev_lt (W : nat) (t : N) : (bitrev W t < 2 ^ N.of_nat W)%N.
Proof.
  revert t. induction W as [|W IH]; intros t; [done|].
  cbn [bitrev]. rewrite Nat2N.inj_succ, N.pow_succ_r'.
  specialize (IH (t / 2)%N).
  assert (t mod 2 < 2)%N by (apply N.mod_lt; lia).
  nia.
Qed.

Lemma bitrev_testbit (W : nat) (t k : N) :
  (k < N.of_nat W)%N →
  N.testbit (bitrev W t) k = N.testbit t (N.of_nat W - 1 - k).
Proof.
  revert t k. induction W as [|W IH]; intros t k Hk; [lia|].
  cbn [bitrev]. rewrite Nat2N.inj_succ.
  rewrite testbit_add_pow2
    by (apply bitrev_lt || (apply N.mod_lt; lia)).
  case_decide as Hkw.
  - subst k. replace (N.succ (N.of_nat W) - 1 - N.of_nat W)%N with 0%N by lia.
    by rewrite N.bit0_eqb.
  - rewrite IH by lia. rewrite N.div2_bits. f_equal. lia.
Qed.

Lemma bitrev_involutive (W : nat) (t : N) :
  (t < 2 ^ N.of_nat W)%N → bitrev W (bitrev W t) = t.
Proof.
  intros Ht. apply N.bits_inj. intros k.
  destruct (decide (k < N.of_nat W)%N) as [Hk|Hk].
  - rewrite !bitrev_testbit by lia. f_equal. lia.
  - rewrite (testbit_high _ (N.of_nat W)) by (apply bitrev_lt || lia).
    by rewrite (testbit_high t (N.of_nat W)) by lia.
Qed.

(** The loop computes the reversal, as long as the shifts do not wrap. *)
Lemma bitrev_loop_from (wrap : N → N) (M : N) (W s : nat) (b t : N) :
  (∀ x, (x < M)%N → wrap x = x) →
  ((b + 1) * 2 ^ N.of_nat W ≤ M)%N →
  foldl (λ b j, N.lor (wrap (N.shiftl b 1))
                      (N.land (N.shiftr t (N.of_nat j)) 1)) b (seq s W)
  = (b * 2 ^ N.of_nat W + bitrev W (N.shiftr t (N.of_nat s)))%N.
Proof.
  intros Hwrap. revert s b. induction W as [|W IH]; intros s b HM.
  - cbn [seq foldl bitrev]. change (2 ^ N.of_nat 0)%N with 1%N. lia.
  - cbn [seq foldl bitrev].
    rewrite Nat2N.inj_succ, N.pow_succ_r' in HM.
    assert (Hpos : (0 < 2 ^ N.of_nat W)%N)
      by (apply N.neq_0_lt_0, N.pow_nonzero; lia).
    rewrite N.shiftl_mul_pow2, N.pow_1_r.
    rewrite Hwrap by nia.
    pose proof (N.land_ones (N.shiftr t (N.of_nat s)) 1) as Hl.
    change (N.ones 1) with 1%N in Hl. rewrite Hl, N.pow_1_r. clear Hl.
    set (bit := (N.shiftr t (N.of_nat s) mod 2)%N).
    assert (Hbit : (bit < 2)%N) by (apply N.mod_lt; lia).
    assert (Hlor : N.lor (b * 2) bit = (b * 2 + bit)%N).
    { rewrite <- N.lxor_lor, <- N.add_nocarry_lxor; [done| |].
      all: apply N.bits_inj_0; intros n; rewrite N.land_spec.
      all: destruct n as [|p] using N.peano_ind.
      all: try (rewrite N.mul_comm, N.testbit_even_0; done).
      all: rewrite (testbit_high bit 1) by lia; apply andb_false_r. }
    rewrite Hlor, IH by nia.
    rewrite (Nat2N.inj_succ W), N.pow_succ_r' by lia.
    rewrite (Nat2N.inj_succ s), <- N.add_1_r, <- N.shiftr_shiftr.
    rewrite (N.shiftr_div_pow2 _ 1), N.pow_1_r. lia.
Qed.

Lemma bitrev_loop_id (W : nat) (t : N) :
  foldl (λ b j, N.lor (N.shiftl b 1) (N.land (N.shiftr t (N.of_nat j)) 1))
        0%N (seq 0 W)
  = bitrev W t.
Proof.
  pose proof (bitrev_loop_from id (2 ^ N.of_nat W) W 0 0 t) as H.
  cbn [id] in H. rewrite H; [|done|lia].
  by rewrite N.mul_0_l, N.add_0_l, N.shiftr_0_r.
Qed.

Lemma bitrev_loop_wrap (W : nat) (t : N) :
  W ≤ 32 →
  foldl (λ b j, N.lor (N.shiftl b 1 mod 2 ^ 32)
                      (N.land (N.shiftr t (N.of_nat j)) 1))
        0%N (seq 0 W)
  = bitrev W t.
Proof.
  intros HW.
  pose proof (bitrev_loop_from (λ x, x mod 2 ^ 32)%N (2 ^ 32) W 0 0 t) as H.
  cbn beta in H. rewrite H.
  - by rewrite N.mul_0_l, N.add_0_l, N.shiftr_0_r.
  - intros x Hx. by apply N.mod_small.
  - rewrite N.add_0_l, N.mul_1_l. apply N.pow_le_mono_r; lia.
Qed.
End bitrev_facts.

(** ** divconq.hpp and the bit reversals built on it *)

Section bitrev_list_facts.
Import bitrev_model.
Context {T : Type}.
Implicit Types (IN : list T).

Lemma length_bitrev_list (LEV : nat) IN :
  length IN = 2 ^ LEV → length (bitrev_list LEV IN) = 2 ^ LEV.
Proof.
  revert IN. induction LEV as [|LEV IH]; intros IN Hlen; [done|].
  cbn [bitrev_list]. rewrite Nat.pow_succ_r' in Hlen |- *.
  assert (Hl : length (take (2 ^ LEV) IN) = 2 ^ LEV)
    by (rewrite length_take; lia).
  assert (Hr : length (drop (2 ^ LEV) IN) = 2 ^ LEV)
    by (rewrite length_drop; lia).
  rewrite length_interleave_list by (by rewrite !IH).
  rewrite IH by done. lia.
Qed.

Lemma lookup_bitrev_list (LEV : nat) IN (t : nat) :
  length IN = 2 ^ LEV → t < 2 ^ LEV →
  bitrev_list LEV IN !! t = IN !! N.to_nat (bitrev LEV (N.of_nat t)).
Proof.
  revert IN t. induction LEV as [|LEV IH]; intros IN t Hlen Ht.
  - cbn in Ht. by replace t with 0 by lia.
  - cbn [bitrev_list bitrev]. rewrite Nat.pow_succ_r' in Hlen, Ht.
    assert (Hl : length (take (2 ^ LEV) IN) = 2 ^ LEV)
      by (rewrite length_take; lia).
    assert (Hr : length (drop (2 ^ LEV) IN) = 2 ^ LEV)
      by (rewrite length_drop; lia).
    pose proof (Nat.div_mod_eq t 2) as Ht2.
    pose proof (Nat.mod_upper_bound t 2) as Hm.
    assert (Hpow : N.to_nat (2 ^ N.of_nat LEV) = 2 ^ LEV).
    { rewrite <- (Nat2N.id (2 ^ LEV)). f_equal.
      by rewrite Nat2N.inj_pow. }
    pose proof (bitrev_lt LEV (N.of_nat t / 2)) as Hb.
    assert (Hdiv : (N.of_nat t / 2)%N = N.of_nat (t / 2))
      by (by rewrite Nat2N.inj_div).
    assert (Hmod : (N.of_nat t mod 2)%N = N.of_nat (t mod 2))
      by (by rewrite Nat2N.inj_mod).
    rewrite Hdiv in *. rewrite Hmod.
    destruct (lookup_interleave_list
                (bitrev_list LEV (take (2 ^ LEV) IN))
                (bitrev_list LEV (drop (2 ^ LEV) IN)) (t / 2)) as [H0 H1].
    { by rewrite !length_bitrev_list. }
    assert (t mod 2 = 0 ∨ t mod 2 = 1) as [Hz|Hz] by lia.
    + rewrite Hz in *. replace t with (2 * (t / 2)) at 1 by lia.
      rewrite H0, IH by (done || lia).
      rewrite lookup_take_lt by lia. done.
    + rewrite Hz in *. replace t with (2 * (t / 2) + 1) at 1 by lia.
      rewrite H1, IH by (done || lia).
      rewrite lookup_drop. f_equal. lia.
Qed.
End bitrev_list_facts.

Lemma shiftl_1_of_nat (LEV : nat) :
  N.shiftl 1 (N.of_nat LEV) = N.of_nat (2 ^ LEV).
Proof. by rewrite N.shiftl_1_l, Nat2N.inj_pow. Qed.

Section divconq_interleave.
Import bitrev_model.
Context {T : Type}.
Context (G : list T → list T → option (list T)).
Hypothesis HG :
  ∀ L R, length L = length R → G L R = Some (interleave_list L R).

Lemma DivconqHelper_interleave (LEV : nat) (IN : list T) :
  length IN = 2 ^ S LEV →
  hops.DivconqHelper (S LEV) (hops.Callable G G) IN
  = Some (bitrev_list (S LEV) IN).
Proof.
  revert IN. induction LEV as [|LEV IH]; intros IN Hlen.
  - rewrite DivconqHelper_1, decide_True
      by (rewrite shiftl_1_of_nat; by f_equal).
    rewrite split_ok. cbn [mbind option_bind fst snd hops.on_arrays].
    change (N.to_nat 1) with 1.
    rewrite HG; [done|]. rewrite length_take, length_drop.
    cbn in Hlen. lia.
  - rewrite DivconqHelper_SS, decide_True
      by (rewrite shiftl_1_of_nat; by f_equal).
    rewrite split_ok. cbn [mbind option_bind fst snd].
    rewrite shiftl_1_of_nat, Nat2N.id.
    rewrite (Nat.pow_succ_r' 2 (S LEV)) in Hlen.
    assert (Hl : length (take (2 ^ S LEV) IN) = 2 ^ S LEV)
      by (rewrite length_take; lia).
    assert (Hr : length (drop (2 ^ S LEV) IN) = 2 ^ S LEV)
      by (rewrite length_drop; lia).
    rewrite !IH by done. cbn [mbind option_bind hops.on_results].
    rewrite HG; [done|]. by rewrite !length_bitrev_list.
Qed.
End divconq_interleave.

Lemma clog2_pow2 (k : nat) :
  1 ≤ k ≤ 30 → hops.clog2 (N.of_nat (2 ^ k)) = N.of_nat k.
Proof.
  intros Hk. rewrite Nat2N.inj_pow. change (N.of_nat 2) with 2%N.
  assert (H2k : (2 ≤ 2 ^ N.of_nat k < size_t_modulus)%N).
  { split.
    - change 2%N with (2 ^ 1)%N at 1. apply N.pow_le_mono_r; lia.
    - apply N.pow_lt_mono_r; lia. }
  destruct (log2_bounds _ H2k) as (Hr & Hlow & Hupp).
  unfold hops.clog2.
  set (r := hops.log2 (2 ^ N.of_nat k)) in *. clearbody r.
  assert (r = N.of_nat k) as ->.
  { destruct (N.lt_trichotomy r (N.of_nat k)) as [Hlt|[->|Hgt]]; [|done|].
    + assert (2 * 2 ^ r ≤ 2 ^ N.of_nat k)%N; [|lia].
      rewrite <- N.pow_succ_r'. apply N.pow_le_mono_r; lia.
    + assert (2 * 2 ^ N.of_nat k ≤ 2 ^ r)%N; [|lia].
      rewrite <- N.pow_succ_r'. apply N.pow_le_mono_r; lia. }
  rewrite N.shiftl_1_l, N.ltb_irrefl. lia.
Qed.

Lemma divconq_pow2 {T R} (F : hops.callable T R) (IN : list T) (k : nat) :
  1 ≤ k ≤ 30 → length IN = 2 ^ k →
  hops.divconq F IN = hops.DivconqHelper k F IN.
Proof.
  intros Hk Hlen. unfold hops.divconq.
  by rewrite Hlen, clog2_pow2, Nat2N.id.
Qed.

(** *** Loops that assign the elements of a known array in any order *)

Section masked.
Import bitrev_model.
Context {T : Type}.

Lemma masked_none (tgt : list T) :
  masked (replicate (length tgt) false) tgt = uninit (length tgt).
Proof.
  unfold masked, uninit. induction tgt as [|x tgt IH]; [done|].
  cbn [length replicate zip_with]. by rewrite IH.
Qed.

Lemma masked_all (mask : list bool) (tgt : list T) :
  length mask = length tgt → (∀ v, v < length tgt → mask !! v = Some true) →
  masked mask tgt = Some <$> tgt.
Proof.
  intros Hlen Hall. apply list_eq. intros i. unfold masked.
  rewrite lookup_zip_with, list_lookup_fmap.
  destruct (tgt !! i) as [x|] eqn:E.
  - rewrite Hall by (by eapply lookup_lt_Some). done.
  - by destruct (mask !! i).
Qed.

Lemma store_masked (mask : list bool) (tgt : list T) (u : nat) (x : T) :
  length mask = length tgt → tgt !! u = Some x →
  store (masked mask tgt) u x = Some (masked (<[u := true]> mask) tgt).
Proof.
  intros Hlen Hu. pose proof (lookup_lt_Some _ _ _ Hu) as Hlt.
  rewrite store_Some
    by (unfold masked; rewrite length_zip_with; lia).
  f_equal. apply list_eq. intros i. unfold masked.
  destruct (decide (i = u)) as [->|Hne].
  - rewrite list_lookup_insert_eq
      by (rewrite length_zip_with; lia).
    rewrite lookup_zip_with, list_lookup_insert_eq, Hu by lia. done.
  - rewrite list_lookup_insert_ne by done.
    by rewrite !lookup_zip_with, list_lookup_insert_ne.
Qed.
End masked.

Section bitreverse_facts.
Import bitrev_model.
Context {T : Type}.
Implicit Types (IN : list T).

Lemma to_nat_bitrev_lt (k t : nat) :
  N.to_nat (bitrev k (N.of_nat t)) < 2 ^ k.
Proof.
  pose proof (bitrev_lt k (N.of_nat t)) as H.
  assert (N.of_nat (2 ^ k) = (2 ^ N.of_nat k)%N) by (by rewrite Nat2N.inj_pow).
  lia.
Qed.

Lemma bitrev_involutive_nat (k t : nat) :
  t < 2 ^ k →
  N.to_nat (bitrev k (N.of_nat (N.to_nat (bitrev k (N.of_nat t))))) = t.
Proof.
  intros Ht. rewrite N2Nat.id, bitrev_involutive; [lia|].
  assert (N.of_nat (2 ^ k) = (2 ^ N.of_nat k)%N) by (by rewrite Nat2N.inj_pow).
  lia.
Qed.

Lemma bitonic_bitreverse_ok (k : nat) IN :
  1 ≤ k ≤ 30 → length IN = 2 ^ k →
  bitonic.bitreverse IN = Some (bitrev_list k IN).
Proof.
  intros Hk Hlen. unfold bitonic.bitreverse.
  rewrite (divconq_pow2 _ _ k) by done.
  destruct k as [|k]; [lia|].
  apply DivconqHelper_interleave; [|done].
  apply bitonic_Interleave_ok.
Qed.

Lemma bitonic_loop_bitreverse_ok (k : nat) IN :
  1 ≤ k ≤ 30 → length IN = 2 ^ k →
  bitonic.loop.bitreverse IN = Some (bitrev_list k IN).
Proof.
  intros Hk Hlen. unfold bitonic.loop.bitreverse. cbn zeta.
  assert (HLEV : N.to_nat (hops.log2 (N.of_nat (length IN))) = k).
  { rewrite Hlen, Nat2N.inj_pow. change (N.of_nat 2) with 2%N.
    rewrite log2_pow2 by lia. lia. }
  rewrite HLEV.
  set (tgt := bitrev_list k IN).
  assert (Htl : length tgt = length IN)
    by (subst tgt; rewrite length_bitrev_list; done).
  assert (Htgt : ∀ t, t < 2 ^ k →
            tgt !! t = IN !! N.to_nat (bitrev k (N.of_nat t)))
    by (intros; by apply lookup_bitrev_list).
  unfold for_loop. rewrite Nat.sub_0_r.
  set (body := λ (t : nat) (out : list (option T)), _).
  assert (H : ∀ n, n ≤ length IN →
            ∃ mask, length mask = length IN ∧
                    (∀ v, v < n → mask !! v = Some true) ∧
                    for_iter n 0 body (uninit (length IN))
                    = Some (masked mask tgt)).
  { induction n as [|n IH]; intros Hn.
    - exists (replicate (length IN) false).
      rewrite length_replicate. split_and!; [done|lia|].
      cbn [for_iter]. by rewrite <- Htl, masked_none.
    - destruct IH as (mask & Hml & Hmask & Hiter); [lia|].
      rewrite for_iter_snoc, Hiter. cbn [mbind option_bind].
      rewrite Nat.add_0_l. subst body. cbn beta zeta.
      rewrite bitrev_loop_wrap by lia.
      set (b := N.to_nat (bitrev k (N.of_nat n))).
      assert (Hb : b < 2 ^ k) by apply to_nat_bitrev_lt.
      destruct (lookup_lt_is_Some_2 IN b) as [x Hx]; [lia|].
      destruct (lookup_lt_is_Some_2 IN n) as [y Hy]; [lia|].
      rewrite Hx. cbn [mbind option_bind].
      rewrite (store_masked mask tgt n x);
        [|lia|by rewrite Htgt by lia]. cbn [mbind option_bind].
      rewrite Hy. cbn [mbind option_bind].
      rewrite (store_masked _ tgt b y); cycle 1.
      { rewrite length_insert. lia. }
      { rewrite Htgt by lia. subst b. rewrite bitrev_involutive_nat by lia.
        done. }
      eexists. split_and!; [|..|done].
      + rewrite !length_insert. lia.
      + intros v Hv. destruct (decide (v = b)) as [->|Hvb].
        { apply list_lookup_insert_eq. rewrite length_insert. lia. }
        rewrite list_lookup_insert_ne by done.
        destruct (decide (v = n)) as [->|Hvn].
        { apply list_lookup_insert_eq. lia. }
        rewrite list_lookup_insert_ne by done. apply Hmask. lia. }
  destruct (H (length IN)) as (mask & Hml & Hmask & ->); [done|].
  cbn [mbind option_bind].
  rewrite masked_all by (rewrite Htl; done). apply freeze_Some.
Qed.
End bitreverse_facts.

Lemma bitrev_list_involutive {T} (k : nat) (IN : list T) :
  length IN = 2 ^ k →
  bitrev_model.bitrev_list k (bitrev_model.bitrev_list k IN) = IN.
Proof.
  intros Hlen. apply list_eq. intros t.
  destruct (decide (t < 2 ^ k)) as [Ht|Ht].
  - rewrite lookup_bitrev_list by (by rewrite ?length_bitrev_list).
    rewrite lookup_bitrev_list by (done || apply to_nat_bitrev_lt).
    by rewrite bitrev_involutive_nat.
  - rewrite !lookup_ge_None_2; [done|lia|].
    rewrite !length_bitrev_list by (by rewrite ?length_bitrev_list). lia.
Qed.

(** X18.  On an array of [2^k] elements, [1 <= k <= 30], the
    divide-and-conquer [Bitreverse] of bitonic.hpp and fft.hpp and the
    loop [loop::bitreverse] return the same array: its element [t] is the
    element of the input whose index has the [k] low bits of [t] in
    reverse order.  Reversing twice gives the input back. *)
Theorem bitreverse_forms_agree {T} (k : nat) (IN : list T) :
  1 ≤ k ≤ 30 → length IN = 2 ^ k →
  ∃ OUT, bitonic.bitreverse IN = Some OUT ∧
         bitonic.loop.bitreverse IN = Some OUT ∧
         length OUT = length IN ∧
         (∀ t, t < length IN →
               OUT !! t
               = IN !! N.to_nat (bitrev_model.bitrev k (N.of_nat t))) ∧
         bitonic.bitreverse OUT = Some IN ∧
         ∀ t j, (j < N.of_nat k)%N →
                (bitrev_model.bitrev k t < 2 ^ N.of_nat k)%N ∧
                N.testbit (bitrev_model.bitrev k t) j
                = N.testbit t (N.of_nat k - 1 - j).
Proof.
  intros Hk Hlen. exists (bitrev_model.bitrev_list k IN).
  rewrite (bitonic_bitreverse_ok k), (bitonic_loop_bitreverse_ok k) by done.
  rewrite (bitonic_bitreverse_ok k)
    by (done || by rewrite length_bitrev_list).
  rewrite bitrev_list_involutive, length_bitrev_list by done.
  split_and!; try done.
  - intros t Ht. apply lookup_bitrev_list; [done|lia].
  - intros t j Hj. split; [apply bitrev_lt|by apply bitrev_testbit].
Qed.

Lemma bitreverse_forms_agree_witness :
  bitonic.bitreverse [0; 1; 2; 3; 4; 5; 6; 7]
    = Some [0; 4; 2; 6; 1; 5; 3; 7] ∧
  bitonic.loop.bitreverse [0; 1; 2; 3; 4; 5; 6; 7]
    = Some [0; 4; 2; 6; 1; 5; 3; 7].
Proof.
  destruct (bitreverse_forms_agree 3 [0; 1; 2; 3; 4; 5; 6; 7])
    as (OUT & H1 & H2 & _); [lia|reflexivity|].
  assert (OUT = [0; 4; 2; 6; 1; 5; 3; 7]) as ->; [|done].
  vm_compute in H1. congruence.
Defined.

Section divconq_test_facts.
Import bitrev_model divconq_test.

Lemma bitreverse_BITS_16 (t : N) : bitreverse_BITS 16 t = bitrev 4 t.
Proof. unfold bitreverse_BITS. apply (bitrev_loop_id 4). Qed.

Lemma mapM_seq_Some {A} (src : nat → option A) (l : list A) :
  (∀ i, i < length l → src i = l !! i) →
  mapM src (seq 0 (length l)) = Some l.
Proof.
  intros H. rewrite <- (mapM_Some_id l), <- (mapM_seq_lookup Some l).
  apply mapM_ext_in. intros i Hi%elem_of_seq.
  rewrite H by lia. by destruct (l !! i).
Qed.

Lemma divconq_test_bitreverse_16 {T} (IN : list T) :
  length IN = LIST_LENGTH → bitreverse IN = Some (bitrev_list 4 IN).
Proof.
  intros Hlen. unfold bitreverse. cbn zeta. rewrite Hlen.
  rewrite (fill_loop (λ t, IN !! N.to_nat
             (bitreverse_BITS (N.of_nat LIST_LENGTH) (N.of_nat t)
              mod 2 ^ 32)%N) LIST_LENGTH).
  assert (Hl : length (bitrev_list 4 IN) = LIST_LENGTH)
    by (by apply (length_bitrev_list 4)).
  rewrite <- Hl at 1. apply mapM_seq_Some. rewrite Hl.
  intros i Hi. rewrite (lookup_bitrev_list 4) by done.
  change (N.of_nat LIST_LENGTH) with 16%N. rewrite bitreverse_BITS_16.
  rewrite N.mod_small; [done|].
  pose proof (bitrev_lt 4 (N.of_nat i)). change (2 ^ N.of_nat 4)%N with 16%N in *.
  lia.
Qed.
End divconq_test_facts.

Lemma for_iter_invariant {St} (P : St → Prop) n lo
    (body : nat → St → option St) s s' :
  (∀ i s s', lo ≤ i < lo + n → P s → body i s = Some s' → P s') →
  P s → for_iter n lo body s = Some s' → P s'.
Proof.
  revert lo s. induction n as [|n IH]; intros lo s Hb Hs H.
  - cbn in H. by simplify_eq.
  - cbn [for_iter] in H. destruct (body lo s) as [s1|] eqn:E; [|done].
    cbn [mbind option_bind] in H.
    apply (IH (S lo) s1); [|by apply (Hb lo s); [lia|..]|done].
    intros i s2 s3 Hi. apply Hb. lia.
Qed.

Lemma store_length {T} (res res' : list (option T)) idx v :
  store res idx v = Some res' → length res' = length res.
Proof.
  unfold store. case_decide; [|done]. intros [= <-]. apply length_insert.
Qed.

Lemma divconq_test_bitreverse_other {T} (IN : list T) :
  length IN ≠ divconq_test.LIST_LENGTH → divconq_test.bitreverse IN = None.
Proof.
  intros Hlen. unfold divconq_test.bitreverse. cbn zeta.
  set (body := λ (t : nat) (OUT : list (option T)), _).
  unfold for_loop. rewrite Nat.sub_0_r.
  destruct (decide (length IN < divconq_test.LIST_LENGTH)) as [Hlt|Hge].
  - replace divconq_test.LIST_LENGTH
      with (length IN + S (divconq_test.LIST_LENGTH - length IN - 1)) by lia.
    rewrite for_iter_app.
    destruct (for_iter (length IN) 0 body (uninit (length IN)))
      as [out|] eqn:E; [|done].
    cbn [mbind option_bind for_iter].
    apply (for_iter_invariant (λ s, length s = length IN)) in E; cycle 1.
    { intros i s s' _ Hs. subst body. cbn beta zeta.
      destruct (IN !! _); [|done]. cbn [mbind option_bind].
      intros Hst%store_length. congruence. }
    { apply length_uninit. }
    subst body. cbn beta zeta. destruct (IN !! _); [|done].
    cbn [mbind option_bind]. rewrite store_None; [done|].
    rewrite Nat.add_0_l. lia.
  - destruct (for_iter divconq_test.LIST_LENGTH 0 body (uninit (length IN)))
      as [out|] eqn:E; [|done].
    cbn [mbind option_bind].
    apply (for_iter_invariant
             (λ s, s !! divconq_test.LIST_LENGTH = Some None)) in E; cycle 1.
    { intros i s s' Hi Hs. subst body. cbn beta zeta.
      destruct (IN !! _); [|done]. cbn [mbind option_bind].
      unfold store. case_decide; [|done]. intros [= <-].
      rewrite list_lookup_insert_ne by lia. done. }
    { unfold uninit. apply lookup_replicate_2. lia. }
    unfold freeze. apply mapM_None_2, list.Exists_exists.
    exists None. split; [|done]. by eapply list_elem_of_lookup_2.
Qed.

Section divconq_test_facts2.
Import bitrev_model divconq_test.

Lemma idx_fn_ok (L R : list N) :
  length L = length R →
  hops.compose2
    (hops.partial1 (hops.partial hops.lreduce hops.concatenate) [])
    (hops.partial hops.loop.zipWith hops.construct) L R
  = Some (interleave_list L R).
Proof.
  intros Hlen. unfold hops.compose2, hops.partial1, hops.partial.
  rewrite loop_zipWith_zipWith, zipWith_construct by done.
  cbn [mbind option_bind].
  by rewrite lreduce_concatenate, concat_construct.
Qed.

(** X19.  On [LIST_LENGTH] indices [idx_bitreverse_hop_synth], the
    divide-and-conquer over [interleave] and [idx_bitreverse_loop_synth]
    return the same array, the input permuted by the reversal of the 4
    index bits.  The loop [bitreverse] it calls is a template over the
    length of the array but counts to [LIST_LENGTH]: on an array of any
    other length it does not return one. *)
Theorem idx_bitreverse_agree (IN : list N) :
  length IN = LIST_LENGTH →
  ∃ OUT, idx_bitreverse_hop_synth IN = Some OUT ∧
         idx_bitreverse_loop_synth IN = Some OUT ∧
         hops.divconq interleave IN = Some OUT ∧
         (∀ t, t < LIST_LENGTH →
               OUT !! t = IN !! N.to_nat (bitrev 4 (N.of_nat t))) ∧
         ∀ (T : Type) (A : list T),
           length A ≠ LIST_LENGTH → bitreverse A = None.
Proof.
  intros Hlen. exists (bitrev_list 4 IN).
  unfold idx_bitreverse_hop_synth, idx_bitreverse_loop_synth.
  rewrite !decide_True by done. cbn zeta.
  rewrite !(divconq_pow2 _ _ 4) by (done || lia).
  rewrite (DivconqHelper_interleave _ idx_fn_ok) by done.
  unfold interleave.
  rewrite (DivconqHelper_interleave _ divconq_test_Interleave_ok) by done.
  rewrite divconq_test_bitreverse_16 by done.
  split_and!; try done.
  - intros t Ht. by apply (lookup_bitrev_list 4).
  - intros T A. apply divconq_test_bitreverse_other.
Qed.

Lemma idx_bitreverse_agree_witness :
  let IN := [0; 1; 2; 3; 4; 5; 6; 7; 8; 9; 10; 11; 12; 13; 14; 15]%N in
  let OUT := [0; 8; 4; 12; 2; 10; 6; 14; 1; 9; 5; 13; 3; 11; 7; 15]%N in
  idx_bitreverse_hop_synth IN = Some OUT ∧
  idx_bitreverse_loop_synth IN = Some OUT.
Proof.
  intros IN OUT.
  destruct (idx_bitreverse_agree IN) as (OUT' & H1 & H2 & _); [reflexivity|].
  assert (OUT' = OUT) as ->; [|done].
  vm_compute in H2. subst OUT. congruence.
Defined.
End divconq_test_facts2.

(** *** examples/map/test.cpp *)

Lemma map_test_bitreverse_ok (i : N) :
  map_test.bitreverse i = bitrev_model.bitrev 32 i.
Proof. unfold map_test.bitreverse. by apply (bitrev_loop_wrap 32). Qed.

(** X20.  [bitreverse] of the map test reverses the 32 bits of an
    [unsigned int]: mapped over an array by either form of [map] it gives
    the same array, and mapping it again gives the input back. *)
Theorem bitreverse_map_involutive (IN : list N) :
  length IN = map_test.LIST_LENGTH → Forall (λ i, (i < 2 ^ 32)%N) IN →
  ∃ OUT, map_test.bitreverse_hop_synth IN = Some OUT ∧
         map_test.bitreverse_loop_synth IN = Some OUT ∧
         map_test.bitreverse_hop_synth OUT = Some IN ∧
         Forall2 (λ i o, (o < 2 ^ 32)%N ∧
                         ∀ j, (j < 32)%N →
                              N.testbit o j = N.testbit i (31 - j)) IN OUT.
Proof.
  intros Hlen Hall. exists (map_test.bitreverse <$> IN).
  unfold map_test.bitreverse_hop_synth, map_test.bitreverse_loop_synth.
  rewrite length_fmap, !decide_True by done.
  rewrite !map_ok, loop_map_ok, !mapM_total.
  split_and!; try done.
  - f_equal. rewrite <- list_fmap_compose. rewrite <- (list_fmap_id IN) at 2.
    apply list.Forall_fmap_ext_1. eapply Forall_impl; [done|].
    intros i Hi. change (map_test.bitreverse (map_test.bitreverse i) = i).
    rewrite !map_test_bitreverse_ok. by apply (bitrev_involutive 32).
  - apply Forall2_fmap_r, Forall_Forall2_diag.
    eapply Forall_impl; [done|]. intros i Hi. unfold compose.
    rewrite map_test_bitreverse_ok. split; [apply (bitrev_lt 32)|].
    intros j Hj. by rewrite (bitrev_testbit 32) by done.
Qed.

Lemma bitreverse_map_involutive_witness :
  let IN := [0; 1; 2; 3; 4; 5; 6; 7; 8; 9; 10; 11; 12; 13; 14; 15]%N in
  ∃ OUT, map_test.bitreverse_hop_synth IN = Some OUT ∧
         map_test.bitreverse_loop_synth IN = Some OUT ∧
         map_test.bitreverse_hop_synth OUT = Some IN ∧
         Forall2 (λ i o, (o < 2 ^ 32)%N ∧
                         ∀ j, (j < 32)%N →
                              N.testbit o j = N.testbit i (31 - j)) IN OUT.
Proof.
  intros IN. apply (bitreverse_map_involutive IN); [reflexivity|].
  unfold IN. repeat (apply list.Forall_cons; split; [done|]).
  apply list.Forall_nil_2.
Defined.

(** *** divconq.hpp *)

Section divconq_min.
Import divconq_test.

Lemma lambdamin_singletons (l r : Z) :
  lambdamin [l] [r] = Some [Z.min l r].
Proof.
  unfold lambdamin. rewrite decide_True by done.
  cbn [lookup list_lookup mbind option_bind]. do 2 f_equal.
  case_bool_decide; lia.
Qed.

Lemma DivconqHelper_lambdamin (LEV : nat) (IN : list Z) :
  length IN = 2 ^ S LEV →
  ∃ m, hops.DivconqHelper (S LEV) (hops.Callable lambdamin lambdamin) IN
       = Some [m] ∧
       m ∈ IN ∧ Forall (λ x, (m ≤ x)%Z) IN.
Proof.
  revert IN. induction LEV as [|LEV IH]; intros IN Hlen.
  - destruct IN as [|a [|b' [|??]]]; try done.
    exists (Z.min a b'). rewrite DivconqHelper_1, decide_True by done.
    rewrite split_ok. cbn [mbind option_bind fst snd hops.on_arrays].
    change (N.to_nat 1) with 1. cbn [take drop].
    rewrite lambdamin_singletons. split_and!; [done| |].
    + destruct (Z.min_spec a b') as [[_ ->]|[_ ->]];
        [by left|right; by left].
    + rewrite !list.Forall_cons. split_and!; [lia|lia|done].
  - rewrite DivconqHelper_SS, decide_True
      by (rewrite shiftl_1_of_nat; by f_equal).
    rewrite split_ok. cbn [mbind option_bind fst snd].
    rewrite shiftl_1_of_nat, Nat2N.id.
    rewrite (Nat.pow_succ_r' 2 (S LEV)) in Hlen.
    destruct (IH (take (2 ^ S LEV) IN)) as (ml & -> & Hinl & Hl).
    { rewrite length_take. lia. }
    destruct (IH (drop (2 ^ S LEV) IN)) as (mr & -> & Hinr & Hr).
    { rewrite length_drop. lia. }
    cbn [mbind option_bind hops.on_results].
    rewrite lambdamin_singletons. exists (Z.min ml mr).
    rewrite <- (take_drop (2 ^ S LEV) IN) at 1 2.
    split_and!; [done| |].
    + apply elem_of_app.
      destruct (Z.min_spec ml mr) as [[_ ->]|[_ ->]]; [by left|by right].
    + apply list.Forall_app. split.
      * eapply Forall_impl; [exact Hl|]. cbn. lia.
      * eapply Forall_impl; [exact Hr|]. cbn. lia.
Qed.

(** X21.  [min_hop_synth] returns the least element of an array of
    [LIST_LENGTH] integers. *)
Theorem min_divconq (IN : list Z) :
  length IN = LIST_LENGTH →
  ∃ m, min_hop_synth IN = Some m ∧ m ∈ IN ∧ Forall (λ x, (m ≤ x)%Z) IN.
Proof.
  intros Hlen. unfold min_hop_synth. rewrite decide_True by done.
  rewrite (divconq_pow2 _ _ 4) by (done || lia).
  destruct (DivconqHelper_lambdamin 3 IN Hlen) as (m & -> & Hin & Hall).
  by exists m.
Qed.

Lemma min_divconq_witness :
  min_hop_synth [3; -7; 12; 0; 5; -7; 9; 1; 4; 4; -2; 8; 15; -1; 6; 2]%Z
  = Some (-7)%Z.
Proof.
  destruct (min_divconq
              [3; -7; 12; 0; 5; -7; 9; 1; 4; 4; -2; 8; 15; -1; 6; 2]%Z)
    as (m & H & _); [reflexivity|].
  assert (m = (-7)%Z) as ->; [|done].
  vm_compute in H. congruence.
Defined.
End divconq_min.

(** X22.  [divconq] on an array of two elements applies the callable to
    the two one-element arrays; on an array of [2^(k+1)] elements it
    applies it to the results of [divconq] on the two halves.  It has an
    instantiation only for arrays whose length is a power of two that is
    at least 2. *)
Theorem divconq_equations {T R} (F : hops.callable T R) (IN : list T)
    (k : nat) :
  1 ≤ k < 30 → length IN = 2 ^ S k →
  hops.divconq F IN
  = (l ← hops.divconq F (take (2 ^ k) IN);
     r ← hops.divconq F (drop (2 ^ k) IN);
     hops.on_results F l r) ∧
  (∀ a b', hops.divconq F [a; b'] = hops.on_arrays F [a] [b']) ∧
  (∀ A, is_Some (hops.divconq F A) → ∃ j, 1 ≤ j ∧ length A = 2 ^ j).
Proof.
  intros Hk Hlen. split_and!.
  - rewrite (Nat.pow_succ_r' 2 k) in Hlen.
    rewrite (divconq_pow2 F IN (S k))
      by (lia || by rewrite Nat.pow_succ_r').
    rewrite (divconq_pow2 F (take _ _) k) by (lia || rewrite length_take; lia).
    rewrite (divconq_pow2 F (drop _ _) k) by (lia || rewrite length_drop; lia).
    destruct k as [|k]; [lia|].
    rewrite DivconqHelper_SS, decide_True
      by (rewrite shiftl_1_of_nat, Nat.pow_succ_r'; by f_equal).
    rewrite split_ok. cbn [mbind option_bind fst snd].
    by rewrite shiftl_1_of_nat, Nat2N.id.
  - intros a b'. rewrite (divconq_pow2 F _ 1) by (done || lia).
    rewrite DivconqHelper_1, decide_True by done.
    by rewrite split_ok.
  - intros A [r Hr]. unfold hops.divconq in Hr.
    destruct (N.to_nat (hops.clog2 (N.of_nat (length A)))) as [|j] eqn:E;
      [done|].
    exists (S j). split; [lia|].
    cbn [hops.DivconqHelper] in Hr. case_decide as Hl; [|done].
    rewrite shiftl_1_of_nat in Hl. lia.
Qed.

Lemma divconq_equations_witness :
  let F := hops.Callable (λ L R : list nat, Some (sum_list (L ++ R)))
                         (λ l r, Some (l * r)) in
  hops.divconq F [1; 2; 3; 4] = Some 21.
Proof.
  intros F.
  destruct (divconq_equations F [1; 2; 3; 4] 1) as (H & H2 & _);
    [lia|reflexivity|].
  rewrite H. cbn [take drop Nat.pow Nat.mul Nat.add].
  rewrite !H2. reflexivity.
Defined.

(** ** examples/finite_impulse_response/test.cpp *)

Section fir_facts.
Context {data_t : Type}.
Context (zero : data_t) (plus multiplies : data_t → data_t → data_t).
Context (coeffs : list data_t).







End fir_facts.



(** ** examples/insertion_sort/test.cpp: what one call keeps *)

Section isort_call.
Import insertion_sort isort_model.

Lemma pass_values arr IN :
  (pass arr IN).1.1 :: (pass arr IN).2.*1 ≡ₚ IN.1 :: arr.*1.
Proof.
  induction arr as [|me arr IH]; [done|].
  cbn [pass fmap list_fmap fst snd]. cbn zeta.
  set (r := pass arr IN) in *.
  trans (me.1 :: r.1.1 :: r.2.*1).
  - unfold cell_step. cbn zeta. cbn [fst snd].
    destruct (bool_decide (me.1 < r.1.1)%Z && negb me.2);
      [apply Permutation_swap|done].
  - rewrite IH. apply Permutation_swap.
Qed.

Lemma pass_flags arr IN :
  (pass arr IN).1.2 :: (pass arr IN).2.*2 = arr.*2 ++ [IN.2].
Proof.
  induction arr as [|me arr IH]; [done|].
  cbn [pass fmap list_fmap fst snd app]. cbn zeta.
  unfold cell_step. cbn zeta. cbn [fst snd]. f_equal. apply IH.
Qed.
End isort_call.

(** X24.  From any state of the resident array, one call of
    [isort_hop_synth] and one call of [isort_loop_synth] return the same
    value and leave the same array.  The call keeps the values: those of
    the result and of the new array are those of the input and of the old
    array, rearranged.  The boundary flags move as in a shift register:
    the flag of the input enters at the last cell and the flag of the
    first cell leaves with the result. *)
Theorem isort_call_invariants (arr : list insertion_sort.isort_t)
    (IN : insertion_sort.isort_t) :
  length arr = insertion_sort.LIST_LENGTH →
  ∃ out arr',
    insertion_sort.isort_hop_synth arr IN = Some (out, arr') ∧
    insertion_sort.isort_loop_synth arr IN = Some (out, arr') ∧
    length arr' = insertion_sort.LIST_LENGTH ∧
    out.1 :: arr'.*1 ≡ₚ IN.1 :: arr.*1 ∧
    out.2 :: arr'.*2 = arr.*2 ++ [IN.2].
Proof.
  intros Hlen.
  exists (isort_model.pass arr IN).1, (isort_model.pass arr IN).2.
  rewrite isort_hop_synth_pass, isort_loop_synth_pass by done.
  rewrite length_pass. rewrite <- surjective_pairing.
  split_and!; try done; [apply pass_values|apply pass_flags].
Qed.

Lemma isort_call_invariants_witness :
  let arr := (λ x, (x, false)) <$>
             [9; 7; 7; 5; 4; 3; 2; 1; 0; 0; 0; 0; 0; 0; 0; 0]%Z in
  ∃ out arr',
    insertion_sort.isort_hop_synth arr (6%Z, false) = Some (out, arr') ∧
    insertion_sort.isort_loop_synth arr (6%Z, false) = Some (out, arr') ∧
    length arr' = insertion_sort.LIST_LENGTH ∧
    out.1 :: arr'.*1 ≡ₚ 6%Z :: arr.*1 ∧
    out.2 :: arr'.*2 = arr.*2 ++ [false].
Proof.
  intros arr. apply (isort_call_invariants arr (6%Z, false)). reflexivity.
Defined.

(** ** examples/argminmax/test.cpp: the reference of the test *)

(** X25.  The reference pair of [argmin_test] starts from [(0, 0)]
    and is replaced only by smaller values: it is the minimum and its
    first index when the minimum is negative, and [(0, 0)] otherwise.  It
    equals what the two realizations return exactly when the minimum is
    negative or is a 0 at index 0. *)
Theorem argmin_test_reference (IN : list Z) (v : Z) (i : N) :
  N.of_nat (length IN) = argminmax.LIST_LENGTH →
  argmin_model.is_first_min IN v i →
  argminmax.gold_scan IN
  = Some (if bool_decide (v < 0)%Z then (v, i) else (0%Z, 0%N)) ∧
  argminmax.argmin_loop_synth IN = Some (v, i) ∧
  argminmax.argmin_hop_synth IN = Some (v, i) ∧
  (argminmax.gold_scan IN = Some (v, i) ↔ (v < 0)%Z ∨ (v = 0%Z ∧ i = 0%N)).
Proof.
  intros Hlen Hmin.
  destruct (argmin_loop_synth_spec IN Hlen) as (v1 & i1 & -> & H1).
  destruct (argmin_hop_synth_spec IN Hlen) as (v2 & i2 & -> & H2).
  destruct (is_first_min_unique _ _ _ _ _ Hmin H1) as [<- <-].
  destruct (is_first_min_unique _ _ _ _ _ Hmin H2) as [<- <-].
  rewrite (gold_scan_spec IN v i) by done.
  split_and!; try done.
  case_bool_decide; split.
  - intros _. by left.
  - done.
  - intros [= <- <-]. by right.
  - intros [?|[-> ->]]; [lia|done].
Qed.

Lemma argmin_test_reference_witness :
  let IN := [3; 7; 12; 1; 5; 7; 9; 1; 4; 4; 2; 8; 15; 1; 6; 2]%Z in
  argminmax.gold_scan IN = Some (0%Z, 0%N) ∧
  argminmax.argmin_loop_synth IN = Some (1%Z, 3%N) ∧
  argminmax.argmin_hop_synth IN = Some (1%Z, 3%N).
Proof.
  intros IN.
  destruct (argmin_test_reference IN 1 3) as (H1 & H2 & H3 & _);
    [reflexivity| |done].
  unfold argmin_model.is_first_min, IN. split_and!; [done| |].
  - repeat (apply list.Forall_cons; split; [lia|]). apply list.Forall_nil_2.
  - change (N.to_nat 3) with 3%nat. cbn [take].
    repeat (apply list.Forall_cons; split; [lia|]). apply list.Forall_nil_2.
Defined.

(** ** examples/smith_waterman: the symbols of the test *)

(** X27.  On an [unsigned char] [randtobase] returns a, c, t or g for
    the four quarters of the values below 128 and x from 128 on, so the
    value 128, which the test can draw, gives the symbol that marks a
    boundary; [toHwBase] and [toSwBase] give a symbol back unchanged. *)
Theorem randtobase_symbols (IN : Z) :
  (0 ≤ IN < 256)%Z →
  smith_waterman.randtobase 1 IN
  = (if decide (IN < 32) then 97
     else if decide (IN < 64) then 99
     else if decide (IN < 96) then 116
     else if decide (IN < 128) then 103
     else 120)%Z ∧
  (smith_waterman.randtobase 1 IN = 120%Z ↔ (128 ≤ IN)%Z) ∧
  smith_waterman.to_sw_base
    (smith_waterman.to_hw_base (smith_waterman.randtobase 1 IN))
  = smith_waterman.randtobase 1 IN.
Proof.
  intros HIN. unfold smith_waterman.randtobase.
  change (8 * 1 - 3)%Z with 5%Z. rewrite Z.shiftr_div_pow2 by lia.
  change (2 ^ 5)%Z with 32%Z.
  assert (IN `div` 32 = 0 ∨ IN `div` 32 = 1 ∨ IN `div` 32 = 2 ∨
          IN `div` 32 = 3 ∨ IN `div` 32 = 4 ∨ IN `div` 32 = 5 ∨
          IN `div` 32 = 6 ∨ IN `div` 32 = 7)%Z as Hq.
  { assert (0 ≤ IN `div` 32 < 8)%Z; [|lia].
    split; [apply Z.div_pos; lia|apply Z.div_lt_upper_bound; lia]. }
  pose proof (Z.div_mod IN 32) as Hdm.
  pose proof (Z.mod_pos_bound IN 32) as Hmod.
  destruct Hq as [H|[H|[H|[H|[H|[H|[H|H]]]]]]]; rewrite H in *;
    repeat case_decide; try lia; (split_and!; [done|split; [done||lia|lia||done]|done]).
Qed.

Lemma randtobase_symbols_witness :
  smith_waterman.randtobase 1 128 = 120%Z ∧
  smith_waterman.randtobase 1 70 = 116%Z.
Proof.
  split.
  - apply (randtobase_symbols 128); lia.
  - destruct (randtobase_symbols 70) as (H & _); [lia|]. exact H.
Defined.

(** ** map.hpp on callables that do not always return *)

(** X28.  On a callable that has no value at some element both forms
    of [map] have none; otherwise both return the array of the values of
    the callable. *)
Theorem map_partial_callable {TA TR} (F : TA → option TR) (IN : list TA) :
  hops.map F IN = hops.loop.map F IN ∧
  (is_Some (hops.map F IN) ↔ Forall (λ x, is_Some (F x)) IN) ∧
  ∀ OUT, hops.map F IN = Some OUT → Forall2 (λ x y, F x = Some y) IN OUT.
Proof.
  rewrite map_ok, loop_map_ok. split_and!; [done| |].
  - split.
    + intros [OUT H%mapM_Some_1]. apply list.Forall_forall. intros x Hx.
      apply list_elem_of_lookup in Hx as [i Hi].
      destruct (Forall2_lookup_l _ _ _ _ _ H Hi) as (y & _ & ->). done.
    + intros H. destruct (mapM F IN) as [OUT|] eqn:E; [done|].
      apply mapM_None_1, list.Exists_exists in E as (x & Hx & HF).
      rewrite list.Forall_forall in H. apply H in Hx. rewrite HF in Hx.
      by destruct Hx.
  - intros OUT H. by apply mapM_Some_1.
Qed.

(** ** examples/bitonic_sort/bitonic.hpp: the compare-and-swap units *)

(** X29.  The unit [min] ([CAS<true>]) returns the larger of its two
    arguments first and the smaller second; [max] ([CAS<false>]) returns
    the smaller first. *)
Theorem CAS_orders (l r : Z) :
  bitonic.min l r = Some (Z.max l r, Z.min l r) ∧
  bitonic.max l r = Some (Z.min l r, Z.max l r).
Proof.
  unfold bitonic.min, bitonic.max, bitonic.CAS.
  split; case_bool_decide; do 2 f_equal; lia.
Qed.

(** ** examples/bitonic.bitonic_sort/bitonic.hpp: the two sorters *)

(** *** Interleaving and bit reversal of arrays *)

Section interleave_more.
Import bitrev_model.
Context {T : Type}.
Implicit Types (L R : list T).

Lemma interleave_list_app L1 L2 R1 R2 :
  length L1 = length R1 →
  interleave_list (L1 ++ L2) (R1 ++ R2)
  = interleave_list L1 R1 ++ interleave_list L2 R2.
Proof.
  revert R1. induction L1 as [|l L1 IH]; intros [|r R1] Hlen; try done.
  cbn [app interleave_list]. rewrite IH by (simpl in Hlen; lia). done.
Qed.

Lemma take_interleave_list n L R :
  take (2 * n) (interleave_list L R) = interleave_list (take n L) (take n R).
Proof.
  revert L R. induction n as [|n IH]; intros L R.
  - by rewrite !take_0.
  - replace (2 * S n) with (S (S (2 * n))) by lia.
    destruct L as [|l L], R as [|r R]; try done.
    cbn [interleave_list take]. by rewrite IH.
Qed.

Lemma drop_interleave_list n L R :
  length L = length R →
  drop (2 * n) (interleave_list L R) = interleave_list (drop n L) (drop n R).
Proof.
  revert L R. induction n as [|n IH]; intros L R Hlen.
  - by rewrite !drop_0.
  - destruct L as [|l L], R as [|r R]; try done.
    replace (2 * S n) with (S (S (2 * n))) by lia.
    cbn [interleave_list drop]. apply IH. simpl in Hlen. lia.
Qed.

Lemma interleave_list_perm L R :
  length L = length R → interleave_list L R ≡ₚ L ++ R.
Proof.
  revert R. induction L as [|l L IH]; intros [|r R] Hlen; try done.
  cbn [interleave_list app]. rewrite IH by (simpl in Hlen; lia).
  by rewrite (Permutation_middle L R r).
Qed.
End interleave_more.

Lemma interleave_list_fmap {A B} (h : A → B) (L R : list A) :
  h <$> bitrev_model.interleave_list L R
  = bitrev_model.interleave_list (h <$> L) (h <$> R).
Proof.
  revert R. induction L as [|l L IH]; intros [|r R]; try done.
  cbn [bitrev_model.interleave_list fmap list_fmap]. f_equal. f_equal.
  apply IH.
Qed.

Lemma interleave_list_zip_with {A B C} (f : A → B → C)
    (A1 A2 : list A) (B1 B2 : list B) :
  length A1 = length A2 → length B1 = length B2 →
  zip_with f (bitrev_model.interleave_list A1 A2)
             (bitrev_model.interleave_list B1 B2)
  = bitrev_model.interleave_list (zip_with f A1 B1) (zip_with f A2 B2).
Proof.
  revert A2 B1 B2.
  induction A1 as [|a1 A1 IH]; intros [|a2 A2] [|b1 B1] [|b2 B2] HA HB;
    try done.
  cbn [bitrev_model.interleave_list zip_with]. f_equal. f_equal.
  apply IH; simpl in *; lia.
Qed.

Section bitrev_list_more.
Import bitrev_model.

Lemma pow2_halves {T} (k : nat) (X : list T) :
  length X = 2 ^ S k →
  length (take (2 ^ k) X) = 2 ^ k ∧ length (drop (2 ^ k) X) = 2 ^ k.
Proof.
  rewrite Nat.pow_succ_r'. intros H.
  rewrite length_take, length_drop. lia.
Qed.

Lemma bitrev_list_fmap {A B} (h : A → B) (k : nat) (X : list A) :
  h <$> bitrev_list k X = bitrev_list k (h <$> X).
Proof.
  revert X. induction k as [|k IH]; intros X; [done|].
  cbn [bitrev_list]. by rewrite interleave_list_fmap, !IH, fmap_take, fmap_drop.
Qed.

Lemma bitrev_list_zip_with {A B C} (f : A → B → C) (k : nat)
    (U : list A) (V : list B) :
  length U = 2 ^ k → length V = 2 ^ k →
  bitrev_list k (zip_with f U V)
  = zip_with f (bitrev_list k U) (bitrev_list k V).
Proof.
  revert U V. induction k as [|k IH]; intros U V HU HV; [done|].
  cbn [bitrev_list].
  destruct (pow2_halves k U HU) as [HU1 HU2].
  destruct (pow2_halves k V HV) as [HV1 HV2].
  rewrite zip_with_take, zip_with_drop, !IH by done.
  rewrite interleave_list_zip_with; [done|..];
    by rewrite !length_bitrev_list.
Qed.

Lemma bitrev_list_perm {T} (k : nat) (X : list T) :
  length X = 2 ^ k → bitrev_list k X ≡ₚ X.
Proof.
  revert X. induction k as [|k IH]; intros X HX; [done|].
  cbn [bitrev_list]. destruct (pow2_halves k X HX) as [H1 H2].
  rewrite interleave_list_perm by (by rewrite !length_bitrev_list).
  rewrite !IH by done. by rewrite take_drop.
Qed.

Lemma bitrev_list_app {T} (k : nat) (U V : list T) :
  length U = 2 ^ k →
  bitrev_list (S k) (U ++ V)
  = interleave_list (bitrev_list k U) (bitrev_list k V).
Proof.
  intros HU. cbn [bitrev_list].
  by rewrite take_app_length', drop_app_length'.
Qed.

Lemma bitrev_list_interleave {T} (k : nat) (U V : list T) :
  length U = 2 ^ k → length V = 2 ^ k →
  bitrev_list (S k) (interleave_list U V)
  = bitrev_list k U ++ bitrev_list k V.
Proof.
  intros HU HV.
  rewrite <- (bitrev_list_involutive k U) at 1 by done.
  rewrite <- (bitrev_list_involutive k V) at 1 by done.
  rewrite <- bitrev_list_app by (by rewrite length_bitrev_list).
  apply bitrev_list_involutive.
  rewrite length_app, !length_bitrev_list, Nat.pow_succ_r' by done. lia.
Qed.
End bitrev_list_more.

Section net_facts.
Import bitrev_model bitonic_model.
Context (f g : Z → Z → Z).

Lemma length_swap (L R : list Z) :
  length L = length R → length (swap f g L R) = 2 * length L.
Proof.
  intros H. unfold swap. rewrite length_app, !length_zip_with. lia.
Qed.

Lemma length_bfly (k : nat) (X : list Z) :
  length X = 2 ^ k → length (bfly f g k X) = 2 ^ k.
Proof.
  revert X. induction k as [|k IH]; intros X HX; [done|].
  cbn [bfly]. destruct (pow2_halves k X HX) as [H1 H2].
  rewrite length_swap by (by rewrite !IH).
  rewrite IH, Nat.pow_succ_r' by done. lia.
Qed.

Lemma length_merge (k : nat) (X : list Z) :
  length X = 2 ^ k → length (merge f g k X) = 2 ^ k.
Proof.
  intros HX. unfold merge.
  by rewrite length_bitrev_list
    by (by rewrite length_bfly by (by rewrite length_bitrev_list)).
Qed.

Lemma swap_interleave (U1 V1 U2 V2 : list Z) :
  length U1 = length V1 → length U2 = length V2 → length U1 = length U2 →
  swap f g (interleave_list U1 V1) (interleave_list U2 V2)
  = interleave_list (swap f g U1 U2) (swap f g V1 V2).
Proof.
  intros H1 H2 H3. unfold swap.
  rewrite !interleave_list_zip_with by done.
  rewrite interleave_list_app; [done|].
  rewrite !length_zip_with. lia.
Qed.

(** The butterfly of two interleaved arrays compares them first. *)
Lemma bfly_interleave (k : nat) (P Q : list Z) :
  length P = 2 ^ k → length Q = 2 ^ k →
  bfly f g (S k) (interleave_list P Q)
  = interleave_list (bfly f g k (zip_with f P Q))
                    (bfly f g k (zip_with g P Q)).
Proof.
  revert P Q. induction k as [|k IH]; intros P Q HP HQ.
  - destruct P as [|p [|??]], Q as [|q [|??]]; done.
  - cbn [bfly] in IH |- *.
    destruct (pow2_halves k P HP) as [HP1 HP2].
    destruct (pow2_halves k Q HQ) as [HQ1 HQ2].
    replace (2 ^ S k) with (2 * 2 ^ k) by (rewrite Nat.pow_succ_r'; lia).
    rewrite take_interleave_list, drop_interleave_list by lia.
    rewrite !IH by done.
    rewrite !zip_with_take, !zip_with_drop.
    rewrite swap_interleave; [done|..];
      rewrite !length_bfly; try done;
      rewrite length_zip_with; lia.
Qed.

(** The first stage of the merge compares the two halves; the rest
    merges what the comparison gives, each half on its own. *)
Lemma merge_step (k : nat) (Y : list Z) :
  length Y = 2 ^ S k →
  merge f g (S k) Y
  = merge f g k (zip_with f (take (2 ^ k) Y) (drop (2 ^ k) Y))
    ++ merge f g k (zip_with g (take (2 ^ k) Y) (drop (2 ^ k) Y)).
Proof.
  intros HY. destruct (pow2_halves k Y HY) as [H1 H2].
  unfold merge. rewrite <- (take_drop (2 ^ k) Y) at 1.
  rewrite bitrev_list_app by done.
  rewrite bfly_interleave by (by rewrite length_bitrev_list).
  rewrite bitrev_list_interleave;
    [|rewrite length_bfly; [done|];
      rewrite length_zip_with, !length_bitrev_list by done; lia..].
  by rewrite !bitrev_list_zip_with.
Qed.
End net_facts.

Section net_hom.
Import bitrev_model bitonic_model.
Context (f g f' g' : Z → Z → Z) (h : Z → Z).
Hypothesis Hf : ∀ a b, h (f a b) = f' (h a) (h b).
Hypothesis Hg : ∀ a b, h (g a b) = g' (h a) (h b).

Lemma zip_with_hom (op op' : Z → Z → Z) (L R : list Z) :
  (∀ a b, h (op a b) = op' (h a) (h b)) →
  h <$> zip_with op L R = zip_with op' (h <$> L) (h <$> R).
Proof.
  intros H. revert R. induction L as [|l L IH]; intros [|r R]; try done.
  cbn [zip_with fmap list_fmap]. f_equal; [done|]. apply IH.
Qed.

Lemma swap_hom (L R : list Z) :
  h <$> swap f g L R = swap f' g' (h <$> L) (h <$> R).
Proof.
  unfold swap. by rewrite fmap_app, !(zip_with_hom _ _ _ _ Hf),
    !(zip_with_hom _ _ _ _ Hg).
Qed.

Lemma bfly_hom (k : nat) (X : list Z) :
  h <$> bfly f g k X = bfly f' g' k (h <$> X).
Proof.
  revert X. induction k as [|k IH]; intros X; [done|].
  cbn [bfly]. by rewrite swap_hom, !IH, fmap_take, fmap_drop.
Qed.

Lemma merge_hom (k : nat) (X : list Z) :
  h <$> merge f g k X = merge f' g' k (h <$> X).
Proof.
  unfold merge. by rewrite bitrev_list_fmap, bfly_hom, bitrev_list_fmap.
Qed.
End net_hom.

Section net_perm.
Import bitrev_model bitonic_model.
Context (f g : Z → Z → Z).
Hypothesis Hfg : ∀ a b, [f a b; g a b] ≡ₚ [a; b].

Lemma swap_perm (L R : list Z) :
  length L = length R → swap f g L R ≡ₚ L ++ R.
Proof.
  unfold swap. revert R.
  induction L as [|l L IH]; intros [|r R] Hlen; try done.
  cbn [zip_with app]. rewrite <- Permutation_middle.
  rewrite IH by (simpl in Hlen; lia).
  rewrite <- (Permutation_middle L R r).
  change (f l r :: g l r :: L ++ R) with ([f l r; g l r] ++ (L ++ R)).
  by rewrite Hfg.
Qed.

Lemma bfly_perm (k : nat) (X : list Z) :
  length X = 2 ^ k → bfly f g k X ≡ₚ X.
Proof.
  revert X. induction k as [|k IH]; intros X HX; [done|].
  cbn [bfly]. destruct (pow2_halves k X HX) as [H1 H2].
  rewrite swap_perm by (by rewrite !length_bfly).
  rewrite !IH by done. by rewrite take_drop.
Qed.

Lemma merge_perm (k : nat) (X : list Z) :
  length X = 2 ^ k → merge f g k X ≡ₚ X.
Proof.
  intros HX. unfold merge.
  rewrite bitrev_list_perm
    by (by rewrite length_bfly by (by rewrite length_bitrev_list)).
  rewrite bfly_perm by (by rewrite length_bitrev_list).
  by apply bitrev_list_perm.
Qed.
End net_perm.

(** *** Lists of zeros and ones *)

Section bits_facts.
Import bitonic_model.
Implicit Types (p q : nat → bool).

Lemma length_bits p n : length (bits p n) = n.
Proof. unfold bits. by rewrite length_fmap, length_seq. Qed.

Lemma lookup_bits p n i : i < n → bits p n !! i = Some (Z.b2z (p i)).
Proof.
  intros Hi. unfold bits. by rewrite list_lookup_fmap, lookup_seq_lt.
Qed.

Lemma bits_eq p n (Y : list Z) :
  length Y = n → (∀ i, i < n → Y !! i = Some (Z.b2z (p i))) → Y = bits p n.
Proof.
  intros Hlen HY. apply list_eq. intros i.
  destruct (decide (i < n)) as [Hi|Hi].
  - by rewrite HY, lookup_bits.
  - rewrite !lookup_ge_None_2; [done|rewrite length_bits; lia|lia].
Qed.

Lemma bits_ext p q n : (∀ i, i < n → p i = q i) → bits p n = bits q n.
Proof.
  intros H. apply bits_eq; [apply length_bits|].
  intros i Hi. by rewrite lookup_bits, H.
Qed.

Lemma take_bits p n m : m ≤ n → take m (bits p n) = bits p m.
Proof.
  intros H. apply bits_eq; [rewrite length_take, length_bits; lia|].
  intros i Hi. rewrite lookup_take_lt, lookup_bits by lia. done.
Qed.

Lemma drop_bits p n m : drop m (bits p n) = bits (λ i, p (m + i)) (n - m).
Proof.
  apply bits_eq; [by rewrite length_drop, length_bits|].
  intros i Hi. rewrite lookup_drop, lookup_bits by lia. done.
Qed.

Lemma zip_with_max_bits p q n :
  zip_with Z.max (bits p n) (bits q n) = bits (λ i, p i || q i) n.
Proof.
  apply bits_eq; [rewrite length_zip_with, !length_bits; lia|].
  intros i Hi. rewrite lookup_zip_with, !lookup_bits by done.
  cbn [mbind option_bind]. f_equal. by destruct (p i), (q i).
Qed.

Lemma zip_with_min_bits p q n :
  zip_with Z.min (bits p n) (bits q n) = bits (λ i, p i && q i) n.
Proof.
  apply bits_eq; [rewrite length_zip_with, !length_bits; lia|].
  intros i Hi. rewrite lookup_zip_with, !lookup_bits by done.
  cbn [mbind option_bind]. f_equal. by destruct (p i), (q i).
Qed.

Lemma reverse_bits p n : reverse (bits p n) = bits (λ i, p (n - 1 - i)) n.
Proof.
  apply bits_eq; [by rewrite length_reverse, length_bits|].
  intros i Hi. rewrite reverse_lookup by (by rewrite length_bits).
  rewrite length_bits, lookup_bits by lia. do 3 f_equal. lia.
Qed.

Lemma bits_app p q n m :
  bits p n ++ bits q m
  = bits (λ i, if decide (i < n) then p i else q (i - n)) (n + m).
Proof.
  apply bits_eq; [by rewrite length_app, !length_bits|].
  intros i Hi. case_decide.
  - by rewrite lookup_app_l, lookup_bits by (by rewrite ?length_bits).
  - rewrite lookup_app_r, length_bits, lookup_bits
      by (rewrite ?length_bits; lia). done.
Qed.

Lemma bits_const p n (c : bool) :
  (∀ i, i < n → p i = c) → bits p n = replicate n (Z.b2z c).
Proof.
  intros H. symmetry. apply bits_eq; [apply length_replicate|].
  intros i Hi. by rewrite lookup_replicate_2, H.
Qed.

Lemma fmap_compl_bits p n :
  (λ x, 1 - x)%Z <$> bits p n = bits (λ i, negb (p i)) n.
Proof.
  apply bits_eq; [by rewrite length_fmap, length_bits|].
  intros i Hi. rewrite list_lookup_fmap, lookup_bits by done.
  cbn. f_equal. by destruct (p i).
Qed.

Lemma fmap_threshold (c : Z) (X : list Z) :
  (λ x, Z.b2z (bool_decide (c ≤ x)%Z)) <$> X
  = bits (λ i, bool_decide (c ≤ default 0 (X !! i))%Z) (length X).
Proof.
  apply bits_eq; [by rewrite length_fmap|].
  intros i Hi. rewrite list_lookup_fmap.
  destruct (lookup_lt_is_Some_2 X i Hi) as [x ->]. done.
Qed.

(** Comparing the two halves of a block of ones, or of a block of zeros
    with ones around it, gives two arrays of these shapes, and the larger
    components are all ones or the smaller ones all zeros. *)
Lemma blk_halves (s : bool) (a d h : nat) :
  ∃ s1 a1 d1 s2 a2 d2,
    (∀ i, i < h → blk s a d i || blk s a d (h + i) = blk s1 a1 d1 i) ∧
    (∀ i, i < h → blk s a d i && blk s a d (h + i) = blk s2 a2 d2 i) ∧
    ((∀ i, i < h → blk s1 a1 d1 i = true) ∨
     (∀ i, i < h → blk s2 a2 d2 i = false)).
Proof.
  destruct s.
  - (* ones outside [a, d) *)
    exists true, a, (d - h).
    destruct (decide (d ≤ h)) as [Hd|Hd];
      [|destruct (decide (h ≤ a)) as [Ha|Ha];
        [|destruct (decide (a ≤ d - h)) as [Hm|Hm]]].
    + exists true, a, d. split_and!; [..|left]; intros i Hi; unfold blk;
        repeat case_bool_decide; simpl; try done; lia.
    + exists true, (a - h), (d - h).
      split_and!; [..|left]; intros i Hi; unfold blk;
        repeat case_bool_decide; simpl; try done; lia.
    + exists false, 0, 0.
      split_and!; [..|right]; intros i Hi; unfold blk;
        repeat case_bool_decide; simpl; try done; lia.
    + exists false, (d - h), a.
      split_and!; [..|left]; intros i Hi; unfold blk;
        repeat case_bool_decide; simpl; try done; lia.
  - (* ones in [a, d) *)
    destruct (decide (d ≤ h)) as [Hd|Hd];
      [|destruct (decide (h ≤ a)) as [Ha|Ha];
        [|destruct (decide (a ≤ d - h)) as [Hm|Hm]]].
    + exists false, a, d, false, 0, 0.
      split_and!; [..|right]; intros i Hi; unfold blk;
        repeat case_bool_decide; simpl; try done; lia.
    + exists false, (a - h), (d - h), false, 0, 0.
      split_and!; [..|right]; intros i Hi; unfold blk;
        repeat case_bool_decide; simpl; try done; lia.
    + exists true, 0, 0, false, a, (d - h).
      split_and!; [..|left]; intros i Hi; unfold blk;
        repeat case_bool_decide; simpl; try done; lia.
    + exists true, (d - h), a, false, 0, 0.
      split_and!; [..|right]; intros i Hi; unfold blk;
        repeat case_bool_decide; simpl; try done; lia.
Qed.
End bits_facts.

(** *** The network sorts *)

Section sorting_network.
Import bitrev_model bitonic_model.

Lemma max_min_perm (a b : Z) : [Z.max a b; Z.min a b] ≡ₚ [a; b].
Proof.
  destruct (Z.le_gt_cases a b).
  - rewrite Z.max_r, Z.min_l by lia. apply perm_swap.
  - by rewrite Z.max_l, Z.min_r by lia.
Qed.

Lemma min_max_perm (a b : Z) : [Z.min a b; Z.max a b] ≡ₚ [a; b].
Proof. rewrite <- (max_min_perm a b). apply perm_swap. Qed.

Lemma merge_replicate (k : nat) (x : Z) :
  merge Z.max Z.min k (replicate (2 ^ k) x) = replicate (2 ^ k) x.
Proof.
  symmetry. apply replicate_Permutation. symmetry.
  apply merge_perm; [apply max_min_perm|apply length_replicate].
Qed.

(** Two merged halves, the first all ones or the second all zeros. *)
Lemma merge_halves_01 (k : nat) :
  (∀ s a d, ∃ m, merge Z.max Z.min k (bits (blk s a d) (2 ^ k))
                 = bits (blk false 0 m) (2 ^ k)) →
  ∀ s1 a1 d1 s2 a2 d2,
    (∀ i, i < 2 ^ k → blk s1 a1 d1 i = true) ∨
    (∀ i, i < 2 ^ k → blk s2 a2 d2 i = false) →
    ∃ m, merge Z.max Z.min k (bits (blk s1 a1 d1) (2 ^ k))
         ++ merge Z.max Z.min k (bits (blk s2 a2 d2) (2 ^ k))
         = bits (blk false 0 m) (2 ^ S k).
Proof.
  intros IH s1 a1 d1 s2 a2 d2 Hc.
  replace (2 ^ S k) with (2 ^ k + 2 ^ k) by (rewrite Nat.pow_succ_r'; lia).
  destruct Hc as [H1|H0].
  - rewrite (bits_const _ _ true H1), merge_replicate.
    destruct (IH s2 a2 d2) as [m ->]. exists (2 ^ k + m).
    rewrite <- (bits_const (λ _, true) _ true) by done.
    rewrite bits_app. apply bits_ext. intros i Hi. unfold blk.
    case_decide; repeat case_bool_decide; simpl; try done; lia.
  - rewrite (bits_const _ _ false H0), merge_replicate.
    destruct (IH s1 a1 d1) as [m ->]. exists (m `min` 2 ^ k).
    rewrite <- (bits_const (λ _, false) _ false) by done.
    rewrite bits_app. apply bits_ext. intros i Hi. unfold blk.
    case_decide; repeat case_bool_decide; simpl; try done; lia.
Qed.

(** The merge puts the ones of a block first. *)
Lemma merge_01 (k : nat) (s : bool) (a d : nat) :
  ∃ m, merge Z.max Z.min k (bits (blk s a d) (2 ^ k))
       = bits (blk false 0 m) (2 ^ k).
Proof.
  revert s a d. induction k as [|k IH]; intros s a d.
  - exists (if blk s a d 0 then 1 else 0).
    unfold merge. cbn [bfly bitrev_list Nat.pow].
    apply bits_ext. intros i Hi. replace i with 0 by lia.
    by destruct (blk s a d 0).
  - rewrite merge_step by apply length_bits.
    rewrite take_bits, drop_bits by (rewrite Nat.pow_succ_r'; lia).
    replace (2 ^ S k - 2 ^ k) with (2 ^ k) by (rewrite Nat.pow_succ_r'; lia).
    rewrite zip_with_max_bits, zip_with_min_bits.
    destruct (blk_halves s a d (2 ^ k))
      as (s1 & a1 & d1 & s2 & a2 & d2 & Hmax & Hmin & Hc).
    rewrite (bits_ext _ _ _ Hmax), (bits_ext _ _ _ Hmin).
    by apply merge_halves_01.
Qed.

(** With the comparison the other way round the zeros come first. *)
Lemma merge_01_asc (k : nat) (s : bool) (a d : nat) :
  ∃ m, merge Z.min Z.max k (bits (blk s a d) (2 ^ k))
       = bits (blk true 0 m) (2 ^ k).
Proof.
  destruct (merge_01 k (negb s) a d) as [m Hm]. exists m.
  assert (Hb : bits (blk s a d) (2 ^ k)
               = compl <$> bits (blk (negb s) a d) (2 ^ k)).
  { unfold compl. rewrite fmap_compl_bits. apply bits_ext. intros i _.
    unfold blk. by destruct s, (bool_decide _). }
  rewrite Hb.
  rewrite <- (merge_hom Z.max Z.min Z.min Z.max compl)
    by (intros; unfold compl; lia).
  rewrite Hm. unfold compl. rewrite fmap_compl_bits.
  apply bits_ext. intros i _. unfold blk. by destruct (bool_decide _).
Qed.

Lemma bsort_01 (k : nat) (p : nat → bool) :
  ∃ m, bsort k (bits p (2 ^ k)) = bits (blk false 0 m) (2 ^ k).
Proof.
  revert p. induction k as [|k IH]; intros p.
  - exists (if p 0 then 1 else 0). cbn [bsort Nat.pow].
    apply bits_ext. intros i Hi. replace i with 0 by lia.
    unfold blk. destruct (p 0); repeat case_bool_decide; simpl; try done; lia.
  - cbn [bsort]. cbn zeta.
    rewrite take_bits, drop_bits by (rewrite Nat.pow_succ_r'; lia).
    replace (2 ^ S k - 2 ^ k) with (2 ^ k) by (rewrite Nat.pow_succ_r'; lia).
    destruct (IH p) as [m1 ->].
    destruct (IH (λ i, p (2 ^ k + i))) as [m2 ->].
    rewrite reverse_bits, zip_with_max_bits, zip_with_min_bits.
    rewrite (bits_ext _ (blk true m1 (2 ^ k - m2))); cycle 1.
    { intros i Hi. unfold blk.
      repeat case_bool_decide; simpl; try done; lia. }
    rewrite (bits_ext (λ i, _ && _) (blk false (2 ^ k - m2) m1)); cycle 1.
    { intros i Hi. unfold blk.
      repeat case_bool_decide; simpl; try done; lia. }
    apply merge_halves_01; [apply merge_01|].
    destruct (decide (2 ^ k - m2 ≤ m1)); [left|right]; intros i Hi;
      unfold blk; repeat case_bool_decide; simpl; try done; lia.
Qed.

Lemma bstage_01 (k : nat) (p : nat → bool) :
  ∃ s a d, bstage k (bits p (2 ^ k)) = bits (blk s a d) (2 ^ k).
Proof.
  revert p. induction k as [|k IH]; intros p.
  - exists (p 0), 0, 0. cbn [bstage].
    apply bits_ext. intros i Hi. replace i with 0 by (cbn in Hi; lia).
    unfold blk. destruct (p 0); repeat case_bool_decide; simpl; try done; lia.
  - cbn [bstage].
    rewrite take_bits, drop_bits by (rewrite Nat.pow_succ_r'; lia).
    replace (2 ^ S k - 2 ^ k) with (2 ^ k) by (rewrite Nat.pow_succ_r'; lia).
    destruct (IH p) as (s1 & a1 & d1 & ->).
    destruct (IH (λ i, p (2 ^ k + i))) as (s2 & a2 & d2 & ->).
    destruct (merge_01_asc k s1 a1 d1) as [m1 ->].
    destruct (merge_01 k s2 a2 d2) as [m2 ->].
    exists false, (m1 `min` 2 ^ k), (2 ^ k + m2 `min` 2 ^ k).
    rewrite bits_app.
    replace (2 ^ S k) with (2 ^ k + 2 ^ k) by (rewrite Nat.pow_succ_r'; lia).
    apply bits_ext. intros i Hi. unfold blk.
    case_decide; repeat case_bool_decide; simpl; try done; lia.
Qed.

(** *** The zero-one principle *)

Section monotone.
Context (h : Z → Z).
Hypothesis Hmax : ∀ a b, h (Z.max a b) = Z.max (h a) (h b).
Hypothesis Hmin : ∀ a b, h (Z.min a b) = Z.min (h a) (h b).

Lemma bsort_hom (k : nat) (X : list Z) :
  h <$> bsort k X = bsort k (h <$> X).
Proof.
  revert X. induction k as [|k IH]; intros X; [done|].
  cbn [bsort]. cbn zeta.
  rewrite fmap_app, !(merge_hom Z.max Z.min Z.max Z.min h) by done.
  rewrite (zip_with_hom h Z.max Z.max), (zip_with_hom h Z.min Z.min) by done.
  by rewrite fmap_reverse, !IH, fmap_take, fmap_drop.
Qed.

Lemma bstage_hom (k : nat) (X : list Z) :
  h <$> bstage k X = bstage k (h <$> X).
Proof.
  revert X. induction k as [|k IH]; intros X; [done|].
  cbn [bstage].
  rewrite fmap_app, (merge_hom Z.max Z.min Z.max Z.min h),
    (merge_hom Z.min Z.max Z.min Z.max h) by done.
  by rewrite !IH, fmap_take, fmap_drop.
Qed.

Lemma lsort_hom (k : nat) (X : list Z) :
  h <$> lsort k X = lsort k (h <$> X).
Proof.
  unfold lsort.
  by rewrite (merge_hom Z.max Z.min Z.max Z.min h), bstage_hom.
Qed.
End monotone.

Lemma threshold_max (c a b : Z) :
  Z.b2z (bool_decide (c ≤ Z.max a b)%Z)
  = Z.max (Z.b2z (bool_decide (c ≤ a)%Z)) (Z.b2z (bool_decide (c ≤ b)%Z)).
Proof. repeat case_bool_decide; simpl; lia. Qed.

Lemma threshold_min (c a b : Z) :
  Z.b2z (bool_decide (c ≤ Z.min a b)%Z)
  = Z.min (Z.b2z (bool_decide (c ≤ a)%Z)) (Z.b2z (bool_decide (c ≤ b)%Z)).
Proof. repeat case_bool_decide; simpl; lia. Qed.

Lemma StronglySorted_lookup_ge (Y : list Z) :
  (∀ i j x y, i < j → Y !! i = Some x → Y !! j = Some y → (y ≤ x)%Z) →
  StronglySorted Z.ge Y.
Proof.
  induction Y as [|x Y IH]; intros H; [constructor|].
  apply StronglySorted_cons. split.
  - apply Forall_lookup_2. intros j y Hy.
    apply Z.le_ge. by apply (H 0 (S j) x y); [lia|..].
  - apply IH. intros i j a b Hij Ha Hb.
    by apply (H (S i) (S j)); [lia|..].
Qed.

(** A network of comparisons that puts the ones of every list of zeros
    and ones first sorts every list. *)
Lemma zero_one_principle (S : list Z → list Z) (n : nat) :
  (∀ c X, (λ x, Z.b2z (bool_decide (c ≤ x)%Z)) <$> S X
          = S ((λ x, Z.b2z (bool_decide (c ≤ x)%Z)) <$> X)) →
  (∀ p, ∃ m, S (bits p n) = bits (blk false 0 m) n) →
  ∀ X, length X = n → StronglySorted Z.ge (S X).
Proof.
  intros Hhom H01 X Hlen. apply StronglySorted_lookup_ge.
  intros i j x y Hij Hx Hy.
  pose proof (Hhom y X) as Hh. rewrite (fmap_threshold y X), Hlen in Hh.
  destruct (H01 (λ i, bool_decide (y ≤ default 0%Z (X !! i))%Z)) as [m Hm].
  rewrite Hm in Hh.
  assert (Hjn : j < n).
  { apply (f_equal length) in Hh. rewrite length_fmap, length_bits in Hh.
    apply lookup_lt_Some in Hy. lia. }
  pose proof (f_equal (λ l, l !! i) Hh) as Hi.
  pose proof (f_equal (λ l, l !! j) Hh) as Hj.
  cbn beta in Hi, Hj.
  rewrite list_lookup_fmap, lookup_bits in Hi, Hj by lia.
  rewrite Hx in Hi. rewrite Hy in Hj.
  cbn in Hi, Hj. unfold blk in Hi, Hj.
  repeat case_bool_decide; simpl in *; try done; lia.
Qed.

Lemma bsort_perm (k : nat) (X : list Z) :
  length X = 2 ^ k → length (bsort k X) = 2 ^ k ∧ bsort k X ≡ₚ X.
Proof.
  revert X. induction k as [|k IH]; intros X HX; [done|].
  cbn [bsort]. cbn zeta. destruct (pow2_halves k X HX) as [H1 H2].
  destruct (IH _ H1) as [Hl1 Hp1]. destruct (IH _ H2) as [Hl2 Hp2].
  assert (Hz : ∀ op : Z → Z → Z, length (zip_with op (bsort k (take (2 ^ k) X))
                        (reverse (bsort k (drop (2 ^ k) X)))) = 2 ^ k).
  { intros op. rewrite length_zip_with, length_reverse. lia. }
  split.
  - rewrite length_app, !length_merge, Nat.pow_succ_r' by done. lia.
  - rewrite !merge_perm by (apply max_min_perm || done).
    pose proof (swap_perm Z.max Z.min max_min_perm
                  (bsort k (take (2 ^ k) X))
                  (reverse (bsort k (drop (2 ^ k) X)))) as Hs.
    unfold swap in Hs. rewrite Hs by (rewrite length_reverse; lia).
    by rewrite reverse_Permutation, Hp1, Hp2, take_drop.
Qed.

Lemma bstage_perm (k : nat) (X : list Z) :
  length X = 2 ^ k → length (bstage k X) = 2 ^ k ∧ bstage k X ≡ₚ X.
Proof.
  revert X. induction k as [|k IH]; intros X HX; [done|].
  cbn [bstage]. destruct (pow2_halves k X HX) as [H1 H2].
  destruct (IH _ H1) as [Hl1 Hp1]. destruct (IH _ H2) as [Hl2 Hp2].
  split.
  - rewrite length_app, !length_merge, Nat.pow_succ_r' by done. lia.
  - rewrite (merge_perm _ _ min_max_perm), (merge_perm _ _ max_min_perm)
      by done.
    by rewrite Hp1, Hp2, take_drop.
Qed.

(** What the model of [bitonic_sort] returns is sorted and has the
    elements of the input. *)
Lemma bsort_sorts (k : nat) (X : list Z) :
  length X = 2 ^ k → StronglySorted Z.ge (bsort k X) ∧ bsort k X ≡ₚ X.
Proof.
  intros HX. split; [|by apply bsort_perm].
  apply (zero_one_principle (bsort k) (2 ^ k)); [|apply bsort_01|done].
  intros c Y. apply bsort_hom; intros; [apply threshold_max|apply threshold_min].
Qed.

Lemma lsort_sorts (k : nat) (X : list Z) :
  length X = 2 ^ k → StronglySorted Z.ge (lsort k X) ∧ lsort k X ≡ₚ X.
Proof.
  intros HX. split.
  - apply (zero_one_principle (lsort k) (2 ^ k)); [| |done].
    + intros c Y. apply lsort_hom; intros;
        [apply threshold_max|apply threshold_min].
    + intros p. unfold lsort. destruct (bstage_01 k p) as (s & a & d & ->).
      apply merge_01.
  - unfold lsort. destruct (bstage_perm k X HX) as [Hl Hp].
    by rewrite (merge_perm _ _ max_min_perm).
Qed.

Lemma sorts_agree (k : nat) (X : list Z) :
  length X = 2 ^ k → lsort k X = bsort k X.
Proof.
  intros HX. destruct (bsort_sorts k X HX) as [Hs1 Hp1].
  destruct (lsort_sorts k X HX) as [Hs2 Hp2].
  assert (AntiSymm eq Z.ge) by (intros a b ??; lia).
  apply (StronglySorted_unique Z.ge); [done..|by rewrite Hp1, Hp2].
Qed.
End sorting_network.

(** *** [bitonic_sort] computes the network *)

Section divconq_pure.
Context {T R : Type}.
Context (F : hops.callable T R) (m : nat → list T → R) (K : nat).
Hypothesis Hleaf : ∀ a b, hops.on_arrays F [a] [b] = Some (m 1 [a; b]).
Hypothesis Hnode :
  ∀ k X, 1 ≤ k < K → length X = 2 ^ S k →
    hops.on_results F (m k (take (2 ^ k) X)) (m k (drop (2 ^ k) X))
    = Some (m (S k) X).

(** A divide-and-conquer whose callable always returns computes the
    function that the callable's results define level by level. *)
Lemma DivconqHelper_pure (k : nat) (X : list T) :
  S k ≤ K → length X = 2 ^ S k →
  hops.DivconqHelper (S k) F X = Some (m (S k) X).
Proof.
  revert X. induction k as [|k IH]; intros X Hk Hlen.
  - rewrite DivconqHelper_1, decide_True
      by (rewrite shiftl_1_of_nat; by f_equal).
    rewrite split_ok. cbn [mbind option_bind fst snd].
    change (N.to_nat 1) with 1.
    destruct X as [|a [|b [|??]]]; try done. apply Hleaf.
  - rewrite DivconqHelper_SS, decide_True
      by (rewrite shiftl_1_of_nat; by f_equal).
    rewrite split_ok. cbn [mbind option_bind fst snd].
    rewrite shiftl_1_of_nat, Nat2N.id.
    destruct (pow2_halves (S k) X Hlen) as [Hl Hr].
    rewrite !IH by (done || lia). cbn [mbind option_bind].
    apply Hnode; [lia|done].
Qed.
End divconq_pure.

Section bitonic_hop.
Import bitrev_model bitonic_model.

Lemma CAS_min_eq (l r : Z) : bitonic.min l r = Some (Z.max l r, Z.min l r).
Proof.
  unfold bitonic.min, bitonic.CAS. case_bool_decide.
  - by rewrite Z.max_r, Z.min_l by lia.
  - by rewrite Z.max_l, Z.min_r by lia.
Qed.

Lemma CAS_max_eq (l r : Z) : bitonic.max l r = Some (Z.min l r, Z.max l r).
Proof.
  unfold bitonic.max, bitonic.CAS. case_bool_decide.
  - by rewrite Z.max_l, Z.min_r by lia.
  - by rewrite Z.max_r, Z.min_l by lia.
Qed.

Lemma unzip_ok {TL TR} (IN : list (TL * TR)) :
  hops.unzip IN = Some (IN.*1, IN.*2).
Proof. apply XipHelper_unzip_ok. Qed.

Lemma fst_zip_with_pair {A B C D} (f : A → B → C) (g : A → B → D)
    (L : list A) (R : list B) :
  (zip_with (λ l r, (f l r, g l r)) L R).*1 = zip_with f L R ∧
  (zip_with (λ l r, (f l r, g l r)) L R).*2 = zip_with g L R.
Proof.
  revert R. induction L as [|l L IH]; intros [|r R]; try done.
  destruct (IH R) as [H1 H2]. cbn [zip_with fmap list_fmap fst snd].
  by rewrite H1, H2.
Qed.

Lemma zipWith_unzip_min (L R : list Z) :
  length L = length R →
  (z ← hops.zipWith bitonic.min L R; hops.unzip z)
  = Some (zip_with Z.max L R, zip_with Z.min L R).
Proof.
  intros Hlen.
  rewrite (zipWith_total _ (λ l r, (Z.max l r, Z.min l r)))
    by (done || apply CAS_min_eq).
  cbn [mbind option_bind]. rewrite unzip_ok.
  by destruct (fst_zip_with_pair Z.max Z.min L R) as [-> ->].
Qed.

Lemma swap_callable_ok (L R : list Z) :
  length L = length R →
  hops.compose2 (hops.uncurry hops.concatenate)
    (hops.compose2 hops.unzip (hops.partial hops.zipWith bitonic.min)) L R
  = Some (swap Z.max Z.min L R).
Proof.
  intros Hlen. unfold hops.compose2, hops.partial, hops.uncurry.
  rewrite zipWith_unzip_min by done. cbn [mbind option_bind fst snd].
  apply concatenate_ok.
Qed.

Lemma divconq_swap_ok (G : list Z → list Z → option (list Z))
    (f g : Z → Z → Z) (k : nat) (X : list Z) :
  (∀ L R, length L = length R → G L R = Some (swap f g L R)) →
  1 ≤ k ≤ 30 → length X = 2 ^ k →
  hops.divconq (hops.Callable G G) X = Some (bfly f g k X).
Proof.
  intros HG Hk HX. rewrite (divconq_pow2 _ _ k) by done.
  destruct k as [|k]; [lia|].
  apply (DivconqHelper_pure _ (bfly f g) (S k)); [| |lia|done].
  - intros a b. cbn [hops.on_arrays]. by rewrite HG.
  - intros j Y Hj HY. cbn [hops.on_results].
    destruct (pow2_halves j Y HY) as [H1 H2].
    rewrite HG by (by rewrite !length_bfly). done.
Qed.

Lemma BitonicOperator_ok (k : nat) (L R : list Z) :
  k ≤ 30 → length L = 2 ^ k → length R = 2 ^ k →
  bitonic.BitonicOperator L R
  = Some (merge Z.max Z.min k (zip_with Z.max L (reverse R))
          ++ merge Z.max Z.min k (zip_with Z.min L (reverse R))).
Proof.
  intros Hk HL HR. unfold bitonic.BitonicOperator.
  rewrite decide_True by lia.
  destruct k as [|k].
  - rewrite decide_True by done.
    destruct L as [|l [|??]], R as [|r [|??]]; try done.
    pose proof (zipWith_unzip_min [l] [r] eq_refl) as H.
    destruct (hops.zipWith bitonic.min [l] [r]) as [z|]; [|done].
    cbn [mbind option_bind] in H |- *. rewrite H.
    cbn [mbind option_bind]. unfold hops.uncurry. cbn [fst snd].
    by rewrite concatenate_ok.
  - assert (H2k : 2 ≤ 2 ^ S k).
    { rewrite Nat.pow_succ_r'. pose proof (Nat.pow_nonzero 2 k). lia. }
    rewrite decide_False by lia.
    rewrite reverse_ok. cbn [mbind option_bind].
    pose proof (zipWith_unzip_min L (reverse R)) as H.
    rewrite length_reverse in H. specialize (H ltac:(lia)).
    destruct (hops.zipWith bitonic.min L (reverse R)) as [z|]; [|done].
    cbn [mbind option_bind] in H |- *. rewrite H.
    cbn [mbind option_bind fst snd]. cbn zeta.
    assert (Hz : ∀ op : Z → Z → Z,
              length (zip_with op L (reverse R)) = 2 ^ S k).
    { intros op. rewrite length_zip_with, length_reverse. lia. }
    rewrite !(bitonic_bitreverse_ok (S k)) by (done || lia).
    cbn [mbind option_bind].
    rewrite !(divconq_swap_ok _ Z.max Z.min (S k))
      by (apply swap_callable_ok || lia || by rewrite length_bitrev_list).
    cbn [mbind option_bind].
    rewrite !(bitonic_bitreverse_ok (S k))
      by (lia || by rewrite length_bfly by (by rewrite length_bitrev_list)).
    cbn [mbind option_bind]. apply concatenate_ok.
Qed.

Lemma bitonic_sort_ok (k : nat) (IN : list Z) :
  1 ≤ k ≤ 30 → length IN = 2 ^ k →
  bitonic.bitonic_sort IN = Some (bsort k IN).
Proof.
  intros Hk Hlen. unfold bitonic.bitonic_sort.
  rewrite (divconq_pow2 _ _ k) by done.
  destruct k as [|k]; [lia|].
  apply (DivconqHelper_pure _ bsort (S k)); [| |lia|done].
  - intros a b. cbn [hops.on_arrays bitonic.bitonicOperator].
    rewrite (BitonicOperator_ok 0) by (done || lia). reflexivity.
  - intros j Y Hj HY. cbn [hops.on_results bitonic.bitonicOperator].
    destruct (pow2_halves j Y HY) as [H1 H2].
    rewrite (BitonicOperator_ok j);
      [done|lia|by apply bsort_perm..].
Qed.
End bitonic_hop.

(** *** The stages of [loop::butterfly] *)

Section blocks_facts.
Import bitrev_model bitonic_model.
Implicit Types (F G : list Z → list Z).

Lemma length_blocks F s nb X :
  (∀ B, length B = s → length (F B) = s) → length X = nb * s →
  length (blocks F s nb X) = nb * s.
Proof.
  intros HF. revert X. induction nb as [|nb IH]; intros X HX; [done|].
  cbn [blocks]. rewrite length_app, HF, IH; [lia|..];
    rewrite ?length_take, ?length_drop; lia.
Qed.

Lemma lookup_blocks F s nb X grp u :
  (∀ B, length B = s → length (F B) = s) → length X = nb * s →
  grp < nb → u < s →
  blocks F s nb X !! (grp * s + u) = F (take s (drop (grp * s) X)) !! u.
Proof.
  intros HF. revert X grp. induction nb as [|nb IH]; intros X grp HX Hg Hu;
    [lia|].
  cbn [blocks]. destruct grp as [|grp].
  - rewrite lookup_app_l
      by (rewrite HF by (rewrite length_take; lia); lia).
    done.
  - rewrite lookup_app_r
      by (rewrite HF by (rewrite length_take; lia); lia).
    rewrite HF by (rewrite length_take; lia).
    replace (S grp * s + u - s) with (grp * s + u) by lia.
    rewrite IH by (rewrite ?length_drop; lia).
    by rewrite drop_drop.
Qed.

Lemma blocks_ext F G s nb X :
  (∀ B, length B = s → F B = G B) → length X = nb * s →
  blocks F s nb X = blocks G s nb X.
Proof.
  intros HFG. revert X. induction nb as [|nb IH]; intros X HX; [done|].
  cbn [blocks]. rewrite HFG, IH; [done|..];
    rewrite ?length_take, ?length_drop; lia.
Qed.

Lemma blocks_singletons F n X :
  (∀ B, F B = B) → length X = n → blocks F 1 n X = X.
Proof.
  intros HF. revert X. induction n as [|n IH]; intros [|x X] HX; try done.
  cbn [blocks]. rewrite HF. cbn [take drop app]. rewrite take_0. f_equal.
  rewrite drop_0. apply IH. simpl in HX. lia.
Qed.

Lemma blocks_one F s X : length X = s → blocks F s 1 X = F X.
Proof.
  intros HX. cbn [blocks]. by rewrite take_ge, app_nil_r by lia.
Qed.

Context (f g : Z → Z → Z).

(** A stage on the butterflies of [2 * nb] blocks gives the butterflies
    of the [nb] blocks of twice the length. *)
Lemma stage_blocks_bfly (j nb : nat) (X : list Z) :
  length X = nb * 2 ^ S j →
  stage f g nb (2 ^ j) (blocks (bfly f g j) (2 ^ j) (2 * nb) X)
  = blocks (bfly f g (S j)) (2 ^ S j) nb X.
Proof.
  unfold stage. rewrite <- Nat.pow_succ_r'.
  revert X. induction nb as [|nb IH]; intros X HX; [done|].
  replace (2 * S nb) with (S (S (2 * nb))) by lia.
  cbn [blocks].
  assert (Hs : 2 ^ S j = 2 ^ j + 2 ^ j) by (rewrite Nat.pow_succ_r'; lia).
  assert (H1 : length (bfly f g j (take (2 ^ j) X)) = 2 ^ j).
  { apply length_bfly. rewrite length_take. lia. }
  assert (H2 : length (bfly f g j (take (2 ^ j) (drop (2 ^ j) X))) = 2 ^ j).
  { apply length_bfly. rewrite length_take, length_drop. lia. }
  rewrite !(assoc_L (++)).
  rewrite take_app_length' by (rewrite length_app; lia).
  rewrite take_app_length', drop_app_length' by done.
  rewrite drop_app_length' by (rewrite length_app; lia).
  rewrite drop_drop, <- Hs, IH by (rewrite length_drop; lia).
  f_equal. cbn [bfly].
  rewrite take_take, Nat.min_l by lia.
  by rewrite Hs, take_drop_commute.
Qed.

Lemma lookup_stage (nb s : nat) (row : list Z) (grp top : nat) (a b : Z) :
  length row = nb * (2 * s) → grp < nb → top < s →
  row !! (grp * (2 * s) + top) = Some a →
  row !! (grp * (2 * s) + top + s) = Some b →
  stage f g nb s row !! (grp * (2 * s) + top) = Some (f a b) ∧
  stage f g nb s row !! (grp * (2 * s) + top + s) = Some (g a b).
Proof.
  intros Hlen Hgrp Htop Ha Hb. unfold stage.
  assert (HF : ∀ B, length B = 2 * s →
            length (swap f g (take s B) (drop s B)) = 2 * s).
  { intros B HB. rewrite length_swap; rewrite length_take, ?length_drop; lia. }
  rewrite <- Nat.add_assoc.
  rewrite !lookup_blocks by (done || lia).
  set (B := take (2 * s) (drop (grp * (2 * s)) row)).
  assert (HB : length B = 2 * s).
  { subst B. rewrite length_take, length_drop. nia. }
  assert (H1 : take s B !! top = Some a).
  { subst B. rewrite lookup_take_lt, lookup_take_lt, lookup_drop by lia.
    done. }
  assert (H2 : drop s B !! top = Some b).
  { subst B. rewrite lookup_drop, lookup_take_lt, lookup_drop by lia.
    rewrite <- Hb. f_equal. lia. }
  unfold swap. split.
  - rewrite lookup_app_l
      by (rewrite length_zip_with, length_take, length_drop; lia).
    by rewrite lookup_zip_with, H1, H2.
  - rewrite lookup_app_r
      by (rewrite length_zip_with, length_take, length_drop; lia).
    rewrite length_zip_with, length_take, length_drop.
    replace (top + s - _) with top by lia.
    by rewrite lookup_zip_with, H1, H2.
Qed.
End blocks_facts.

Section butterfly_facts.
Import bitrev_model bitonic_model.

Lemma butterfly_index (l i : nat) :
  let stride := N.shiftl 1 (N.of_nat l) in
  let base := (N.land (N.of_nat i) (stride - 1)
               + N.shiftl (N.shiftr (N.of_nat i) (N.of_nat l))
                          (N.of_nat (l + 1)))%N in
  N.to_nat base = i / 2 ^ l * (2 * 2 ^ l) + i mod 2 ^ l ∧
  N.to_nat (base + stride) = i / 2 ^ l * (2 * 2 ^ l) + i mod 2 ^ l + 2 ^ l.
Proof.
  cbn zeta. rewrite N.shiftl_1_l, N.sub_1_r, <- N.ones_equiv, N.land_ones.
  rewrite N.shiftr_div_pow2, N.shiftl_mul_pow2.
  assert (Hp : (2 ^ N.of_nat l)%N = N.of_nat (2 ^ l))
    by (by rewrite Nat2N.inj_pow).
  assert (Hp' : (2 ^ N.of_nat (l + 1))%N = N.of_nat (2 * 2 ^ l)).
  { rewrite Nat.add_1_r, <- Nat.pow_succ_r', Nat2N.inj_pow. done. }
  rewrite Hp, Hp', <- Nat2N.inj_mod, <- Nat2N.inj_div. lia.
Qed.

Lemma load2_row {T} (st : list (list (option T))) (r c : nat)
    (row : list T) (x : T) :
  st !! r = Some (Some <$> row) → row !! c = Some x → load2 st r c = Some x.
Proof.
  intros Hr Hc. unfold load2. rewrite Hr. cbn [mbind option_bind].
  by rewrite list_lookup_fmap, Hc.
Qed.

Lemma store2_masked {T} (st : list (list (option T))) (r c : nat)
    (mask : list bool) (tgt : list T) (x : T) :
  r < length st → length mask = length tgt → tgt !! c = Some x →
  store2 (<[r := masked mask tgt]> st) r c x
  = Some (<[r := masked (<[c := true]> mask) tgt]> st).
Proof.
  intros Hr Hlen Hc. unfold store2.
  rewrite list_lookup_insert_eq by done. cbn [mbind option_bind].
  rewrite store_masked by done. cbn [mbind option_bind].
  by rewrite list_insert_insert_eq.
Qed.

Context (F : Z → Z → option (Z * Z)) (f g : Z → Z → Z).
Hypothesis HF : ∀ a b, F a b = Some (f a b, g a b).

(** The loop over the pairs of one level computes one stage. *)
Lemma butterfly_pairs (k l : nat) (row : list Z)
    (st : list (list (option Z))) :
  l < k → length row = 2 ^ k →
  st !! l = Some (Some <$> row) → st !! (l + 1) = Some (uninit (2 ^ k)) →
  for_loop 0 (N.to_nat (N.shiftl 1 (N.of_nat (k - 1))))
    (λ i stagearr,
       let stride := N.shiftl 1 (N.of_nat l) in
       let mask := (stride - 1)%N in
       let grp := N.shiftr (N.of_nat i) (N.of_nat l) in
       let top := N.land (N.of_nat i) mask in
       let base := (top + N.shiftl grp (N.of_nat (l + 1)))%N in
       a ← load2 stagearr l (N.to_nat base);
       b ← load2 stagearr l (N.to_nat (base + stride));
       o ← F a b;
       stagearr ← store2 stagearr (l + 1) (N.to_nat base) o.1;
       store2 stagearr (l + 1) (N.to_nat (base + stride)) o.2)
    st
  = Some (<[l + 1 := Some <$> stage f g (2 ^ (k - 1 - l)) (2 ^ l) row]> st).
Proof.
  intros Hl Hlen Hrow Hnext.
  set (s := 2 ^ l). set (nb := 2 ^ (k - 1 - l)).
  assert (Hs : 0 < s) by (subst s; pose proof (Nat.pow_nonzero 2 l); lia).
  assert (Hk1 : 2 ^ (k - 1) = nb * s).
  { subst nb s. rewrite <- Nat.pow_add_r. f_equal. lia. }
  assert (Hk : 2 ^ k = nb * (2 * s)).
  { replace k with (S (k - 1)) at 1 by lia. rewrite Nat.pow_succ_r'. lia. }
  set (tgt := stage f g nb s row).
  assert (Htl : length tgt = 2 ^ k).
  { subst tgt. unfold stage. rewrite length_blocks; [lia| |lia].
    intros B HB. rewrite length_swap; rewrite length_take, ?length_drop; lia. }
  assert (Hnl : l + 1 < length st) by (by eapply lookup_lt_Some).
  rewrite shiftl_1_of_nat, Nat2N.id, Hk1.
  unfold for_loop. rewrite Nat.sub_0_r.
  set (body := λ (i : nat) (stagearr : list (list (option Z))), _).
  set (base := λ i, i / s * (2 * s) + i mod s).
  assert (H : ∀ n, n ≤ nb * s →
            ∃ mask, length mask = 2 ^ k ∧
                    (∀ i, i < n → mask !! base i = Some true ∧
                                  mask !! (base i + s) = Some true) ∧
                    for_iter n 0 body st
                    = Some (<[l + 1 := masked mask tgt]> st)).
  { induction n as [|n IH]; intros Hn.
    - exists (replicate (2 ^ k) false).
      rewrite length_replicate. split_and!; [done|lia|].
      cbn [for_iter]. rewrite <- Htl, masked_none, Htl.
      by rewrite list_insert_id.
    - destruct IH as (mask & Hml & Hmask & Hiter); [lia|].
      rewrite for_iter_snoc, Hiter. cbn [mbind option_bind].
      rewrite Nat.add_0_l. subst body. cbn beta zeta.
      destruct (butterfly_index l n) as [Hb1 Hb2]. cbn zeta in Hb1, Hb2.
      rewrite Hb1, Hb2. fold s. fold (base n).
      assert (Hgrp : n / s < nb)
        by (apply Nat.Div0.div_lt_upper_bound; lia).
      assert (Htop : n mod s < s) by (apply Nat.mod_upper_bound; lia).
      assert (Hbn : base n + s < 2 ^ k) by (subst base; cbn beta; nia).
      destruct (lookup_lt_is_Some_2 row (base n)) as [a Ha]; [lia|].
      destruct (lookup_lt_is_Some_2 row (base n + s)) as [b Hb]; [lia|].
      destruct (lookup_stage f g nb s row (n / s) (n mod s) a b)
        as [Ht1 Ht2]; [lia|done|done|exact Ha|exact Hb|].
      fold tgt in Ht1, Ht2. fold (base n) in Ht1, Ht2.
      rewrite (load2_row _ l (base n) row a), (load2_row _ l (base n + s) row b);
        [|(rewrite list_lookup_insert_ne by lia; done) || done..].
      cbn [mbind option_bind]. rewrite HF. cbn [mbind option_bind fst snd].
      rewrite store2_masked by (done || lia). cbn [mbind option_bind].
      rewrite store2_masked by (done || rewrite ?length_insert; lia).
      eexists. split_and!; [|..|done].
      + rewrite !length_insert. lia.
      + intros i Hi.
        assert (∀ v, v < 2 ^ k →
                  (v = base n ∨ v = base n + s ∨ mask !! v = Some true) →
                  <[base n + s := true]> (<[base n := true]> mask) !! v
                  = Some true) as Hins.
        { intros v Hv Hc.
          destruct (decide (v = base n + s)) as [->|Hv1].
          { apply list_lookup_insert_eq. rewrite length_insert. lia. }
          rewrite list_lookup_insert_ne by done.
          destruct (decide (v = base n)) as [->|Hv2].
          { apply list_lookup_insert_eq. lia. }
          rewrite list_lookup_insert_ne by done.
          by destruct Hc as [?|[?|?]]. }
        assert (Hbi : base i + s < 2 ^ k).
        { destruct (decide (i = n)) as [->|]; [done|].
          destruct (Hmask i) as [_ Hm]; [lia|].
          apply lookup_lt_Some in Hm. lia. }
        destruct (decide (i = n)) as [->|Hne].
        * split; apply Hins; lia || auto.
        * destruct (Hmask i) as [Hm1 Hm2]; [lia|].
          split; apply Hins; lia || auto. }
  destruct (H (nb * s)) as (mask & Hml & Hmask & ->); [done|].
  do 2 f_equal. apply masked_all; [lia|].
  intros v Hv. rewrite Htl, Hk in Hv.
  pose proof (Nat.div_mod_eq v (2 * s)) as Hdm.
  pose proof (Nat.mod_upper_bound v (2 * s)) as Hu.
  assert (Hq : v / (2 * s) < nb)
    by (apply Nat.Div0.div_lt_upper_bound; lia).
  set (q := v / (2 * s)) in *. set (u := v mod (2 * s)) in *.
  destruct (decide (u < s)) as [Hlt|Hge].
  - destruct (Hmask (q * s + u)) as [Hm _]; [nia|].
    replace (base (q * s + u)) with v in Hm; [done|].
    subst base. cbn beta.
    rewrite Nat.div_add_l, Nat.div_small, Nat.add_0_r by lia.
    rewrite (Nat.add_comm (q * s) u), Nat.Div0.mod_add, Nat.mod_small by lia.
    lia.
  - destruct (Hmask (q * s + (u - s))) as [_ Hm]; [nia|].
    replace (base (q * s + (u - s)) + s) with v in Hm; [done|].
    subst base. cbn beta.
    rewrite Nat.div_add_l, Nat.div_small, Nat.add_0_r by lia.
    rewrite (Nat.add_comm (q * s) (u - s)), Nat.Div0.mod_add, Nat.mod_small
      by lia.
    lia.
Qed.

Lemma butterfly_ok (k : nat) (IN : list Z) :
  1 ≤ k ≤ 30 → length IN = 2 ^ k →
  bitonic.loop.butterfly F IN = Some (bfly f g k IN).
Proof.
  intros Hk Hlen. unfold bitonic.loop.butterfly. cbn zeta.
  rewrite Hlen, clog2_pow2, Nat2N.id by done.
  rewrite decide_True by lia.
  set (st0 := replicate (k + 1) (uninit (2 ^ k))).
  set (rows := λ n, blocks (bfly f g n) (2 ^ n) (2 ^ (k - n)) IN).
  assert (Hinit : for_loop 0 (2 ^ k)
                    (λ i stagearr, x ← IN !! i; store2 stagearr 0 i x) st0
                  = Some (<[0 := Some <$> IN]> st0)).
  { unfold for_loop. rewrite Nat.sub_0_r.
    rewrite (for_iter_store2 (λ idx _, IN !! idx) 0 _ st0 (uninit (2 ^ k)))
      by (done || apply lookup_replicate_2; lia).
    pose proof (fill_uninit (λ idx, IN !! idx) IN) as Hfill.
    unfold for_loop in Hfill. rewrite Nat.sub_0_r, Hlen in Hfill.
    by rewrite Hfill. }
  rewrite Hinit. cbn [mbind option_bind].
  unfold for_loop at 1. rewrite Nat.sub_0_r.
  set (body := λ (l : nat) (stagearr : list (list (option Z))), _).
  assert (H : ∀ n, n ≤ k →
            ∃ st, for_iter n 0 body (<[0 := Some <$> IN]> st0) = Some st ∧
                  length st = k + 1 ∧
                  st !! n = Some (Some <$> rows n) ∧
                  ∀ j, n < j ≤ k → st !! j = Some (uninit (2 ^ k))).
  { induction n as [|n IH]; intros Hn.
    - eexists. split; [done|]. rewrite length_insert. subst st0.
      rewrite length_replicate. split_and!; [done| |].
      + subst rows. cbn beta. rewrite blocks_singletons; [|done|].
        * apply list_lookup_insert_eq. rewrite length_replicate. lia.
        * rewrite Nat.sub_0_r. done.
      + intros j Hj. rewrite list_lookup_insert_ne by lia.
        apply lookup_replicate_2. lia.
    - destruct IH as (st & Hiter & Hstl & Hst & Hrest); [lia|].
      rewrite for_iter_snoc, Hiter. cbn [mbind option_bind].
      rewrite Nat.add_0_l. subst body. cbn beta zeta.
      pose proof (butterfly_pairs k n (rows n) st) as Hp.
      cbn zeta in Hp. rewrite Hp; cycle 1.
      { lia. }
      { subst rows. cbn beta. rewrite length_blocks; [|apply length_bfly|].
        - rewrite <- Nat.pow_add_r. f_equal. lia.
        - rewrite Hlen, <- Nat.pow_add_r. f_equal. lia. }
      { done. }
      { apply Hrest. lia. }
      eexists. split; [done|]. rewrite length_insert.
      replace (n + 1) with (S n) by lia. split_and!; [done| |].
      + rewrite list_lookup_insert_eq by lia. do 2 f_equal.
        subst rows. cbn beta.
        replace (2 ^ (k - n)) with (2 * 2 ^ (k - 1 - n)).
        * rewrite stage_blocks_bfly;
            [by replace (k - 1 - n) with (k - S n) by lia|].
          rewrite Hlen, <- Nat.pow_add_r. f_equal. lia.
        * rewrite <- Nat.pow_succ_r'. f_equal. lia.
      + intros j Hj. rewrite list_lookup_insert_ne by lia. apply Hrest. lia. }
  destruct (H k) as (st & -> & Hstl & Hst & _); [done|].
  cbn [mbind option_bind]. rewrite Hst. cbn [mbind option_bind].
  rewrite freeze_Some. f_equal. subst rows. cbn beta.
  rewrite Nat.sub_diag. by apply blocks_one.
Qed.
End butterfly_facts.

Section bitonic_loop.
Import bitrev_model bitonic_model.

Lemma loop_merge_ok (F : Z → Z → option (Z * Z)) (f g : Z → Z → Z)
    (k : nat) (X : list Z) :
  (∀ a b, F a b = Some (f a b, g a b)) →
  1 ≤ k ≤ 30 → length X = 2 ^ k →
  (b ← bitonic.loop.bitreverse X;
   fl ← bitonic.loop.butterfly F b;
   bitonic.loop.bitreverse fl)
  = Some (merge f g k X).
Proof.
  intros HF Hk HX.
  rewrite (bitonic_loop_bitreverse_ok k) by done. cbn [mbind option_bind].
  rewrite (butterfly_ok F f g HF k)
    by (done || by rewrite length_bitrev_list).
  cbn [mbind option_bind].
  rewrite (bitonic_loop_bitreverse_ok k);
    [done|done|by rewrite length_bfly by (by rewrite length_bitrev_list)].
Qed.

Lemma BitonicStage_ok (k : nat) (L R : list Z) :
  k ≤ 30 → length L = 2 ^ k → length R = 2 ^ k →
  bitonic.loop.BitonicStage L R
  = Some (merge Z.min Z.max k L ++ merge Z.max Z.min k R).
Proof.
  intros Hk HL HR. unfold bitonic.loop.BitonicStage.
  rewrite decide_True by lia.
  destruct k as [|k].
  - rewrite decide_True by done. apply concatenate_ok.
  - assert (H2k : 2 ≤ 2 ^ S k).
    { rewrite Nat.pow_succ_r'. pose proof (Nat.pow_nonzero 2 k). lia. }
    rewrite decide_False by lia.
    pose proof (loop_merge_ok _ _ _ (S k) L CAS_max_eq) as H1.
    pose proof (loop_merge_ok _ _ _ (S k) R CAS_min_eq) as H2.
    specialize (H1 ltac:(lia) HL). specialize (H2 ltac:(lia) HR).
    destruct (bitonic.loop.bitreverse L) as [bl|]; [|done].
    cbn [mbind option_bind] in H1 |- *.
    destruct (bitonic.loop.butterfly bitonic.max bl) as [fl|]; [|done].
    cbn [mbind option_bind] in H1 |- *. rewrite H1.
    cbn [mbind option_bind].
    destruct (bitonic.loop.bitreverse R) as [br|]; [|done].
    cbn [mbind option_bind] in H2 |- *.
    destruct (bitonic.loop.butterfly bitonic.min br) as [fr|]; [|done].
    cbn [mbind option_bind] in H2 |- *. rewrite H2.
    cbn [mbind option_bind]. apply concatenate_ok.
Qed.

Lemma loop_bitonic_sort_ok (k : nat) (IN : list Z) :
  1 ≤ k ≤ 30 → length IN = 2 ^ k →
  bitonic.loop.bitonic_sort IN = Some (lsort k IN).
Proof.
  intros Hk Hlen. unfold bitonic.loop.bitonic_sort.
  rewrite (divconq_pow2 _ _ k) by done.
  assert (Hd : hops.DivconqHelper k bitonic.loop.bitonicStage IN
               = Some (bstage k IN)).
  { destruct k as [|k]; [lia|].
    apply (DivconqHelper_pure _ bstage (S k)); [| |lia|done].
    - intros a b. cbn [hops.on_arrays bitonic.loop.bitonicStage].
      rewrite (BitonicStage_ok 0) by (done || lia). reflexivity.
    - intros j Y Hj HY. cbn [hops.on_results bitonic.loop.bitonicStage].
      destruct (pow2_halves j Y HY) as [H1 H2].
      rewrite (BitonicStage_ok j);
        [done|lia|by apply bstage_perm..]. }
  rewrite Hd. cbn [mbind option_bind].
  apply loop_merge_ok; [apply CAS_min_eq|done|by apply bstage_perm].
Qed.
End bitonic_loop.

(** X30.  On an array of [2^k] integers ([1 <= k <= 30]) [bitonic_sort],
    the divide-and-conquer over [bitonicOperator], and
    [loop::bitonic_sort], the butterfly loops over the result of the
    divide-and-conquer over [bitonicStage], return the same array: the
    elements of the input in descending order. *)
Theorem bitonic_sort_sorts (k : nat) (IN : list Z) :
  1 ≤ k ≤ 30 → length IN = 2 ^ k →
  ∃ OUT, bitonic.bitonic_sort IN = Some OUT ∧
         bitonic.loop.bitonic_sort IN = Some OUT ∧
         StronglySorted Z.ge OUT ∧ OUT ≡ₚ IN.
Proof.
  intros Hk Hlen. exists (bitonic_model.bsort k IN).
  destruct (bsort_sorts k IN Hlen) as [Hs Hp].
  split_and!; [by apply bitonic_sort_ok| |done..].
  rewrite (loop_bitonic_sort_ok k) by done. f_equal.
  by apply sorts_agree.
Qed.

Lemma bitonic_sort_sorts_witness :
  bitonic.bitonic_sort [3; -1; 4; 1; -5; 9; 2; 6]%Z
  = Some [9; 6; 4; 3; 2; 1; -1; -5]%Z ∧
  bitonic.loop.bitonic_sort [3; -1; 4; 1; -5; 9; 2; 6]%Z
  = Some [9; 6; 4; 3; 2; 1; -1; -5]%Z.
Proof.
  destruct (bitonic_sort_sorts 3 [3; -1; 4; 1; -5; 9; 2; 6]%Z)
    as (OUT & H1 & H2 & _); [lia|reflexivity|].
  assert (OUT = [9; 6; 4; 3; 2; 1; -1; -5]%Z) as ->; [|done].
  vm_compute in H1. congruence.
Defined.
